(** * Redex: tracked locations, barriers, common-subexpression
      elimination and class renaming

    A shallow embedding of

    - the common-subexpression-elimination header kept in
      service/type-analysis/TypeAnalysisTransform.h: the tracked-location
      value type [CseLocation] (a union of a field pointer and a
      special-location tag), its equality, order and hasher, the [Barrier]
      record with its equality and hasher, and the declared interface of
      [SharedState] and [CommonSubexpressionElimination]. The bodies of
      the member functions are not in the header; they are modelled from
      the specification, each such definition saying so;
    - the [Stats] of [type_analyzer::Transform] in the same file;
    - opt/renameclasses/RenameClasses.cpp: [getident], [get_next_ident],
      [should_rename] and the loops of [rename_classes] over the scope
      and over the aliases.

    Pointers are modelled by their address (an LP64 machine word, a [Z] in
    [0, 2^64)); a C union is modelled by the one word all its members
    share. The definitions come first, the theorems after them. *)

From Stdlib Require Import ZArith Lia Bool List Ascii String.
From stdpp Require Import base gmap sets list strings.

Local Open Scope Z_scope.

(** ** Machine words and pointers *)

Definition size_t_range (w : Z) : Prop := 0 <= w < 2 ^ 64.

(** [const DexField*] and [const DexMethod*]: the address held. *)
Definition DexFieldPtr := Z.
Definition DexMethodPtr := Z.
Definition nullptr : Z := 0.

(** ** [enum CseSpecialLocations : size_t] *)

Inductive CseSpecialLocations : Set :=
| GENERAL_MEMORY_BARRIER
| ARRAY_COMPONENT_TYPE_INT
| ARRAY_COMPONENT_TYPE_BYTE
| ARRAY_COMPONENT_TYPE_CHAR
| ARRAY_COMPONENT_TYPE_WIDE
| ARRAY_COMPONENT_TYPE_SHORT
| ARRAY_COMPONENT_TYPE_OBJECT
| ARRAY_COMPONENT_TYPE_BOOLEAN
| END.

(** The enumerators count up from zero. *)
Definition special_value (sl : CseSpecialLocations) : Z :=
  match sl with
  | GENERAL_MEMORY_BARRIER => 0
  | ARRAY_COMPONENT_TYPE_INT => 1
  | ARRAY_COMPONENT_TYPE_BYTE => 2
  | ARRAY_COMPONENT_TYPE_CHAR => 3
  | ARRAY_COMPONENT_TYPE_WIDE => 4
  | ARRAY_COMPONENT_TYPE_SHORT => 5
  | ARRAY_COMPONENT_TYPE_OBJECT => 6
  | ARRAY_COMPONENT_TYPE_BOOLEAN => 7
  | END => 8
  end.

(** The proper tags: the general barrier and the array component kinds.
    [END] only marks the end of the range. *)
Definition is_tag (sl : CseSpecialLocations) : bool :=
  match sl with END => false | _ => true end.

(** ** [struct CseLocation]

    [union { const DexField* field; CseSpecialLocations special_location; }]:
    both members are eight bytes wide and share them. *)

Record CseLocation : Set := mkCseLocation { loc_word : Z }.

(** [explicit CseLocation(const DexField* f) : field(f) {}] *)
Definition CseLocation_of_field (f : DexFieldPtr) : CseLocation :=
  mkCseLocation f.

(** [explicit CseLocation(CseSpecialLocations sl) : special_location(sl) {}] *)
Definition CseLocation_of_special (sl : CseSpecialLocations) : CseLocation :=
  mkCseLocation (special_value sl).

(** The two views of the union. *)
Definition field (l : CseLocation) : DexFieldPtr := loc_word l.
Definition special_location (l : CseLocation) : Z := loc_word l.

(** [operator==]: [a.field == b.field]. *)
Definition CseLocation_eqb (a b : CseLocation) : bool :=
  field a =? field b.

(** [operator!=]: [!(a == b)]. *)
Definition CseLocation_neqb (a b : CseLocation) : bool :=
  negb (CseLocation_eqb a b).

(** [CseLocationHasher]: [(size_t)l.field]. *)
Definition CseLocationHasher (l : CseLocation) : Z := field l.

(** [DexField] (DexClass.h) is declared outside this header. It is a class
    that holds pointers, so on LP64 its objects are aligned as a pointer
    is (or more strictly, to a multiple of that). *)
Definition alignof_DexField : Z := 8.

(** A real field identity is the address of a [DexField] object: a machine
    word that is not null and is aligned as the class requires. The
    source relies on such addresses staying clear of the enumerators:
    "special locations are effectively represented as illegal pointer
    values". *)

Definition real_field (f : DexFieldPtr) : Prop :=
  size_t_range f /\ f <> nullptr /\ f mod alignof_DexField = 0.

(** The Locations the program builds: a special one (a word below [END];
    the null field is one of them), or one made from a real field. *)
Definition is_special (l : CseLocation) : bool :=
  special_location l <? special_value END.

Definition CseLocation_wf (l : CseLocation) : Prop :=
  (0 <= loc_word l /\ is_special l = true) \/ real_field (field l).

Section LocationOrder.

(** [dexfields_comparator]: the global order on fields, declared outside
    this header; it is only ever applied to two non-special words. *)
Variable dexfields_comparator : DexFieldPtr -> DexFieldPtr -> bool.

(** [operator<] *)
Definition CseLocation_ltb (a b : CseLocation) : bool :=
  if special_location a <? special_value END then
    if special_location b <? special_value END then
      special_location a <? special_location b
    else
      true
  else if special_location b <? special_value END then
    false
  else
    dexfields_comparator (field a) (field b).

End LocationOrder.

(** A stable global ordering of the real fields: a strict total order. *)
Record fields_strict_total_order (cmp : DexFieldPtr -> DexFieldPtr -> bool) : Prop := {
  cmp_irrefl : forall f, real_field f -> cmp f f = false;
  cmp_trans : forall f g h, real_field f -> real_field g -> real_field h ->
      cmp f g = true -> cmp g h = true -> cmp f h = true;
  cmp_total : forall f g, real_field f -> real_field g ->
      f <> g -> cmp f g = true \/ cmp g f = true
}.

(** ** [struct Barrier]

    [IROpcode opcode; union { const DexField* field{nullptr};
    const DexMethod* method; };] *)

Definition IROpcode := Z.

Record Barrier : Set := mkBarrier { opcode : IROpcode; barrier_word : Z }.

Definition barrier_field (b : Barrier) : DexFieldPtr := barrier_word b.
Definition barrier_method (b : Barrier) : DexMethodPtr := barrier_word b.

(** Aggregate initialisation with only the opcode leaves [field] at its
    default member initialiser. *)
Definition Barrier_of_opcode (op : IROpcode) : Barrier := mkBarrier op nullptr.
Definition Barrier_of_field (op : IROpcode) (f : DexFieldPtr) : Barrier :=
  mkBarrier op f.
Definition Barrier_of_method (op : IROpcode) (m : DexMethodPtr) : Barrier :=
  mkBarrier op m.

(** [operator==]: [a.opcode == b.opcode && a.field == b.field]. *)
Definition Barrier_eqb (a b : Barrier) : bool :=
  (opcode a =? opcode b) && (barrier_field a =? barrier_field b).

(** [BarrierHasher]: [b.opcode ^ (size_t)b.field]. *)
Definition BarrierHasher (b : Barrier) : Z :=
  Z.lxor (opcode b) (barrier_field b).

(** ** [RenameClasses.cpp]: C strings

    A [const char*] into a NUL-terminated buffer is modelled by the
    characters from the pointer up to the terminator. *)

Definition NUL : ascii := Ascii.zero.

(** [std::string::c_str()], [DexString::c_str()]: read as a C string, the
    contents end at the first NUL. *)
Fixpoint c_str (s : string) : string :=
  match s with
  | EmptyString => EmptyString
  | String a s' => if Ascii.eqb a NUL then EmptyString else String a (c_str s')
  end.

(** [*p] and [++p]. At the terminator [*p] is NUL. *)
Definition deref (p : string) : ascii :=
  match p with EmptyString => NUL | String a _ => a end.

Definition incr_ptr (p : string) : string :=
  match p with EmptyString => EmptyString | String _ p' => p' end.

(** A [char] in a comparison is promoted to [int]. *)
Definition char_to_int (a : ascii) : Z :=
  let n := Z.of_N (N_of_ascii a) in
  if n <? 128 then n else n - 256.

(** [strrchr(s, c)]: the last occurrence of [c] in [s]; the terminator
    counts as part of the string. *)
Fixpoint strrchr (s : string) (c : ascii) : option string :=
  match s with
  | EmptyString => if Ascii.eqb c NUL then Some EmptyString else None
  | String a s' =>
      match strrchr s' c with
      | Some p => Some p
      | None => if Ascii.eqb a c then Some s else None
      end
  end.

Fixpoint starts_with (needle hay : string) : bool :=
  match needle, hay with
  | EmptyString, _ => true
  | String _ _, EmptyString => false
  | String a n', String b h' => Ascii.eqb a b && starts_with n' h'
  end.

(** [strstr(haystack, needle)]: the first occurrence of [needle]; an empty
    needle is found at the start. *)
Fixpoint strstr (hay needle : string) : option string :=
  if starts_with needle hay then Some hay
  else match hay with
       | EmptyString => None
       | String _ h' => strstr h' needle
       end.

(** ** [RenameClasses.cpp]: [should_rename] *)

(** An [int] is 32 bits wide: the value of that range with the same low
    32 bits. *)
Definition to_int (z : Z) : Z := (z + 2 ^ 31) mod 2 ^ 32 - 2 ^ 31.

(** The range of an [int]. *)
Definition int_range (z : Z) : Prop := - 2 ^ 31 <= z < 2 ^ 31.

(** The global counters [match_short], [match_long], [match_inner]. They
    are [int]s: [++] at [INT_MAX] is taken to wrap around to [INT_MIN]. *)
Record MatchCounters : Set := mkMatchCounters {
  match_short : Z;
  match_long : Z;
  match_inner : Z
}.

Definition incr_match_short (g : MatchCounters) : MatchCounters :=
  mkMatchCounters (to_int (match_short g + 1)) (match_long g) (match_inner g).
Definition incr_match_long (g : MatchCounters) : MatchCounters :=
  mkMatchCounters (match_short g) (to_int (match_long g + 1)) (match_inner g).
Definition incr_match_inner (g : MatchCounters) : MatchCounters :=
  mkMatchCounters (match_short g) (match_long g) (to_int (match_inner g + 1)).

(** What [should_rename] reads of a [DexClass]: the name of its type, and
    the answer of [can_rename(clazz)] (declared in ReachableClasses.h). *)
Record DexClass : Set := mkDexClass {
  class_name : string;
  rstate_can_rename : bool
}.

Definition can_rename (clazz : DexClass) : bool := rstate_can_rename clazz.

(** [for (auto p : patterns)]: the first pattern found in [chstring]
    returns; [p.length()] is the length of the [std::string]. *)
Fixpoint match_patterns (chstring : string) (patterns : list string)
    (g : MatchCounters) : option MatchCounters :=
  match patterns with
  | [] => None
  | p :: ps =>
      match strstr chstring (c_str p) with
      | Some _ =>
          if 1 <? Z.of_nat (String.length p)
          then Some (incr_match_long g)
          else Some (incr_match_short g)
      | None => match_patterns chstring ps g
      end
  end.

(** The anonymous-class test: [strrchr(chstring, '$')], then
    [val = *++substr] with [val >= '0' && val <= '9']. *)
Definition anonymous_class_test (chstring : string) : bool :=
  match strrchr chstring "$"%char with
  | Some substr =>
      let val := deref (incr_ptr substr) in
      (char_to_int "0"%char <=? char_to_int val) &&
      (char_to_int val <=? char_to_int "9"%char)
  | None => false
  end.

Definition should_rename (clazz : DexClass) (pre_patterns post_patterns : list string)
    (g : MatchCounters) : bool * MatchCounters :=
  let chstring := c_str (class_name clazz) in
  if anonymous_class_test chstring then (true, incr_match_inner g)
  else
    match match_patterns chstring pre_patterns g with
    | Some g' => (true, g')
    | None =>
        if negb (can_rename clazz) then (false, g)
        else
          match match_patterns chstring post_patterns g with
          | Some g' => (true, g')
          | None => (false, g)
          end
    end.

(** Properties of names, stated without the search functions. *)
Definition is_decimal_digit (c : ascii) : Prop :=
  (48 <= nat_of_ascii c <= 57)%nat.

Fixpoint occurs (c : ascii) (s : string) : Prop :=
  match s with
  | EmptyString => False
  | String a s' => a = c \/ occurs c s'
  end.

(** The name holds a ['$'] whose last occurrence is immediately followed
    by a decimal digit. *)
Definition last_dollar_then_digit (chstring : string) : Prop :=
  exists u d rest,
    chstring = String.append u (String "$"%char (String d rest)) /\
    is_decimal_digit d /\ ~ occurs "$"%char rest.

(** [p] occurs in [s] as a substring. *)
Definition contains (s p : string) : Prop :=
  exists u v, s = String.append u (String.append p v).

Definition matches_some_pattern (chstring : string) (patterns : list string) : Prop :=
  exists p, In p patterns /\ contains chstring (c_str p).

(** ** Locations as set elements and map keys *)

#[global] Instance CseLocation_eq_dec : EqDecision CseLocation.
Proof. solve_decision. Defined.

#[global] Instance CseLocation_countable : Countable CseLocation.
Proof.
  apply (inj_countable' loc_word mkCseLocation). intros []. reflexivity.
Defined.

Definition general_memory_barrier : CseLocation :=
  CseLocation_of_special GENERAL_MEMORY_BARRIER.

(** Modelled from the spec: the instruction set is not in the header. The
    component kinds an array access names, one per array special
    location. *)
Inductive ArrayComponent : Set :=
| COMPONENT_INT | COMPONENT_BYTE | COMPONENT_CHAR | COMPONENT_WIDE
| COMPONENT_SHORT | COMPONENT_OBJECT | COMPONENT_BOOLEAN.

(** Modelled from the spec: the Location "array of component kind [k]". *)
Definition array_component_location (k : ArrayComponent) : CseLocation :=
  CseLocation_of_special
    match k with
    | COMPONENT_INT => ARRAY_COMPONENT_TYPE_INT
    | COMPONENT_BYTE => ARRAY_COMPONENT_TYPE_BYTE
    | COMPONENT_CHAR => ARRAY_COMPONENT_TYPE_CHAR
    | COMPONENT_WIDE => ARRAY_COMPONENT_TYPE_WIDE
    | COMPONENT_SHORT => ARRAY_COMPONENT_TYPE_SHORT
    | COMPONENT_OBJECT => ARRAY_COMPONENT_TYPE_OBJECT
    | COMPONENT_BOOLEAN => ARRAY_COMPONENT_TYPE_BOOLEAN
    end.

(** ** Instructions *)

(** [IRInstruction*]: the address held. *)
Definition InsnPtr := Z.

(** Modelled from the spec: the operation kinds ([IROpcode], IRCode.h) are
    not in this header. These are the kinds the per-instruction rules of
    section 4.4 tell apart, each with its field or method reference;
    [RuntimeAssertion] stands for the comparison sequence the
    runtime-assertion injector adds. *)
Inductive OperationKind : Set :=
| FieldRead (f : DexFieldPtr)
| FieldStore (f : DexFieldPtr)
| ArrayRead (k : ArrayComponent)
| ArrayStore (k : ArrayComponent)
| ArrayLength
| MonitorOp
| Invoke (m : DexMethodPtr)
| Arithmetic (op : IROpcode)
| Comparison (op : IROpcode)
| Allocation (op : IROpcode)
| RuntimeAssertion
| OtherOp (op : IROpcode).

(** Modelled from the spec: [IRInstruction] (IRCode.h) is not in this
    header. Per section 6 an instruction exposes an operation kind, its
    ordered operands and an optional field or method reference. It is
    identified by its address; an operand names the instruction whose
    result it consumes, or a method input. *)
Record IRInstruction : Set := mkInsn {
  insn_id : InsnPtr;
  insn_kind : OperationKind;
  insn_srcs : list InsnPtr
}.

#[global] Instance ArrayComponent_eq_dec : EqDecision ArrayComponent.
Proof. solve_decision. Defined.

#[global] Instance OperationKind_eq_dec : EqDecision OperationKind.
Proof. solve_decision. Defined.

#[global] Instance IRInstruction_eq_dec : EqDecision IRInstruction.
Proof. solve_decision. Defined.

(** ** [cse_impl::MethodBarriersStats] and [cse_impl::SharedState] *)

Record MethodBarriersStats : Set := mkMethodBarriersStats {
  inlined_barriers_iterations : Z;
  inlined_barriers_into_methods : Z
}.

(** The data members the header declares. The diagnostic counters
    [m_barriers] never affect a result and are left out. *)
Record SharedState : Type := mkSharedState {
  m_pure_methods : gset DexMethodPtr;
  m_safe_methods : gset DexMethodPtr;
  m_method_written_locations : gmap DexMethodPtr (gset CseLocation);
  m_method_override_graph : gmap DexMethodPtr (gset DexMethodPtr)
}.

(** ** [SharedState::init_method_barriers] *)

(** Modelled from the spec: [Scope] and [DexMethod] (DexClass.h) are not
    in this header. What the scope says of a method: its body when it is
    concrete, and the methods that may execute in its place via virtual
    or interface dispatch. *)
Record DexMethod : Type := mkDexMethod {
  method_code : option (list IRInstruction);
  method_overriders : gset DexMethodPtr
}.

(** Modelled from the spec: [method_override_graph::build_graph]
    (MethodOverrideGraph.h) is not in src. The override graph maps a
    method to the set of methods that may execute in its place. *)
Definition build_override_graph (scope : gmap DexMethodPtr DexMethod)
    : gmap DexMethodPtr (gset DexMethodPtr) :=
  method_overriders <$> scope.

(** Modelled from the spec: a method of the scope with a body; a method
    without one is native or abstract, and one the scope lacks is
    missing. *)
Definition has_body (scope : gmap DexMethodPtr DexMethod) (m : DexMethodPtr) : bool :=
  match scope !! m with
  | Some dm => match method_code dm with Some _ => true | None => false end
  | None => false
  end.

(** Modelled from the spec: the scan of a method body is in the missing
    CommonSubexpressionElimination.cpp. The Location one instruction of a
    body writes directly. An invoke counts as the general barrier unless
    the method invoked is in the pure set and has a resolvable body
    (section 4.3: a method with no resolvable body is never classified
    pure). *)
Definition direct_write (resolvable : DexMethodPtr -> bool) (pure : gset DexMethodPtr)
    (insn : IRInstruction) : gset CseLocation :=
  match insn_kind insn with
  | FieldStore f => {[ CseLocation_of_field f ]}
  | ArrayStore k => {[ array_component_location k ]}
  | MonitorOp => {[ general_memory_barrier ]}
  | Invoke m =>
      if resolvable m && bool_decide (m ∈ pure) then ∅
      else {[ general_memory_barrier ]}
  | _ => ∅
  end.

(** Modelled from the spec: every concrete method body is scanned once for
    direct writes; a method with no resolvable body is assumed to write
    the general-barrier Location (section 4.3, soundness policy). *)
Definition scan_direct_writes (resolvable : DexMethodPtr -> bool)
    (pure : gset DexMethodPtr) (code : option (list IRInstruction))
    : gset CseLocation :=
  match code with
  | Some body => ⋃ (direct_write resolvable pure <$> body)
  | None => {[ general_memory_barrier ]}
  end.

(** Modelled from the spec: the direct writes of every method of the
    scope. *)
Definition direct_writes_of_scope (pure : gset DexMethodPtr)
    (scope : gmap DexMethodPtr DexMethod) : gmap DexMethodPtr (gset CseLocation) :=
  (fun m => scan_direct_writes (has_body scope) pure (method_code m)) <$> scope.

(** Modelled from the spec: the effect set a map of effect sets gives a
    method. A method the map has no entry for is missing: nothing
    narrower than the general barrier is known of it. *)
Definition effect_of (W : gmap DexMethodPtr (gset CseLocation)) (m : DexMethodPtr)
    : gset CseLocation :=
  default {[ general_memory_barrier ]} (W !! m).

(** Modelled from the spec: the union of the effect sets of all the
    override-graph successors of a method. *)
Definition successors_effect (graph : gmap DexMethodPtr (gset DexMethodPtr))
    (W : gmap DexMethodPtr (gset CseLocation)) (m : DexMethodPtr) : gset CseLocation :=
  ⋃ (effect_of W <$> elements (graph !!! m)).

(** Modelled from the spec: one round of the propagation. A method's
    effect set is the union of its direct writes and the effect sets of
    all its override-graph successors, read from the whole map. *)
Definition propagate (graph : gmap DexMethodPtr (gset DexMethodPtr))
    (direct W : gmap DexMethodPtr (gset CseLocation))
    : gmap DexMethodPtr (gset CseLocation) :=
  map_imap (fun m D => Some (D ∪ successors_effect graph W m)) direct.

(** Modelled from the spec: the methods a round touched. *)
Definition methods_changed (W W' : gmap DexMethodPtr (gset CseLocation)) : nat :=
  size (filter (fun m => W !! m ≠ W' !! m) (dom W')).

(** Modelled from the spec: iteration continues until no effect set
    changes; the stats count the rounds and the methods touched. *)
Fixpoint effects_fixpoint (graph : gmap DexMethodPtr (gset DexMethodPtr))
    (direct : gmap DexMethodPtr (gset CseLocation)) (fuel : nat)
    (W : gmap DexMethodPtr (gset CseLocation)) (stats : MethodBarriersStats)
    : option (gmap DexMethodPtr (gset CseLocation) * MethodBarriersStats) :=
  match fuel with
  | O => None
  | S fuel' =>
      let W' := propagate graph direct W in
      if decide (W' = W) then Some (W, stats)
      else effects_fixpoint graph direct fuel' W'
             (mkMethodBarriersStats
                (inlined_barriers_iterations stats + 1)
                (inlined_barriers_into_methods stats + Z.of_nat (methods_changed W W')))
  end.

(** Every Location an effect set of the iteration can hold: those some
    method writes directly, and the general barrier. *)
Definition written_universe (direct : gmap DexMethodPtr (gset CseLocation))
    : gset CseLocation :=
  {[ general_memory_barrier ]} ∪ ⋃ (snd <$> map_to_list direct).

(** Each round but the last adds a Location to some method's set, so this
    many rounds suffice. *)
Definition effects_fuel (direct : gmap DexMethodPtr (gset CseLocation)) : nat :=
  S (size (dom direct) * size (written_universe direct)).

(** Pointwise inclusion of effect maps; the total size of the effect sets
    of the methods of [direct], which every round but the last increases;
    and the bound on every effect set. *)
Definition effects_below (W W' : gmap DexMethodPtr (gset CseLocation)) : Prop :=
  forall m, effect_of W m ⊆ effect_of W' m.

Definition effects_size (direct W : gmap DexMethodPtr (gset CseLocation)) : nat :=
  sum_list_with (fun m => size (effect_of W m)) (elements (dom direct)).

Definition effects_within_universe
    (direct W : gmap DexMethodPtr (gset CseLocation)) : Prop :=
  forall m, effect_of W m ⊆ written_universe direct.

(** Modelled from the spec: the header only declares
    [init_method_barriers]; its body is in the missing
    CommonSubexpressionElimination.cpp. Section 4.3: it builds the override
    graph, scans every concrete method body once for direct writes, then
    iterates to the fixpoint, and returns the stats. *)
Definition init_method_barriers (st : SharedState) (scope : gmap DexMethodPtr DexMethod)
    : option (SharedState * MethodBarriersStats) :=
  let graph := build_override_graph scope in
  let direct := direct_writes_of_scope (m_pure_methods st) scope in
  match effects_fixpoint graph direct (effects_fuel direct) direct
          (mkMethodBarriersStats 0 0) with
  | Some (W, stats) =>
      Some (mkSharedState (m_pure_methods st) (m_safe_methods st) W graph, stats)
  | None => None
  end.

(** A method's computed effect set; the general barrier for a method the
    map lacks. *)
Definition effect_set (st : SharedState) (m : DexMethodPtr) : gset CseLocation :=
  effect_of (m_method_written_locations st) m.

(** [m'] may execute in place of [m]: an edge of the override graph. *)
Definition override_edge (scope : gmap DexMethodPtr DexMethod)
    (m m' : DexMethodPtr) : Prop :=
  m' ∈ build_override_graph scope !!! m.

(** Adding the edge [a -> b] to the graph of the scope. *)
Definition add_override (a b : DexMethodPtr) (scope : gmap DexMethodPtr DexMethod)
    : gmap DexMethodPtr DexMethod :=
  alter (fun m => mkDexMethod (method_code m) ({[ b ]} ∪ method_overriders m)) a scope.

(** ** [SharedState::get_relevant_written_location] *)

(** [DexType*]: the address held. *)
Definition DexTypePtr := Z.

(** Modelled from the spec: the classification of methods (section 2:
    pure, safe, unresolved; any other method is opaque). *)
Inductive MethodClass : Set := Unresolved | Pure | Safe | Opaque.

Section SharedStateQueries.

(** Metadata resolution is an external collaborator: whether a method has
    a resolvable body (it is not native, abstract or missing), and the one
    target of a call on a receiver of an exact type. *)
Variable has_resolvable_body : DexMethodPtr -> bool.
Variable devirtualize : DexTypePtr -> DexMethodPtr -> DexMethodPtr.

Variable st : SharedState.

(** Modelled from the spec: the classification is in the missing
    CommonSubexpressionElimination.cpp. Section 4.3: a method with no
    resolvable body (native, abstract, missing) is never classified pure
    or safe; the pure and safe sets are supplied externally. *)
Definition classify (m : DexMethodPtr) : MethodClass :=
  if negb (has_resolvable_body m) then Unresolved
  else if decide (m ∈ m_pure_methods st) then Pure
  else if decide (m ∈ m_safe_methods st) then Safe
  else Opaque.

(** Modelled from the spec: the header only declares [has_pure_method].
    Section 4.2: a membership check against the pure-method set, here of
    the method the instruction invokes. *)
Definition has_pure_method (i : IRInstruction) : bool :=
  match insn_kind i with
  | Invoke m => match classify m with Pure => true | _ => false end
  | _ => false
  end.

(** Modelled from the spec: the effect set of the one target of a call on
    an exact receiver type, unknown when the target has no resolvable
    body. *)
Definition target_effect (m : DexMethodPtr) : option (gset CseLocation) :=
  if has_resolvable_body m then Some (effect_set st m) else None.

(** Modelled from the spec: the Locations an invoke may write, when
    something narrower than the general barrier is known (sections 3, 4.3
    and 4.4): a method with no resolvable body is maximally unsafe; a
    pure method writes nothing; a safe method writes the Locations of its
    effect set; any other invoke is the general barrier unless an exact
    receiver type narrows it to the one target's effect set. *)
Definition invoke_written_locations (m : DexMethodPtr)
    (exact_virtual_scope : option DexTypePtr) : option (gset CseLocation) :=
  match classify m with
  | Unresolved => None
  | Pure => Some ∅
  | Safe =>
      match exact_virtual_scope with
      | Some t => target_effect (devirtualize t m)
      | None => Some (effect_set st m)
      end
  | Opaque =>
      match exact_virtual_scope with
      | Some t => target_effect (devirtualize t m)
      | None => None
      end
  end.

(** Modelled from the spec: two Locations intersect when they are the same
    or one of them is the general barrier, which invalidates everything. *)
Definition locations_overlap (a b : CseLocation) : bool :=
  bool_decide (a = b) || bool_decide (a = general_memory_barrier)
  || bool_decide (b = general_memory_barrier).

(** Modelled from the spec: a Location intersects a set of Locations. *)
Definition intersects (l : CseLocation) (locations : gset CseLocation) : bool :=
  existsb (locations_overlap l) (elements locations).

(** Modelled from the spec: a written Location is relevant when it
    intersects the caller's read locations. *)
Definition relevant (l : CseLocation) (read_locations : gset CseLocation)
    : option CseLocation :=
  if intersects l read_locations then Some l else None.

(** Modelled from the spec: the header only declares
    [get_relevant_written_location]; its body is in the missing
    CommonSubexpressionElimination.cpp. Section 4.3: the single Location,
    if any, the instruction invalidates that intersects the caller's read
    locations; none when the instruction writes nothing relevant. *)
Definition get_relevant_written_location (i : IRInstruction)
    (exact_virtual_scope : option DexTypePtr)
    (read_locations : gset CseLocation) : option CseLocation :=
  match insn_kind i with
  | FieldStore f => relevant (CseLocation_of_field f) read_locations
  | ArrayStore k => relevant (array_component_location k) read_locations
  | MonitorOp => relevant general_memory_barrier read_locations
  | Invoke m =>
      match invoke_written_locations m exact_virtual_scope with
      | None => Some general_memory_barrier
      | Some effect =>
          if existsb (fun w => intersects w read_locations) (elements effect)
          then Some general_memory_barrier
          else None
      end
  | _ => None
  end.

End SharedStateQueries.

(** ** What the program writes

    The Locations an instruction may write, said of the program itself:
    of the bodies of the methods of the scope and of the override graph,
    not of the effect sets the shared state has computed. *)

(** Modelled from the spec: an instruction of a body writes a Location
    directly: a store its field or array Location, a monitor operation
    and an invoke the general barrier, unless the method invoked is in the
    pure set and has a body. *)
Inductive writes_directly (scope : gmap DexMethodPtr DexMethod)
    (pure : gset DexMethodPtr) (i : IRInstruction) : CseLocation -> Prop :=
| field_store_writes f :
    insn_kind i = FieldStore f ->
    writes_directly scope pure i (CseLocation_of_field f)
| array_store_writes k :
    insn_kind i = ArrayStore k ->
    writes_directly scope pure i (array_component_location k)
| monitor_writes :
    insn_kind i = MonitorOp ->
    writes_directly scope pure i general_memory_barrier
| call_without_body_writes m :
    insn_kind i = Invoke m -> has_body scope m = false ->
    writes_directly scope pure i general_memory_barrier
| call_outside_pure_writes m :
    insn_kind i = Invoke m -> m ∉ pure ->
    writes_directly scope pure i general_memory_barrier.

(** Modelled from the spec: what running the body of a method may write:
    what an instruction of the body writes directly; a method with no
    resolvable body (native, abstract, missing) is assumed to write the
    general barrier. *)
Inductive body_may_write (scope : gmap DexMethodPtr DexMethod)
    (pure : gset DexMethodPtr) (m : DexMethodPtr) : CseLocation -> Prop :=
| body_writes dm body i l :
    scope !! m = Some dm -> method_code dm = Some body -> i ∈ body ->
    writes_directly scope pure i l ->
    body_may_write scope pure m l
| no_body_writes :
    has_body scope m = false ->
    body_may_write scope pure m general_memory_barrier.

(** Modelled from the spec: what a virtual call of a method may write:
    what the body of the method, or of any method that may execute in
    its place, may write. *)
Definition method_may_write (scope : gmap DexMethodPtr DexMethod)
    (pure : gset DexMethodPtr) (m : DexMethodPtr) (l : CseLocation) : Prop :=
  exists m', rtc (override_edge scope) m m' /\ body_may_write scope pure m' l.

(** Modelled from the spec: what an instruction of the method under
    analysis may write (sections 3, 4.3 and 4.4). A store writes its
    Location and a monitor operation the general barrier. An invoke of a
    method with no resolvable body writes the general barrier; so does an
    invoke outside the pure and safe sets on a receiver of unknown type.
    An invoke outside the pure set writes what the method may write, on a
    receiver of exact type what the body of the one target may write. An
    invoke of a pure method with a body writes nothing. *)
Inductive insn_may_write (scope : gmap DexMethodPtr DexMethod)
    (pure safe : gset DexMethodPtr)
    (devirtualize : DexTypePtr -> DexMethodPtr -> DexMethodPtr)
    (i : IRInstruction) (exact_virtual_scope : option DexTypePtr)
    : CseLocation -> Prop :=
| store_to_field f :
    insn_kind i = FieldStore f ->
    insn_may_write scope pure safe devirtualize i exact_virtual_scope
      (CseLocation_of_field f)
| store_to_array k :
    insn_kind i = ArrayStore k ->
    insn_may_write scope pure safe devirtualize i exact_virtual_scope
      (array_component_location k)
| monitor_operation :
    insn_kind i = MonitorOp ->
    insn_may_write scope pure safe devirtualize i exact_virtual_scope
      general_memory_barrier
| invoke_unresolved m :
    insn_kind i = Invoke m -> has_body scope m = false ->
    insn_may_write scope pure safe devirtualize i exact_virtual_scope
      general_memory_barrier
| invoke_opaque m :
    insn_kind i = Invoke m -> m ∉ pure -> m ∉ safe ->
    exact_virtual_scope = None ->
    insn_may_write scope pure safe devirtualize i exact_virtual_scope
      general_memory_barrier
| invoke_virtual m l :
    insn_kind i = Invoke m -> m ∉ pure ->
    exact_virtual_scope = None ->
    method_may_write scope pure m l ->
    insn_may_write scope pure safe devirtualize i exact_virtual_scope l
| invoke_exact m t l :
    insn_kind i = Invoke m -> m ∉ pure ->
    exact_virtual_scope = Some t ->
    body_may_write scope pure (devirtualize t m) l ->
    insn_may_write scope pure safe devirtualize i exact_virtual_scope l.

(** The effect sets of a shared state cover the program: they hold every
    Location a virtual call of a method may write. *)
Definition effects_cover (scope : gmap DexMethodPtr DexMethod) (st : SharedState)
    : Prop :=
  forall m l, method_may_write scope (m_pure_methods st) m l -> l ∈ effect_set st m.

(** Metadata resolution agrees with the scope: a method it resolves has a
    body there. *)
Definition resolves_within (scope : gmap DexMethodPtr DexMethod)
    (has_resolvable_body : DexMethodPtr -> bool) : Prop :=
  forall m, has_resolvable_body m = true -> has_body scope m = true.

(** ** [cse_impl::CommonSubexpressionElimination]

    The header declares the class, its [Forward] record and [patch]; the
    analysis its constructor runs and the body of [patch] are in the
    missing CommonSubexpressionElimination.cpp. *)

(** Modelled from the spec: a live-value table entry (section 3): the
    producing instruction, whose result is the entry's value identity,
    with the signature it is keyed by: the operation, the operand value
    identities and the Locations it depends on. *)
Record ValueEntry : Type := mkValueEntry {
  entry_insn : InsnPtr;
  entry_kind : OperationKind;
  entry_operands : list InsnPtr;
  entry_deps : gset CseLocation
}.

#[global] Instance ValueEntry_eq_dec : EqDecision ValueEntry.
Proof. solve_decision. Defined.

(** [struct Forward { IRInstruction* earlier_insn; IRInstruction* insn; }] *)
Record Forward : Set := mkForward {
  earlier_insn : InsnPtr;
  insn : InsnPtr
}.

(** Of [cse_impl::Stats], the counter of eliminated instructions. *)
Record Stats : Set := mkStats { instructions_eliminated : Z }.

(** Modelled from the spec: the CFG ([cfg::ControlFlowGraph]) is not in
    this header. A method is its blocks in visiting order; a block names
    its predecessors by their position in that order. *)
Record Block : Type := mkBlock {
  block_preds : list nat;
  block_insns : list IRInstruction
}.

(** Modelled from the spec: the state of the pass: the exit tables of the
    blocks visited so far, the live-value table, and the recorded
    forwards ([m_forward]). *)
Record CseState : Type := mkCseState {
  exit_tables : list (list ValueEntry);
  live_table : list ValueEntry;
  m_forward : list Forward
}.

Section PerMethodCSE.

Variable has_resolvable_body : DexMethodPtr -> bool.
Variable devirtualize : DexTypePtr -> DexMethodPtr -> DexMethodPtr.
Variable st : SharedState.

(** Whether the receiver type at a call site is exact is decided by the
    type analysis, outside this pass. *)
Variable exact_receiver : InsnPtr -> option DexTypePtr.

(** The address of the check allocated for a forwarded instruction. *)
Variable new_insn : InsnPtr -> InsnPtr.

(** Modelled from the spec: the Locations an instruction's result depends
    on: the field or the array component it reads. *)
Definition dependencies (k : OperationKind) : gset CseLocation :=
  match k with
  | FieldRead f => {[ CseLocation_of_field f ]}
  | ArrayRead c => {[ array_component_location c ]}
  | _ => ∅
  end.

(** Modelled from the spec: the header only declares [may_be_barrier].
    Section 4.4, rule 1: field and array stores, monitor operations and
    opaque invokes may write memory. *)
Definition may_write_memory (i : IRInstruction) : bool :=
  match insn_kind i with
  | FieldStore _ | ArrayStore _ | MonitorOp => true
  | Invoke _ => negb (has_pure_method has_resolvable_body st i)
  | _ => false
  end.

(** Modelled from the spec: section 4.4, rule 2: pure computations and
    reads of a tracked Location (arithmetic, pure invoke, array-length,
    field and array read, pure comparison). *)
Definition forwardable (i : IRInstruction) : bool :=
  match insn_kind i with
  | Arithmetic _ | Comparison _ | ArrayLength | FieldRead _ | ArrayRead _ => true
  | Invoke _ => has_pure_method has_resolvable_body st i
  | _ => false
  end.

(** Modelled from the spec: the currently tracked read locations: those
    the live entries depend on. *)
Definition tracked_read_locations (table : list ValueEntry) : gset CseLocation :=
  ⋃ (entry_deps <$> table).

(** Modelled from the spec: the entry's dependency set intersects [l]. *)
Definition depends_on (l : CseLocation) (e : ValueEntry) : bool :=
  intersects l (entry_deps e).

(** Modelled from the spec: remove every live entry whose dependency set
    intersects [l]. *)
Definition invalidate (l : CseLocation) (table : list ValueEntry) : list ValueEntry :=
  List.filter (fun e => negb (depends_on l e)) table.

(** Modelled from the spec: section 4.4, rule 1, the barrier check: if the
    instruction may write memory, query the shared state for the Location
    it invalidates among the tracked read locations and invalidate it. *)
Definition barrier_check (i : IRInstruction) (table : list ValueEntry)
    : list ValueEntry :=
  if may_write_memory i then
    match get_relevant_written_location has_resolvable_body devirtualize st i
            (exact_receiver (insn_id i)) (tracked_read_locations table) with
    | Some l => invalidate l table
    | None => table
    end
  else table.

(** Modelled from the spec: the Forward recorded for an instruction, if
    any. *)
Definition forward_of (forwards : list Forward) (x : InsnPtr) : option Forward :=
  List.find (fun f => bool_decide (insn f = x)) forwards.

(** Modelled from the spec: the value identity of a result: that of the
    entry it was forwarded to, else its own. *)
Definition value_of (forwards : list Forward) (x : InsnPtr) : InsnPtr :=
  match forward_of forwards x with
  | Some f => earlier_insn f
  | None => x
  end.

(** Modelled from the spec: a live entry has an identical signature. *)
Definition signature_matches (k : OperationKind) (operands : list InsnPtr)
    (deps : gset CseLocation) (e : ValueEntry) : bool :=
  bool_decide (entry_kind e = k /\ entry_operands e = operands /\ entry_deps e = deps).

(** Modelled from the spec: section 4.4, rule 2, the forwarding check: the
    signature is the operation, the ordered input value identities and
    the Locations read; a live entry with an identical signature records
    [Forward(earlier, this)] and creates no entry, else a new entry is
    inserted. Rule 3: any other instruction passes through. *)
Definition forwarding_check (i : IRInstruction) (s : CseState) : CseState :=
  if forwardable i then
    let operands := value_of (m_forward s) <$> insn_srcs i in
    let deps := dependencies (insn_kind i) in
    match List.find (signature_matches (insn_kind i) operands deps) (live_table s) with
    | Some e =>
        mkCseState (exit_tables s) (live_table s)
          (m_forward s ++ [mkForward (entry_insn e) (insn_id i)])
    | None =>
        mkCseState (exit_tables s)
          (live_table s ++ [mkValueEntry (insn_id i) (insn_kind i) operands deps])
          (m_forward s)
    end
  else s.

(** Modelled from the spec: per instruction, in order: the barrier check,
    then the forwarding check. *)
Definition scan_insn (s : CseState) (i : IRInstruction) : CseState :=
  forwarding_check i
    (mkCseState (exit_tables s) (barrier_check i (live_table s)) (m_forward s)).

(** Modelled from the spec: the exit table of a predecessor; a back-edge
    or unvisited predecessor counts as an empty table. *)
Definition exit_of (exits : list (list ValueEntry)) (q : nat) : list ValueEntry :=
  default [] (exits !! q).

(** Modelled from the spec: a block's entry table is the intersection of
    its predecessors' exit tables: an entry survives only if present and
    identical on all of them. *)
Definition entry_table (exits : list (list ValueEntry)) (preds : list nat)
    : list ValueEntry :=
  match preds with
  | [] => []
  | p :: ps =>
      List.filter
        (fun e => forallb (fun q => bool_decide (e ∈ exit_of exits q)) ps)
        (exit_of exits p)
  end.

(** Modelled from the spec: seed the table from the visited
    predecessors. *)
Definition enter_block (s : CseState) (b : Block) : CseState :=
  mkCseState (exit_tables s) (entry_table (exit_tables s) (block_preds b))
    (m_forward s).

(** Modelled from the spec: export the exit table to the successors. *)
Definition leave_block (s : CseState) : CseState :=
  mkCseState (exit_tables s ++ [live_table s]) (live_table s) (m_forward s).

(** Modelled from the spec: per block: seed the table, scan the
    instructions, export the exit table. *)
Definition analyze_block (s : CseState) (b : Block) : CseState :=
  leave_block (foldl scan_insn (enter_block s b) (block_insns b)).

(** A list of forwards [F] agrees with the scan at an instruction [i]
    scanned from state [s]: [F] gives the operands of [i] the value
    identities they have at [i], and [F] has a Forward for [i] exactly
    when the scan records one at [i]. *)
Definition forwards_agree_at (F : list Forward) (s : CseState)
    (i : IRInstruction) : Prop :=
  (forall x, x ∈ insn_srcs i -> value_of F x = value_of (m_forward s) x) /\
  (forward_of F (insn_id i) = None <-> m_forward (scan_insn s i) = m_forward s).

Definition forwards_agree_on_insns (F : list Forward) (s : CseState)
    (insns : list IRInstruction) : Prop :=
  forall pre i post,
    insns = pre ++ i :: post -> forwards_agree_at F (foldl scan_insn s pre) i.

Definition forwards_agree_on_blocks (F : list Forward) (s : CseState)
    (blocks : list Block) : Prop :=
  forall done b rest, blocks = done ++ b :: rest ->
    forwards_agree_on_insns F
      (enter_block (foldl analyze_block s done) b) (block_insns b).

(** Modelled from the spec: the header only declares the constructor. It
    runs the analysis: a single forward pass over the blocks in visiting
    order (section 4.4). *)
Definition CommonSubexpressionElimination (cfg : list Block) : CseState :=
  foldl analyze_block (mkCseState [] [] []) cfg.

(** The table right after the first [n] instructions of block [k]. *)
Definition state_at (cfg : list Block) (k n : nat) : CseState :=
  match cfg !! k with
  | Some b =>
      foldl scan_insn
        (enter_block (CommonSubexpressionElimination (take k cfg)) b)
        (take n (block_insns b))
  | None => CommonSubexpressionElimination cfg
  end.

(** Modelled from the spec: a consumer of a forwarded result is rewritten
    to consume the earlier instruction's result. *)
Definition rewrite_consumer (forwards : list Forward) (i : IRInstruction)
    : IRInstruction :=
  mkInsn (insn_id i) (insn_kind i) (value_of forwards <$> insn_srcs i).

(** Modelled from the spec: the later instruction of a Forward is deleted;
    with runtime assertions it is kept and an equality check between the
    two values is inserted after it. *)
Definition patch_insn (forwards : list Forward) (runtime_assertions : bool)
    (i : IRInstruction) : list IRInstruction :=
  match forward_of forwards (insn_id i) with
  | Some f =>
      if runtime_assertions then
        [rewrite_consumer forwards i;
         mkInsn (new_insn (insn_id i)) RuntimeAssertion [earlier_insn f; insn f]]
      else []
  | None => [rewrite_consumer forwards i]
  end.

(** Modelled from the spec: [patch] applied to one block. *)
Definition patch_block (forwards : list Forward) (runtime_assertions : bool)
    (b : Block) : Block :=
  mkBlock (block_preds b)
    (concat (patch_insn forwards runtime_assertions <$> block_insns b)).

(** Modelled from the spec: the header only declares [patch]; its body is
    in the missing CommonSubexpressionElimination.cpp. Section 4.4: for
    each recorded Forward it rewrites the consumers and removes the later
    computation (or, with runtime assertions, inserts a check), and emits
    the number of eliminated instructions. It returns whether anything
    changed; the parameters that only shape the inserted check
    ([is_static], [declaring_type], [args]) are left out. *)
Definition patch (s : CseState) (cfg : list Block) (runtime_assertions : bool)
    : bool * list Block * Stats :=
  (bool_decide (m_forward s <> []),
   patch_block (m_forward s) runtime_assertions <$> cfg,
   mkStats (Z.of_nat (length (m_forward s)))).

End PerMethodCSE.

(** Paths of execution: the instructions run from the method's entry, the
    first block in visiting order, or from a block without predecessors,
    to the entry of block [k]. *)
Inductive path_to_entry (cfg : list Block) : nat -> list IRInstruction -> Prop :=
| path_entry b :
    cfg !! 0%nat = Some b -> path_to_entry cfg 0%nat []
| path_start k b :
    cfg !! k = Some b -> block_preds b = [] -> path_to_entry cfg k []
| path_edge k b q bq pi :
    cfg !! k = Some b -> q ∈ block_preds b -> cfg !! q = Some bq ->
    path_to_entry cfg q pi ->
    path_to_entry cfg k (pi ++ block_insns bq).

(** On the path [pi] the entry [e] was created and no Location it depends
    on has been written since: the producing instruction occurs on the
    path, and no instruction after that occurrence writes a Location that
    intersects the entry's dependency set. *)
Definition unwritten_since (scope : gmap DexMethodPtr DexMethod)
    (pure safe : gset DexMethodPtr)
    (devirtualize : DexTypePtr -> DexMethodPtr -> DexMethodPtr)
    (exact_receiver : InsnPtr -> option DexTypePtr)
    (e : ValueEntry) (pi : list IRInstruction) : Prop :=
  exists pi1 p pi2,
    pi = pi1 ++ p :: pi2 /\ insn_id p = entry_insn e /\
    forall w l d,
      w ∈ pi2 ->
      insn_may_write scope pure safe devirtualize w (exact_receiver (insn_id w)) l ->
      d ∈ entry_deps e ->
      locations_overlap l d = false.

(** Well-formed input: every instruction of the method is its own object,
    and no operand names the instruction itself or one visited later. *)
Definition all_insns (cfg : list Block) : list IRInstruction :=
  concat (block_insns <$> cfg).

Definition unique_insns (cfg : list Block) : Prop :=
  NoDup (insn_id <$> all_insns cfg).

Fixpoint uses_follow_defs (insns : list IRInstruction) : bool :=
  match insns with
  | [] => true
  | i :: later =>
      forallb (fun x => negb (bool_decide (x ∈ insn_id <$> (i :: later))))
        (insn_srcs i)
      && uses_follow_defs later
  end.

Definition defs_before_uses (cfg : list Block) : Prop :=
  uses_follow_defs (all_insns cfg) = true.

(** ** Example inputs

    A shared state with no pure or safe methods, every method resolvable,
    no exact receiver types; a method that reads the field at 4096 of the
    object [100] twice; and one that stores to the field in between. *)

Definition example_state : SharedState := mkSharedState ∅ ∅ ∅ ∅.
Definition all_resolvable (m : DexMethodPtr) : bool := true.
Definition same_target (t : DexTypePtr) (m : DexMethodPtr) : DexMethodPtr := m.
Definition no_exact_receiver (i : InsnPtr) : option DexTypePtr := None.
Definition example_new_insn (i : InsnPtr) : InsnPtr := i + 1000.

Definition first_read : IRInstruction := mkInsn 1 (FieldRead 4096) [100].
Definition second_read : IRInstruction := mkInsn 2 (FieldRead 4096) [100].
Definition store_between : IRInstruction := mkInsn 3 (FieldStore 4096) [100; 101].

Definition read_read : list Block :=
  [mkBlock [] [first_read; second_read]].

Definition read_write_read : list Block :=
  [mkBlock [] [first_read; store_between; second_read]].

(** A shared state that knows the method at 7 to be pure; two calls of it
    on the same argument; and the two reads with a call of the unknown
    method at 9 in between. *)
Definition pure_state : SharedState := mkSharedState {[ 7 ]} ∅ ∅ ∅.

Definition pure_call_twice : list Block :=
  [mkBlock [] [mkInsn 1 (Invoke 7) [100]; mkInsn 2 (Invoke 7) [100]]].

Definition read_call_read : list Block :=
  [mkBlock [] [first_read; mkInsn 3 (Invoke 9) [100]; second_read]].

(** A scope of two methods: [1] has an empty body and may be replaced by
    [2], which stores to the field at 4096; a shared state that knows [1]
    to be safe; and the two reads with a call of [1] in between. *)
Definition store_scope : gmap DexMethodPtr DexMethod :=
  <[1 := mkDexMethod (Some []) {[ 2 ]}]>
    (<[2 := mkDexMethod (Some [mkInsn 10 (FieldStore 4096) [100; 101]]) ∅]> ∅).

Definition safe_state : SharedState := mkSharedState ∅ {[ 1 ]} ∅ ∅.

Definition call_between : IRInstruction := mkInsn 3 (Invoke 1) [100].

Definition read_invoke_read : list Block :=
  [mkBlock [] [first_read; call_between; second_read]].

(** The same scope with [2] abstract: it has no body. *)
Definition abstract_scope : gmap DexMethodPtr DexMethod :=
  <[1 := mkDexMethod (Some []) {[ 2 ]}]> (<[2 := mkDexMethod None ∅]> ∅).

(** ** [RenameClasses.cpp]: identifiers *)

Definition MAX_DESCRIPTOR_LENGTH : Z := 1024.
Definition MAX_IDENT_CHAR : Z := 52.
Definition MAX_IDENT : Z := MAX_IDENT_CHAR * MAX_IDENT_CHAR * MAX_IDENT_CHAR.

(** An [int] returned as a [char] keeps its low byte. *)
Definition char_of_int (z : Z) : ascii := ascii_of_N (Z.to_N (z mod 256)).

(** [static char getident(int num)] *)
Definition getident (num : Z) : ascii :=
  if num <? 26 then char_of_int (char_to_int "a"%char + num)
  else char_of_int (char_to_int "A"%char + num - 26).

(** [void get_next_ident(char *out, int &num)]: the characters written to
    [out] before the terminator, and the new value of [num]; [None] when
    [always_assert_log] fails. Integer division is C's, truncating. *)
Definition get_next_ident (num : Z) : option (string * Z) :=
  let low := num in
  let mid := Z.quot num 52 in
  let top := Z.quot mid 52 in
  if negb (num <=? MAX_IDENT) then None
  else
    let '(out, low) :=
      if negb (top =? 0) then
        (String (getident (top - 1)) EmptyString, low - top * 52 * 52)
      else (EmptyString, low) in
    let '(out, mid, low) :=
      if negb (mid =? 0) then
        let mid := mid - top * 52 in
        (String.append out (String (getident mid) EmptyString), mid, low - mid * 52)
      else (out, mid, low) in
    Some (String.append out (String (getident low) EmptyString), num + 1).

(** [sprintf(descriptor, "LX%s;", clzname)]: [%s] copies the C string. *)
Definition sprintf_LX (clzname : string) : string :=
  String.append "LX" (String.append (c_str clzname) ";").

(** [strlen] of a C string. *)
Definition strlen (s : string) : Z := Z.of_nat (String.length s).

(** [i += n] with [i] an [int] and [n] a [size_t] adds in [size_t] and
    converts back, which keeps the low 32 bits. *)
Definition int_add_size_t (i n : Z) : Z := to_int (i + n).

(** ** [RenameClasses.cpp]: the renaming loop of [rename_classes], class by class

    The part of the first loop of [rename_classes] that the functions
    above decide: the local [clazz_ident], the global counters and
    [base_strings_size], and the assignments [aliases[oldname] = dstring]
    the loop makes for the classes themselves, in scope order. This is a
    slice: the inner [while (1)] loop, which assigns the aliases of the
    array types, and the calls into [DexString] and [DexType] are in
    [rename_classes_run] below, which this slice is shown to follow.
    [None] when [get_next_ident] aborts the run. *)
Record RenameState : Set := mkRenameState {
  clazz_ident : Z;
  rename_counters : MatchCounters;
  base_strings_size : Z;
  class_aliases : list (string * string)
}.

Fixpoint rename_classes_loop (scope : list DexClass)
    (pre_whitelist_patterns post_whitelist_patterns : list string)
    (s : RenameState) : option RenameState :=
  match scope with
  | [] => Some s
  | clazz :: rest =>
      let '(renamed, g) :=
        should_rename clazz pre_whitelist_patterns post_whitelist_patterns
          (rename_counters s) in
      if renamed then
        match get_next_ident (clazz_ident s) with
        | None => None
        | Some (clzname, ident) =>
            let descriptor := sprintf_LX clzname in
            let oldname := class_name clazz in
            let base :=
              int_add_size_t
                (int_add_size_t (base_strings_size s) (strlen (c_str oldname)))
                (strlen (c_str descriptor)) in
            rename_classes_loop rest pre_whitelist_patterns post_whitelist_patterns
              (mkRenameState ident g base
                 (class_aliases s ++ [(oldname, descriptor)]))
        end
      else
        rename_classes_loop rest pre_whitelist_patterns post_whitelist_patterns
          (mkRenameState (clazz_ident s) g (base_strings_size s) (class_aliases s))
  end.

(** The number of classes the counters have counted. *)
Definition matches_counted (g : MatchCounters) : Z :=
  match_inner g + match_short g + match_long g.

(** The three counters are [int]s below [bound]. *)
Definition counters_below (g : MatchCounters) (bound : Z) : Prop :=
  (- 2 ^ 31 <= match_short g < bound) /\ (- 2 ^ 31 <= match_long g < bound) /\
  (- 2 ^ 31 <= match_inner g < bound).

(** The classes of the scope [should_rename] accepts. *)
Definition classes_to_rename (scope : list DexClass)
    (pre_whitelist_patterns post_whitelist_patterns : list string) : list DexClass :=
  List.filter
    (fun clazz =>
       fst (should_rename clazz pre_whitelist_patterns post_whitelist_patterns
              (mkMatchCounters 0 0 0)))
    scope.

Definition is_letter (c : ascii) : Prop :=
  (65 <= nat_of_ascii c <= 90)%nat \/ (97 <= nat_of_ascii c <= 122)%nat.

Fixpoint all_chars (P : ascii -> Prop) (s : string) : Prop :=
  match s with
  | EmptyString => True
  | String a s' => P a /\ all_chars P s'
  end.

(** The letters of the identifier for a counter in range, read off
    [get_next_ident]: one, two or three base-52 digits. *)
Definition ident_digits (num : Z) : string :=
  if num <? 52 then String (getident num) EmptyString
  else if num <? 52 * 52 then
    String (getident (num / 52)) (String (getident (num mod 52)) EmptyString)
  else
    String (getident (num / (52 * 52) - 1))
      (String (getident ((num / 52) mod 52))
         (String (getident (num mod 52)) EmptyString)).

(** The bytes [base_strings_size] is charged for a list of aliases. *)
Definition alias_bytes (aliases : list (string * string)) : Z :=
  foldr (fun a acc => strlen (c_str (fst a)) + strlen (c_str (snd a)) + acc) 0 aliases.

(** The assignments the loop makes for the classes [R] it renames when
    the counter stands at [n]: the i-th of them gets the descriptor of
    the identifier for [n + i]. *)
Definition renamed_aliases (n : Z) (R : list DexClass) : list (string * string) :=
  imap (fun i clazz => (class_name clazz, sprintf_LX (ident_digits (n + Z.of_nat i)))) R.

(** A small scope: an ordinary class, an anonymous inner class that may
    not be renamed, and a class no pattern names. *)
Definition example_scope : list DexClass :=
  [ mkDexClass "Lcom/foo/Bar;" true;
    mkDexClass "Lcom/foo/Bar$1;" false;
    mkDexClass "Lcom/keep/Me;" true ].

Definition example_initial_state : RenameState :=
  mkRenameState 0 (mkMatchCounters 0 0 0) 0 [].

Definition example_final_state : RenameState :=
  mkRenameState 2 (mkMatchCounters 0 1 1) 36
    [ ("Lcom/foo/Bar;"%string, "LXa;"%string);
      ("Lcom/foo/Bar$1;"%string, "LXb;"%string) ].

(** ** [RenameClasses.cpp]: the renaming loop with the aliases of array types

    The first loop of [rename_classes] in full. [DexString] and
    [DexType] are declared outside this file: a [DexString] is identified
    by its contents, and the tables behind [DexString::make_string],
    [DexString::get_string], [DexType::get_type] and
    [DexType::assign_name_alias] are a state [World] that the loop threads
    through these calls, in the order it makes them. A type is named by
    the string it was found under. The calls are taken to return. *)

(** How a run ends: at the end of the scope, in the assertion of
    [get_next_ident], or, in the model, with the [while (1)] loop still
    running when the fuel is used up. *)
Inductive Outcome (A : Type) : Type :=
| Finished (a : A)
| Aborted
| OutOfFuel.

Arguments Finished {A} a.
Arguments Aborted {A}.
Arguments OutOfFuel {A}.

(** [s] with [j] times ["["] in front. *)
Fixpoint brackets (j : nat) (s : string) : string :=
  match j with
  | O => s
  | S j' => String "[" (brackets j' s)
  end.

(** The assignments for the array types of a renamed class, up to
    [depth] dimensions: the array type of [j] dimensions of the old name
    gets the array type of [j] dimensions of the new descriptor. *)
Definition array_aliases_of (a : string * string) (depth : nat)
    : list (string * string) :=
  (fun j => (brackets j (c_str (fst a)), brackets j (c_str (snd a)))) <$> seq 1 depth.

Definition with_array_aliases (a : string * string) (depth : nat)
    : list (string * string) :=
  a :: array_aliases_of a depth.

(** An assignment whose target is a descriptor: a C string that begins
    with [L]. *)
Definition descriptor_like (a : string * string) : Prop :=
  c_str (snd a) = snd a /\ exists t, snd a = String "L" t.

Section RenameRun.

Context {World : Type}.
Variable make_string : string -> World -> World.
Variable get_string : string -> World -> bool.
Variable get_type : string -> World -> bool.
Variable assign_name_alias : string -> string -> World -> World.

(** The variables of the loop: [clazz_ident], the global counters and
    [base_strings_size], every assignment [aliases[k] = v] made so far, in
    order, and the tables. *)
Record RenameRun : Type := mkRenameRun {
  run_clazz_ident : Z;
  run_counters : MatchCounters;
  run_base_strings_size : Z;
  run_aliases : list (string * string);
  run_world : World
}.

(** The [while (1)] loop after a class is renamed: as long as the array
    type of one more dimension of the old name is an interned string that
    names a type, it is given the array type of the new name. *)
Fixpoint array_aliases_loop (fuel : nat) (oldname dstring : string) (w : World)
    (aliases : list (string * string)) : option (list (string * string) * World) :=
  match fuel with
  | O => None
  | S fuel' =>
      let arrayop := String.append "[" (c_str oldname) in
      if negb (get_string (c_str arrayop) w) then Some (aliases, w)
      else
        let oldname := c_str arrayop in
        if negb (get_type oldname w) then Some (aliases, w)
        else
          let newarraytype := String.append "[" (c_str dstring) in
          let w := make_string (c_str newarraytype) w in
          let dstring := c_str newarraytype in
          let aliases := aliases ++ [(oldname, dstring)] in
          let w := assign_name_alias oldname dstring w in
          array_aliases_loop fuel' oldname dstring w aliases
  end.

(** The loop over the scope; [fuel] bounds each run of the inner loop. *)
Fixpoint rename_classes_run (fuel : nat) (scope : list DexClass)
    (pre_whitelist_patterns post_whitelist_patterns : list string)
    (r : RenameRun) : Outcome RenameRun :=
  match scope with
  | [] => Finished r
  | clazz :: rest =>
      let '(renamed, g) :=
        should_rename clazz pre_whitelist_patterns post_whitelist_patterns
          (run_counters r) in
      if renamed then
        match get_next_ident (run_clazz_ident r) with
        | None => Aborted
        | Some (clzname, ident) =>
            let descriptor := sprintf_LX clzname in
            let w := make_string descriptor (run_world r) in
            let oldname := class_name clazz in
            let aliases := run_aliases r ++ [(oldname, descriptor)] in
            let w := assign_name_alias oldname descriptor w in
            let base :=
              int_add_size_t
                (int_add_size_t (run_base_strings_size r) (strlen (c_str oldname)))
                (strlen (c_str descriptor)) in
            match array_aliases_loop fuel oldname descriptor w aliases with
            | None => OutOfFuel
            | Some (aliases, w) =>
                rename_classes_run fuel rest pre_whitelist_patterns
                  post_whitelist_patterns (mkRenameRun ident g base aliases w)
            end
        end
      else
        rename_classes_run fuel rest pre_whitelist_patterns post_whitelist_patterns
          (mkRenameRun (run_clazz_ident r) g (run_base_strings_size r)
             (run_aliases r) (run_world r))
  end.

(** The variables of the loop that [rename_classes_loop] follows, with
    the assignments made for the classes themselves. *)
Definition class_level (r : RenameRun) (aliases : list (string * string))
    : RenameState :=
  mkRenameState (run_clazz_ident r) (run_counters r) (run_base_strings_size r) aliases.

End RenameRun.

(** Tables for the examples: the interned strings, each of which also
    names a type; no string of 64 characters or more is interned. *)
Definition example_make_string (s : string) (w : list string) : list string := s :: w.

Definition example_get_string (s : string) (w : list string) : bool :=
  Nat.ltb (String.length s) 64 && existsb (String.eqb s) w.

Definition example_assign_name_alias (old new : string) (w : list string)
    : list string := w.

Definition example_initial_run : RenameRun :=
  mkRenameRun 0 (mkMatchCounters 0 0 0) 0 []
    ["[Lcom/foo/Bar;"%string; "[[Lcom/foo/Bar;"%string].

Definition example_final_run : RenameRun :=
  mkRenameRun 2 (mkMatchCounters 0 1 1) 36
    [ ("Lcom/foo/Bar;"%string, "LXa;"%string);
      ("[Lcom/foo/Bar;"%string, "[LXa;"%string);
      ("[[Lcom/foo/Bar;"%string, "[[LXa;"%string);
      ("Lcom/foo/Bar$1;"%string, "LXb;"%string) ]
    [ "LXb;"%string; "[[LXa;"%string; "[LXa;"%string; "LXa;"%string;
      "[Lcom/foo/Bar;"%string; "[[Lcom/foo/Bar;"%string ].

(** ** [RenameClasses.cpp]: the aliases of generic types

    The body of the loop over [aliases] that follows the renaming loop,
    for one pair. [get_string] stands for [DexString::get_string], which
    is declared outside this file: whether a string is already interned.
    [make_string] interns its argument, here the string itself. *)
Inductive GenericAlias : Set :=
| GA_undefined   (* an access outside [sourcestr] or [buf] *)
| GA_continue
| GA_assign (dstring target : string).

(** [s[i]]; at the terminator it is NUL. *)
Definition index_char (s : string) (i : Z) : ascii :=
  match String.get (Z.to_nat i) s with Some a => a | None => NUL end.

(** [buf] read as a C string after [buf[i] = 0], for [i] within it. *)
Definition truncate_at (buf : string) (i : Z) : string :=
  String.substring 0 (Z.to_nat i) buf.

Definition generic_alias (get_string : string -> bool) (apair : string * string)
    : GenericAlias :=
  let sourcestr := c_str (fst apair) in
  let sourcelen := strlen sourcestr in
  if sourcelen =? 0 then GA_undefined
  else if negb (Ascii.eqb (index_char sourcestr (sourcelen - 1)) ";"%char) then GA_continue
  else if MAX_DESCRIPTOR_LENGTH <? sourcelen + 1 then GA_undefined
  else
    let buf := truncate_at sourcestr (sourcelen - 1) in
    if negb (get_string buf) then GA_continue
    else
      let second := c_str (snd apair) in
      if MAX_DESCRIPTOR_LENGTH <? strlen second + 1 then GA_undefined
      else if strlen second =? 0 then GA_undefined
      else GA_assign buf (truncate_at second (strlen second - 1)).

(** ** [type_analyzer::Transform] (TypeAnalysisTransform.h) *)

Module Transform.

(** [struct Config] with its default member initialisers. *)
Record Config : Set := mkConfig {
  remove_redundant_null_checks : bool;
  remove_kotlin_null_check_assertions : bool;
  remove_redundant_type_checks : bool
}.

Definition Config_default : Config := mkConfig true false true.

(** [struct Stats]: five [size_t] counters, zero by default. *)
Record Stats : Set := mkStats {
  null_check_removed : Z;
  unsupported_branch : Z;
  kotlin_null_check_removed : Z;
  type_check_removed : Z;
  null_check_only_type_checks : Z
}.

Definition Stats_default : Stats := mkStats 0 0 0 0 0.

(** [size_t] addition wraps. *)
Definition size_t_add (a b : Z) : Z := (a + b) mod 2 ^ 64.

(** [Stats& operator+=(const Stats& that)] *)
Definition plus_assign (this that : Stats) : Stats :=
  mkStats
    (size_t_add (null_check_removed this) (null_check_removed that))
    (size_t_add (unsupported_branch this) (unsupported_branch that))
    (size_t_add (kotlin_null_check_removed this) (kotlin_null_check_removed that))
    (size_t_add (type_check_removed this) (type_check_removed that))
    (size_t_add (null_check_only_type_checks this) (null_check_only_type_checks that)).

(** [bool is_empty()] *)
Definition is_empty (s : Stats) : bool :=
  (null_check_removed s =? 0) && (kotlin_null_check_removed s =? 0)
  && (type_check_removed s =? 0).

(** Every counter is a [size_t]. *)
Definition Stats_wf (s : Stats) : Prop :=
  size_t_range (null_check_removed s) /\ size_t_range (unsupported_branch s) /\
  size_t_range (kotlin_null_check_removed s) /\ size_t_range (type_check_removed s) /\
  size_t_range (null_check_only_type_checks s).

End Transform.

(** ** Locations: field and special never alias *)

Lemma special_value_range sl : 0 <= special_value sl <= 8.
Proof. destruct sl; simpl; lia. Qed.

Lemma tag_below_END sl : is_tag sl = true -> special_value sl < special_value END.
Proof. destruct sl; simpl; intros; try lia; discriminate. Qed.

Lemma real_field_above_END f : real_field f -> special_value END <= f.
Proof.
  unfold real_field, size_t_range, nullptr, alignof_DexField. simpl.
  intros [[Hlo _] [Hnz Hal]].
  apply Z.mod_divide in Hal; [|lia]. destruct Hal as [k ->]. lia.
Qed.

Lemma real_field_not_special f :
  real_field f -> is_special (CseLocation_of_field f) = false.
Proof.
  intros H. apply real_field_above_END in H.
  unfold is_special, special_location. simpl in *. lia.
Qed.

Lemma tag_is_special sl :
  is_tag sl = true -> is_special (CseLocation_of_special sl) = true.
Proof.
  intros H. apply tag_below_END in H.
  unfold is_special, special_location. simpl in *. lia.
Qed.

(** The source's remark: the null field and the first special location are
    in effect aliases. *)
Lemma nullptr_aliases_general_barrier :
  CseLocation_eqb (CseLocation_of_field nullptr)
                  (CseLocation_of_special GENERAL_MEMORY_BARRIER) = true.
Proof. reflexivity. Qed.

(** C1: a Location built from a real field never compares equal, under
    [operator==], to a Location built from a special tag (the general
    barrier or an array component kind), in either argument order. *)
Theorem special_never_aliases_real_field (f : DexFieldPtr) (s : CseSpecialLocations)
    (Hf : real_field f) (Hs : is_tag s = true) :
  CseLocation_eqb (CseLocation_of_field f) (CseLocation_of_special s) = false /\
  CseLocation_eqb (CseLocation_of_special s) (CseLocation_of_field f) = false /\
  CseLocation_neqb (CseLocation_of_field f) (CseLocation_of_special s) = true.
Proof.
  apply real_field_above_END in Hf. apply tag_below_END in Hs.
  unfold CseLocation_neqb, CseLocation_eqb, field. simpl in *.
  rewrite !(proj2 (Z.eqb_neq _ _)) by lia. auto.
Qed.

Lemma real_field_4096 : real_field 4096.
Proof.
  unfold real_field, size_t_range, nullptr, alignof_DexField.
  repeat split; first [lia | reflexivity].
Defined.

(** The field at address 4096 and the wide-array tag. *)
Lemma special_never_aliases_real_field_witness :
  real_field 4096 /\ is_tag ARRAY_COMPONENT_TYPE_WIDE = true /\
  CseLocation_eqb (CseLocation_of_field 4096)
                  (CseLocation_of_special ARRAY_COMPONENT_TYPE_WIDE) = false /\
  CseLocation_eqb (CseLocation_of_special ARRAY_COMPONENT_TYPE_WIDE)
                  (CseLocation_of_field 4096) = false /\
  CseLocation_neqb (CseLocation_of_field 4096)
                   (CseLocation_of_special ARRAY_COMPONENT_TYPE_WIDE) = true.
Proof.
  split; [exact real_field_4096|]. split; [reflexivity|].
  apply (special_never_aliases_real_field 4096 ARRAY_COMPONENT_TYPE_WIDE).
  - exact real_field_4096.
  - reflexivity.
Defined.

(** ** Locations: the order *)

Lemma CseLocation_wf_cases l :
  CseLocation_wf l ->
  (0 <= loc_word l < special_value END /\ is_special l = true) \/
  (special_value END <= loc_word l /\ is_special l = false /\ real_field (field l)).
Proof.
  unfold CseLocation_wf, is_special, special_location, field.
  intros [[H0 H]|H].
  - left. apply Z.ltb_lt in H. rewrite (proj2 (Z.ltb_lt _ _)) by lia. lia.
  - right. pose proof (real_field_above_END _ H) as Hge.
    rewrite (proj2 (Z.ltb_ge _ _)) by lia. auto.
Qed.

Lemma CseLocation_eqb_eq a b : CseLocation_eqb a b = true <-> a = b.
Proof.
  destruct a as [x], b as [y]. unfold CseLocation_eqb, field. simpl.
  rewrite Z.eqb_eq. split; [intros ->; reflexivity | intros [= ->]; reflexivity].
Qed.

Lemma CseLocation_of_field_wf f : real_field f -> CseLocation_wf (CseLocation_of_field f).
Proof. intros H. right. exact H. Qed.

Lemma CseLocation_of_special_wf s : is_tag s = true -> CseLocation_wf (CseLocation_of_special s).
Proof.
  intros H. left. split.
  - simpl. pose proof (special_value_range s). lia.
  - apply tag_is_special, H.
Qed.

Ltac loc_cases H :=
  let Hr := fresh "Hrange" in
  let Hs := fresh "Hspecial" in
  let Hf := fresh "Hreal" in
  apply CseLocation_wf_cases in H;
  destruct H as [[Hr Hs]|[Hr [Hs Hf]]];
  unfold is_special in Hs; change (special_value END) with 8 in Hr.

(** C2: given a strict total order on the real fields, [operator<] is a
    strict total order on Locations that agrees with [operator==]: of
    [a < b], [b < a], [a == b] exactly one holds; [<] is irreflexive and
    transitive; and every special Location is strictly below every field
    Location. *)
Theorem CseLocation_ltb_strict_total_order
    (cmp : DexFieldPtr -> DexFieldPtr -> bool)
    (Hcmp : fields_strict_total_order cmp) :
  (forall a b, CseLocation_wf a -> CseLocation_wf b ->
     (CseLocation_ltb cmp a b = true /\ CseLocation_ltb cmp b a = false /\
      CseLocation_eqb a b = false) \/
     (CseLocation_ltb cmp a b = false /\ CseLocation_ltb cmp b a = true /\
      CseLocation_eqb a b = false) \/
     (CseLocation_ltb cmp a b = false /\ CseLocation_ltb cmp b a = false /\
      CseLocation_eqb a b = true)) /\
  (forall a, CseLocation_wf a -> CseLocation_ltb cmp a a = false) /\
  (forall a b c, CseLocation_wf a -> CseLocation_wf b -> CseLocation_wf c ->
     CseLocation_ltb cmp a b = true -> CseLocation_ltb cmp b c = true ->
     CseLocation_ltb cmp a c = true) /\
  (forall s f, is_tag s = true -> real_field f ->
     CseLocation_ltb cmp (CseLocation_of_special s) (CseLocation_of_field f) = true /\
     CseLocation_ltb cmp (CseLocation_of_field f) (CseLocation_of_special s) = false).
Proof.
  destruct Hcmp as [Hirr Htr Htot].
  split; [|split; [|split]].
  - intros a b Ha Hb. loc_cases Ha; loc_cases Hb;
      unfold CseLocation_ltb, CseLocation_eqb; rewrite Hspecial, Hspecial0;
      unfold special_location, field in *; cbv iota.
    + destruct (Z.lt_trichotomy (loc_word a) (loc_word b)) as [H|[H|H]].
      * left. rewrite (proj2 (Z.ltb_lt _ _)), (proj2 (Z.ltb_ge _ _)),
          (proj2 (Z.eqb_neq _ _)) by lia. auto.
      * right; right. rewrite H, Z.ltb_irrefl, Z.eqb_refl. auto.
      * right; left. rewrite (proj2 (Z.ltb_ge _ _)), (proj2 (Z.ltb_lt _ _)),
          (proj2 (Z.eqb_neq _ _)) by lia. auto.
    + left. rewrite (proj2 (Z.eqb_neq _ _)) by lia. auto.
    + right; left. rewrite (proj2 (Z.eqb_neq _ _)) by lia. auto.
    + destruct (Z.eq_dec (loc_word a) (loc_word b)) as [E|N].
      * right; right. rewrite E, Z.eqb_refl, Hirr by assumption. auto.
      * rewrite (proj2 (Z.eqb_neq _ _)) by assumption.
        destruct (cmp (loc_word a) (loc_word b)) eqn:Eab;
          destruct (cmp (loc_word b) (loc_word a)) eqn:Eba; auto.
        -- pose proof (Htr _ _ _ Hreal Hreal0 Hreal Eab Eba) as Haa.
           rewrite Hirr in Haa by assumption. discriminate.
        -- destruct (Htot _ _ Hreal Hreal0 N); congruence.
  - intros a Ha. loc_cases Ha; unfold CseLocation_ltb; rewrite Hspecial; cbv iota.
    + apply Z.ltb_irrefl.
    + apply Hirr, Hreal.
  - intros a b c Ha Hb Hc. loc_cases Ha; loc_cases Hb; loc_cases Hc;
      unfold CseLocation_ltb; rewrite Hspecial, Hspecial0, Hspecial1;
      unfold special_location, field in *; cbv iota; try congruence.
    + rewrite !Z.ltb_lt. lia.
    + apply Htr; assumption.
  - intros s f Hs Hf.
    pose proof (tag_is_special _ Hs) as H1.
    pose proof (real_field_not_special _ Hf) as H2.
    unfold is_special in H1, H2. unfold CseLocation_ltb. rewrite H1, H2. auto.
Qed.

Lemma real_field_Zltb_order : fields_strict_total_order Z.ltb.
Proof.
  split.
  - intros f _. apply Z.ltb_irrefl.
  - intros f g h _ _ _. rewrite !Z.ltb_lt. lia.
  - intros f g _ _ N. rewrite !Z.ltb_lt. lia.
Defined.

(** With the fields ordered by address: the int-array Location is below
    the field at 4096, and the fields at 4096 and 8192 are ordered one
    way only. *)
Lemma CseLocation_ltb_strict_total_order_witness :
  fields_strict_total_order Z.ltb /\
  (CseLocation_ltb Z.ltb (CseLocation_of_special ARRAY_COMPONENT_TYPE_INT)
                         (CseLocation_of_field 4096) = true /\
   CseLocation_ltb Z.ltb (CseLocation_of_field 4096)
                         (CseLocation_of_special ARRAY_COMPONENT_TYPE_INT) = false) /\
  CseLocation_ltb Z.ltb (CseLocation_of_field 4096) (CseLocation_of_field 4096) = false.
Proof.
  split; [exact real_field_Zltb_order|].
  pose proof (CseLocation_ltb_strict_total_order Z.ltb real_field_Zltb_order)
    as [_ [Hirr [_ Hspecial]]].
  split.
  - apply Hspecial; [reflexivity | exact real_field_4096].
  - apply Hirr. apply CseLocation_of_field_wf. exact real_field_4096.
Defined.

(** ** Barriers *)

Lemma Barrier_eqb_eq a b : Barrier_eqb a b = true <-> a = b.
Proof.
  destruct a as [o1 w1], b as [o2 w2]. unfold Barrier_eqb, barrier_field. simpl.
  rewrite andb_true_iff, !Z.eqb_eq.
  split; [intros [-> ->]; reflexivity | intros [= -> ->]; auto].
Qed.

(** C3: two Barriers are equal under [operator==] exactly when their
    opcodes are equal and their field identities are equal. The method
    identity is the same word of the union as the field, so it takes part
    through the same comparison; and nothing else tells two barriers
    apart: equal barriers are the same record. *)
Theorem Barrier_eqb_iff_opcode_and_field :
  (forall a b : Barrier,
     Barrier_eqb a b = true <->
     opcode a = opcode b /\ barrier_field a = barrier_field b) /\
  (forall b : Barrier, barrier_method b = barrier_field b) /\
  (forall op1 op2 m1 m2,
     Barrier_eqb (Barrier_of_method op1 m1) (Barrier_of_method op2 m2) = true <->
     op1 = op2 /\ m1 = m2) /\
  (forall a b : Barrier, Barrier_eqb a b = true <-> a = b).
Proof.
  split; [|split; [|split]].
  - intros a b. unfold Barrier_eqb. rewrite andb_true_iff, !Z.eqb_eq. reflexivity.
  - reflexivity.
  - intros. unfold Barrier_eqb, Barrier_of_method, barrier_field. simpl.
    rewrite andb_true_iff, !Z.eqb_eq. reflexivity.
  - apply Barrier_eqb_eq.
Qed.

(** ** Hashing *)

(** C9: both hashers agree with the equality of their key type: equal
    Locations hash alike, and equal Barriers hash alike. *)
Theorem hashers_consistent_with_equality :
  (forall a b : CseLocation,
     CseLocation_eqb a b = true -> CseLocationHasher a = CseLocationHasher b) /\
  (forall x y : Barrier,
     Barrier_eqb x y = true -> BarrierHasher x = BarrierHasher y).
Proof.
  split.
  - intros a b H. unfold CseLocation_eqb in H. apply Z.eqb_eq in H.
    unfold CseLocationHasher. exact H.
  - intros x y H. unfold Barrier_eqb in H.
    apply andb_true_iff in H. destruct H as [Ho Hf].
    apply Z.eqb_eq in Ho, Hf. unfold BarrierHasher. rewrite Ho, Hf. reflexivity.
Qed.

(** ** [should_rename] *)

Lemma starts_with_append p v : starts_with p (String.append p v) = true.
Proof.
  induction p as [|a p IH]; simpl; [reflexivity|].
  rewrite Ascii.eqb_refl. exact IH.
Qed.

Lemma starts_with_inv p h :
  starts_with p h = true -> exists v, h = String.append p v.
Proof.
  revert h. induction p as [|a p IH]; intros h H; simpl in *.
  - exists h. reflexivity.
  - destruct h as [|b h]; [discriminate|].
    apply andb_true_iff in H. destruct H as [Hab Hp].
    apply Ascii.eqb_eq in Hab. subst b.
    destruct (IH _ Hp) as [v ->]. exists v. reflexivity.
Qed.

Lemma strstr_unfold hay needle :
  strstr hay needle =
  if starts_with needle hay then Some hay
  else match hay with
       | EmptyString => None
       | String _ h' => strstr h' needle
       end.
Proof. destruct hay; reflexivity. Qed.

Lemma strstr_finds u p v :
  exists r, strstr (String.append u (String.append p v)) p = Some r.
Proof.
  induction u as [|a u IH]; rewrite strstr_unfold.
  - change (String.append EmptyString (String.append p v)) with (String.append p v).
    rewrite starts_with_append. eauto.
  - change (String.append (String a u) (String.append p v))
      with (String a (String.append u (String.append p v))).
    destruct (starts_with p _); eauto.
Qed.

Lemma strstr_found_contains hay needle r :
  strstr hay needle = Some r -> contains hay needle.
Proof.
  revert r. induction hay as [|a h IH]; intros r; rewrite strstr_unfold.
  - destruct (starts_with needle EmptyString) eqn:E; [|discriminate].
    intros _. apply starts_with_inv in E. destruct E as [v E].
    exists EmptyString, v. exact E.
  - destruct (starts_with needle (String a h)) eqn:E.
    + intros _. apply starts_with_inv in E. destruct E as [v E].
      exists EmptyString, v. exact E.
    + intros H. destruct (IH _ H) as [u [v ->]].
      exists (String a u), v. reflexivity.
Qed.

Lemma strstr_is_Some_iff hay needle :
  is_Some (strstr hay needle) <-> contains hay needle.
Proof.
  split.
  - intros [r H]. eapply strstr_found_contains, H.
  - intros [u [v ->]]. destruct (strstr_finds u needle v) as [r H]. eauto.
Qed.

Lemma match_patterns_is_Some_iff chstring patterns g :
  is_Some (match_patterns chstring patterns g) <->
  matches_some_pattern chstring patterns.
Proof.
  induction patterns as [|p ps IH]; simpl.
  - split; [intros [? [=]] | intros [p [[] _]]].
  - destruct (strstr chstring (c_str p)) eqn:E.
    + split.
      * intros _. exists p. split; [left; reflexivity|].
        apply strstr_is_Some_iff. rewrite E. eauto.
      * intros _. destruct (1 <? Z.of_nat (String.length p)); eauto.
    + rewrite IH. split.
      * intros [q [Hq Hc]]. exists q. split; [right; exact Hq | exact Hc].
      * intros [q [[<-|Hq] Hc]].
        -- apply strstr_is_Some_iff in Hc. rewrite E in Hc.
           destruct Hc as [? [=]].
        -- exists q. auto.
Qed.

Lemma strrchr_absent c s :
  c <> NUL -> ~ occurs c s -> strrchr s c = None.
Proof.
  intros Hc. induction s as [|a s IH]; simpl; intros H.
  - apply Ascii.eqb_neq in Hc. rewrite Hc. reflexivity.
  - rewrite IH by tauto.
    destruct (Ascii.eqb a c) eqn:E; [|reflexivity].
    apply Ascii.eqb_eq in E. tauto.
Qed.

Lemma strrchr_last c u t :
  c <> NUL -> ~ occurs c t ->
  strrchr (String.append u (String c t)) c = Some (String c t).
Proof.
  intros Hc Ht. induction u as [|a u IH]; simpl.
  - rewrite (strrchr_absent c t Hc Ht), Ascii.eqb_refl. reflexivity.
  - rewrite IH. reflexivity.
Qed.

Lemma strrchr_inv c s p :
  c <> NUL -> strrchr s c = Some p ->
  exists u t, s = String.append u (String c t) /\ p = String c t /\ ~ occurs c t.
Proof.
  intros Hc. revert p. induction s as [|a s IH]; simpl; intros p H.
  - apply Ascii.eqb_neq in Hc. rewrite Hc in H. discriminate.
  - destruct (strrchr s c) as [q|] eqn:E.
    + injection H as <-. destruct (IH _ eq_refl) as [u [t [-> [-> Ht]]]].
      exists (String a u), t. auto.
    + destruct (Ascii.eqb a c) eqn:Eac; [|discriminate].
      apply Ascii.eqb_eq in Eac. subst a. injection H as <-.
      exists EmptyString, s. repeat split.
      intros Hocc. clear IH.
      assert (Hn : forall s', occurs c s' -> strrchr s' c <> None).
      { induction s' as [|b s' IH']; simpl; [tauto|].
        intros [->|Ho].
        - destruct (strrchr s' c); [discriminate|].
          rewrite Ascii.eqb_refl. discriminate.
        - destruct (strrchr s' c); [discriminate|]. exfalso. apply (IH' Ho). reflexivity. }
      exact (Hn s Hocc E).
Qed.

Lemma digit_test_iff (val : ascii) :
  (char_to_int "0"%char <=? char_to_int val) &&
  (char_to_int val <=? char_to_int "9"%char) = true <-> is_decimal_digit val.
Proof.
  unfold is_decimal_digit, char_to_int, nat_of_ascii.
  change (Z.of_N (N_of_ascii "0")) with 48.
  change (Z.of_N (N_of_ascii "9")) with 57.
  change (48 <? 128) with true. change (57 <? 128) with true.
  cbv iota beta zeta. rewrite andb_true_iff, !Z.leb_le.
  pose proof (N_ascii_bounded val) as Hb.
  destruct (Z.ltb_spec (Z.of_N (N_of_ascii val)) 128); lia.
Qed.

Lemma dollar_not_NUL : "$"%char <> NUL.
Proof. discriminate. Qed.

Lemma digit_not_dollar d : is_decimal_digit d -> d <> "$"%char.
Proof.
  intros H ->. unfold is_decimal_digit in H.
  change (nat_of_ascii "$") with 36%nat in H. lia.
Qed.

Lemma anonymous_class_test_iff chstring :
  anonymous_class_test chstring = true <-> last_dollar_then_digit chstring.
Proof.
  unfold anonymous_class_test, last_dollar_then_digit. split.
  - destruct (strrchr chstring "$") as [p|] eqn:E; [|discriminate].
    apply (strrchr_inv _ _ _ dollar_not_NUL) in E.
    destruct E as [u [t [-> [-> Ht]]]]. simpl. intros H.
    apply digit_test_iff in H.
    destruct t as [|d rest].
    + unfold is_decimal_digit in H.
      change (nat_of_ascii (deref EmptyString)) with 0%nat in H. lia.
    + exists u, d, rest. split; [reflexivity | split; [exact H|]].
      intros Ho. apply Ht. right. exact Ho.
  - intros [u [d [rest [-> [Hd Hr]]]]].
    rewrite strrchr_last.
    + simpl. apply digit_test_iff, Hd.
    + exact dollar_not_NUL.
    + simpl. intros [Heq|Ho]; [|tauto].
      apply (digit_not_dollar _ Hd Heq).
Qed.

(** C10: [should_rename] answers true for every class whose name has a
    ['$'] whose last occurrence is immediately followed by a decimal digit,
    and for every class whose name matches a pre-pattern, and in both
    cases [can_rename] is not consulted: the answer and the counters are
    the same whatever [can_rename] says. The [can_rename] guard stands
    only before the post-pattern check: a class that is neither anonymous
    nor matched by a pre-pattern is renamed exactly when [can_rename]
    holds and a post-pattern matches. *)
Theorem should_rename_guard_only_before_post_patterns :
  (forall clazz pre post g,
     last_dollar_then_digit (c_str (class_name clazz)) ->
     fst (should_rename clazz pre post g) = true) /\
  (forall clazz pre post g,
     matches_some_pattern (c_str (class_name clazz)) pre ->
     fst (should_rename clazz pre post g) = true) /\
  (forall name b b' pre post g,
     last_dollar_then_digit (c_str name) \/ matches_some_pattern (c_str name) pre ->
     should_rename (mkDexClass name b) pre post g =
     should_rename (mkDexClass name b') pre post g) /\
  (forall clazz pre post g,
     ~ last_dollar_then_digit (c_str (class_name clazz)) ->
     ~ matches_some_pattern (c_str (class_name clazz)) pre ->
     (fst (should_rename clazz pre post g) = true <->
      can_rename clazz = true /\
      matches_some_pattern (c_str (class_name clazz)) post)).
Proof.
  split; [|split; [|split]].
  - intros clazz pre post g H. apply anonymous_class_test_iff in H.
    unfold should_rename. rewrite H. reflexivity.
  - intros clazz pre post g H.
    apply (match_patterns_is_Some_iff _ _ g) in H. destruct H as [g' H].
    unfold should_rename.
    destruct (anonymous_class_test _); [reflexivity|]. rewrite H. reflexivity.
  - intros name b b' pre post g H. unfold should_rename. simpl.
    destruct (anonymous_class_test (c_str name)) eqn:Ea; [reflexivity|].
    destruct H as [H|H].
    + apply anonymous_class_test_iff in H. congruence.
    + apply (match_patterns_is_Some_iff _ _ g) in H. destruct H as [g' H].
      rewrite H. reflexivity.
  - intros clazz pre post g Ha Hp. unfold should_rename.
    destruct (anonymous_class_test _) eqn:Ea.
    { exfalso. apply Ha, anonymous_class_test_iff, Ea. }
    destruct (match_patterns _ pre g) as [g'|] eqn:Epre.
    { exfalso. apply Hp. eapply match_patterns_is_Some_iff. rewrite Epre. eauto. }
    destruct (can_rename clazz); simpl.
    + destruct (match_patterns _ post g) as [g'|] eqn:Epost; simpl.
      * split; [intros _; split; [reflexivity|] | reflexivity].
        eapply match_patterns_is_Some_iff. rewrite Epost. eauto.
      * split; [discriminate|]. intros [_ H].
        apply (match_patterns_is_Some_iff _ _ g) in H.
        rewrite Epost in H. destruct H as [? [=]].
    + split; [discriminate | intros [[=] _]].
Qed.

(** An anonymous class and a pre-pattern match are renamed although
    [can_rename] is false; a post-pattern match is not. *)
Example should_rename_anonymous_ignores_can_rename :
  fst (should_rename (mkDexClass "Lcom/foo/Bar$1;" false) [] []
         (mkMatchCounters 0 0 0)) = true /\
  fst (should_rename (mkDexClass "Lcom/foo/Bar;" false) ["foo"%string] []
         (mkMatchCounters 0 0 0)) = true /\
  fst (should_rename (mkDexClass "Lcom/foo/Bar;" false) [] ["foo"%string]
         (mkMatchCounters 0 0 0)) = false /\
  fst (should_rename (mkDexClass "Lcom/foo/Bar;" true) [] ["foo"%string]
         (mkMatchCounters 0 0 0)) = true.
Proof. repeat split. Qed.

(** ** The effect-set fixpoint *)

Local Close Scope Z_scope.

Lemma sum_list_with_le {A} (f g : A -> nat) (l : list A) :
  (forall x, x ∈ l -> f x <= g x) -> sum_list_with f l <= sum_list_with g l.
Proof.
  induction l as [|a l IH]; simpl; intros H; [lia|].
  pose proof (H a ltac:(left)) as Ha.
  assert (sum_list_with f l <= sum_list_with g l).
  { apply IH. intros x Hx. apply H. right. exact Hx. }
  lia.
Qed.

Lemma sum_list_with_squeeze {A} (f g : A -> nat) (l : list A) :
  (forall x, x ∈ l -> f x <= g x) ->
  sum_list_with g l <= sum_list_with f l ->
  forall x, x ∈ l -> f x = g x.
Proof.
  induction l as [|a l IH]; simpl; intros H Hsum x Hx.
  - inversion Hx.
  - pose proof (H a ltac:(left)) as Ha.
    assert (Hl : sum_list_with f l <= sum_list_with g l).
    { apply sum_list_with_le. intros y Hy. apply H. right. exact Hy. }
    apply elem_of_cons in Hx. destruct Hx as [->|Hx]; [lia|].
    apply IH; [intros y Hy; apply H; right; exact Hy | lia | exact Hx].
Qed.

Lemma sum_list_with_bound {A} (f : A -> nat) (l : list A) (k : nat) :
  (forall x, x ∈ l -> f x <= k) -> sum_list_with f l <= length l * k.
Proof.
  induction l as [|a l IH]; simpl; intros H; [lia|].
  pose proof (H a ltac:(left)) as Ha.
  assert (sum_list_with f l <= length l * k).
  { apply IH. intros x Hx. apply H. right. exact Hx. }
  lia.
Qed.

Section EffectsFixpoint.

Variable graph : gmap DexMethodPtr (gset DexMethodPtr).
Variable direct : gmap DexMethodPtr (gset CseLocation).

#[local] Abbreviation effects_measure := (effects_size direct).
#[local] Abbreviation effects_bounded := (effects_within_universe direct).

Lemma lookup_propagate W m :
  propagate graph direct W !! m =
  (fun D => D ∪ successors_effect graph W m) <$> direct !! m.
Proof.
  unfold propagate. rewrite map_lookup_imap.
  destruct (direct !! m); reflexivity.
Qed.

Lemma effect_of_propagate W m D :
  direct !! m = Some D ->
  effect_of (propagate graph direct W) m = D ∪ successors_effect graph W m.
Proof.
  intros H. unfold effect_of. rewrite lookup_propagate, H. reflexivity.
Qed.

Lemma effect_of_propagate_None W m :
  direct !! m = None ->
  effect_of (propagate graph direct W) m = {[ general_memory_barrier ]}.
Proof.
  intros H. unfold effect_of. rewrite lookup_propagate, H. reflexivity.
Qed.

Lemma dom_propagate W : dom (propagate graph direct W) = dom direct.
Proof.
  apply set_eq. intros m. rewrite !elem_of_dom, lookup_propagate.
  destruct (direct !! m); simpl; split; intros [? ?]; eauto; discriminate.
Qed.

Lemma elem_of_successors_effect W m x :
  x ∈ successors_effect graph W m <->
  exists s, s ∈ graph !!! m /\ x ∈ effect_of W s.
Proof.
  unfold successors_effect. rewrite elem_of_union_list. split.
  - intros [X [HX Hx]]. apply list_elem_of_fmap in HX.
    destruct HX as [s [-> Hs]]. apply elem_of_elements in Hs. eauto.
  - intros [s [Hs Hx]]. exists (effect_of W s). split; [|exact Hx].
    apply list_elem_of_fmap. exists s. split; [reflexivity|].
    apply elem_of_elements, Hs.
Qed.

Lemma propagate_mono W W' :
  effects_below W W' ->
  effects_below (propagate graph direct W) (propagate graph direct W').
Proof.
  intros H m. destruct (direct !! m) as [D|] eqn:E.
  - rewrite !(effect_of_propagate _ _ _ E).
    intros x. rewrite !elem_of_union, !elem_of_successors_effect.
    intros [Hx|[s [Hs Hx]]]; [left; exact Hx|].
    right. exists s. split; [exact Hs | apply H, Hx].
  - rewrite !(effect_of_propagate_None _ _ E). reflexivity.
Qed.

Lemma effect_of_direct m D : direct !! m = Some D -> effect_of direct m = D.
Proof. intros H. unfold effect_of. rewrite H. reflexivity. Qed.

Lemma effect_of_direct_None m :
  direct !! m = None -> effect_of direct m = {[ general_memory_barrier ]}.
Proof. intros H. unfold effect_of. rewrite H. reflexivity. Qed.

Lemma direct_below_propagate W : effects_below direct (propagate graph direct W).
Proof.
  intros m. destruct (direct !! m) as [D|] eqn:E.
  - rewrite (effect_of_propagate _ _ _ E), (effect_of_direct _ _ E).
    apply union_subseteq_l.
  - rewrite (effect_of_propagate_None _ _ E), (effect_of_direct_None _ E).
    reflexivity.
Qed.

Lemma barrier_in_universe : general_memory_barrier ∈ written_universe direct.
Proof. unfold written_universe. apply elem_of_union. left. apply elem_of_singleton. reflexivity. Qed.

Lemma direct_in_universe m : effect_of direct m ⊆ written_universe direct.
Proof.
  destruct (direct !! m) as [D|] eqn:E.
  - rewrite (effect_of_direct _ _ E).
    intros x Hx. unfold written_universe. apply elem_of_union. right.
    apply elem_of_union_list.
    exists D. split; [|exact Hx]. apply list_elem_of_fmap.
    exists (m, D). split; [reflexivity|]. apply elem_of_map_to_list, E.
  - rewrite (effect_of_direct_None _ E). intros x Hx.
    apply elem_of_singleton in Hx. subst x. apply barrier_in_universe.
Qed.

Lemma propagate_bounded W :
  effects_bounded W -> effects_bounded (propagate graph direct W).
Proof.
  intros H m. destruct (direct !! m) as [D|] eqn:E.
  - rewrite (effect_of_propagate _ _ _ E).
    intros x. rewrite elem_of_union, elem_of_successors_effect.
    intros [Hx|[s [_ Hx]]]; [|apply (H s), Hx].
    apply (direct_in_universe m). rewrite (effect_of_direct _ _ E). exact Hx.
  - rewrite (effect_of_propagate_None _ _ E). intros x Hx.
    apply elem_of_singleton in Hx. subst x. apply barrier_in_universe.
Qed.

Lemma effects_measure_bound W :
  effects_bounded W ->
  effects_measure W <= size (dom direct) * size (written_universe direct).
Proof.
  intros H. unfold effects_measure.
  apply (sum_list_with_bound _ (elements (dom direct))).
  intros m _. apply subseteq_size, H.
Qed.

Lemma effects_measure_mono W W' :
  effects_below W W' -> effects_measure W <= effects_measure W'.
Proof.
  intros H. apply sum_list_with_le. intros m _. apply subseteq_size, H.
Qed.

Lemma effects_below_measure_eq W W' :
  dom W = dom direct -> dom W' = dom direct ->
  effects_below W W' -> effects_measure W' <= effects_measure W -> W = W'.
Proof.
  intros HdW HdW' Hbelow Hle. apply map_eq. intros m.
  destruct (decide (m ∈ dom direct)) as [Hin|Hout].
  - assert (Hsize : size (effect_of W m) = size (effect_of W' m)).
    { apply (sum_list_with_squeeze (fun m => size (effect_of W m))
               (fun m => size (effect_of W' m)) (elements (dom direct))).
      - intros x _. apply subseteq_size, Hbelow.
      - exact Hle.
      - apply elem_of_elements, Hin. }
    assert (Heq : effect_of W m = effect_of W' m).
    { apply set_subseteq_size_eq; [apply Hbelow | lia]. }
    assert (HW : is_Some (W !! m)) by (apply elem_of_dom; rewrite HdW; exact Hin).
    assert (HW' : is_Some (W' !! m)) by (apply elem_of_dom; rewrite HdW'; exact Hin).
    destruct HW as [X HX], HW' as [X' HX'].
    unfold effect_of in Heq. rewrite HX, HX' in Heq. simpl in Heq.
    rewrite HX, HX', Heq. reflexivity.
  - assert (HW : W !! m = None) by (apply not_elem_of_dom; rewrite HdW; exact Hout).
    assert (HW' : W' !! m = None) by (apply not_elem_of_dom; rewrite HdW'; exact Hout).
    rewrite HW, HW'. reflexivity.
Qed.

(** The iteration reaches a fixpoint before its fuel runs out. *)
Lemma effects_fixpoint_terminates fuel W stats :
  dom W = dom direct -> effects_bounded W ->
  effects_below W (propagate graph direct W) ->
  size (dom direct) * size (written_universe direct) - effects_measure W < fuel ->
  exists W' stats', effects_fixpoint graph direct fuel W stats = Some (W', stats').
Proof.
  revert W stats. induction fuel as [|fuel IH]; intros W stats Hdom Hb Hbelow Hfuel; [lia|].
  simpl. destruct (decide (propagate graph direct W = W)) as [E|N]; [eauto|].
  apply IH.
  - apply dom_propagate.
  - apply propagate_bounded, Hb.
  - apply propagate_mono, Hbelow.
  - pose proof (effects_measure_bound _ (propagate_bounded _ Hb)) as Hbound.
    pose proof (effects_measure_mono _ _ Hbelow) as Hmono.
    assert (effects_measure W <> effects_measure (propagate graph direct W)).
    { intros Heq. apply N. symmetry.
      apply effects_below_measure_eq; [exact Hdom | apply dom_propagate | exact Hbelow | lia]. }
    lia.
Qed.

(** Whatever the rounds preserve holds of the result, which is a fixpoint. *)
Lemma effects_fixpoint_invariant (P : gmap DexMethodPtr (gset CseLocation) -> Prop)
    fuel W stats W' stats' :
  (forall X, P X -> P (propagate graph direct X)) ->
  P W ->
  effects_fixpoint graph direct fuel W stats = Some (W', stats') ->
  P W' /\ propagate graph direct W' = W'.
Proof.
  intros Hstep. revert W stats.
  induction fuel as [|fuel IH]; intros W stats HP H; simpl in H; [discriminate|].
  destruct (decide (propagate graph direct W = W)) as [E|N].
  - injection H as <- <-. auto.
  - eapply IH; [apply Hstep, HP | exact H].
Qed.

End EffectsFixpoint.

Lemma propagate_graph_mono graph graph' direct W :
  (forall m, graph !!! m ⊆ graph' !!! m) ->
  effects_below (propagate graph direct W) (propagate graph' direct W).
Proof.
  intros H m. destruct (direct !! m) as [D|] eqn:E.
  - rewrite !(effect_of_propagate _ _ _ _ _ E).
    intros x. rewrite !elem_of_union, !elem_of_successors_effect.
    intros [Hx|[s [Hs Hx]]]; [left; exact Hx|].
    right. exists s. split; [apply H, Hs | exact Hx].
  - rewrite !(effect_of_propagate_None _ _ _ _ E). reflexivity.
Qed.

(** The fixpoint the rounds reach: it exists, it has an entry for every
    method of the map, it holds the direct writes, and it is the least
    map closed under a round. *)
Lemma effects_fixpoint_least graph direct :
  exists W stats,
    effects_fixpoint graph direct (effects_fuel direct) direct
      (mkMethodBarriersStats 0 0) = Some (W, stats) /\
    propagate graph direct W = W /\
    dom W = dom direct /\
    effects_below direct W /\
    (forall Y, effects_below (propagate graph direct Y) Y -> effects_below W Y).
Proof.
  destruct (effects_fixpoint_terminates graph direct (effects_fuel direct) direct
              (mkMethodBarriersStats 0 0)) as [W [stats H]].
  - reflexivity.
  - intros m. apply direct_in_universe.
  - apply direct_below_propagate.
  - unfold effects_fuel. lia.
  - exists W, stats. split; [exact H|].
    pose (P := fun X : gmap DexMethodPtr (gset CseLocation) =>
      dom X = dom direct /\ effects_below direct X /\
      forall Y, effects_below (propagate graph direct Y) Y -> effects_below X Y).
    assert (Hstep : forall X, P X -> P (propagate graph direct X)).
    { intros X [Hd [Hb Hl]]. split; [apply dom_propagate|].
      split; [apply direct_below_propagate|].
      intros Y HY m. etransitivity; [|apply HY].
      apply propagate_mono, Hl, HY. }
    assert (HP : P direct).
    { split; [reflexivity|]. split; [intros m; reflexivity|].
      intros Y HY m. etransitivity; [|apply HY]. apply direct_below_propagate. }
    destruct (effects_fixpoint_invariant graph direct P _ _ _ _ _ Hstep HP H)
      as [[Hd [Hb Hl]] Hfix].
    auto.
Qed.

Lemma lookup_direct_writes_of_scope pure scope m :
  direct_writes_of_scope pure scope !! m =
  (fun dm => scan_direct_writes (has_body scope) pure (method_code dm)) <$> scope !! m.
Proof. unfold direct_writes_of_scope. apply lookup_fmap. Qed.

Lemma has_body_add_override a b scope m :
  has_body (add_override a b scope) m = has_body scope m.
Proof.
  unfold has_body, add_override. destruct (decide (a = m)) as [->|N].
  - rewrite lookup_alter_eq. destruct (scope !! m); reflexivity.
  - rewrite lookup_alter_ne by exact N. reflexivity.
Qed.

Lemma direct_write_ext resolvable resolvable' pure i :
  (forall m, resolvable m = resolvable' m) ->
  direct_write resolvable pure i = direct_write resolvable' pure i.
Proof.
  intros H. unfold direct_write. destruct (insn_kind i); try reflexivity.
  rewrite H. reflexivity.
Qed.

Lemma scan_direct_writes_ext resolvable resolvable' pure code :
  (forall m, resolvable m = resolvable' m) ->
  scan_direct_writes resolvable pure code = scan_direct_writes resolvable' pure code.
Proof.
  intros H. destruct code as [body|]; [|reflexivity]. simpl. f_equal.
  apply list_fmap_ext. intros k i _. apply direct_write_ext, H.
Qed.

Lemma direct_writes_add_override pure a b scope :
  direct_writes_of_scope pure (add_override a b scope) =
  direct_writes_of_scope pure scope.
Proof.
  apply map_eq. intros m. rewrite !lookup_direct_writes_of_scope.
  unfold add_override at 2. destruct (decide (a = m)) as [->|N].
  - rewrite lookup_alter_eq. destruct (scope !! m); simpl; [|reflexivity].
    f_equal. apply scan_direct_writes_ext, has_body_add_override.
  - rewrite lookup_alter_ne by exact N.
    destruct (scope !! m); simpl; [|reflexivity].
    f_equal. apply scan_direct_writes_ext, has_body_add_override.
Qed.

Lemma override_graph_add_override a b scope m :
  build_override_graph scope !!! m ⊆
  build_override_graph (add_override a b scope) !!! m.
Proof.
  unfold build_override_graph, add_override.
  rewrite !lookup_total_alt, !lookup_fmap.
  destruct (decide (a = m)) as [->|N].
  - rewrite lookup_alter_eq. destruct (scope !! m); simpl; set_solver.
  - rewrite lookup_alter_ne by exact N. reflexivity.
Qed.

Lemma add_override_edge a b scope :
  is_Some (scope !! a) -> override_edge (add_override a b scope) a b.
Proof.
  intros [dm H]. unfold override_edge, build_override_graph, add_override.
  rewrite lookup_total_alt, lookup_fmap, lookup_alter_eq, H. simpl. set_solver.
Qed.

(** What [init_method_barriers] returns: the shared state with its pure
    and safe sets unchanged, the override graph of the scope, and effect
    sets that no further round changes, that hold every method's direct
    writes and the effect set of every successor in the graph. *)
Lemma init_method_barriers_Some st scope :
  exists W stats,
    init_method_barriers st scope =
      Some (mkSharedState (m_pure_methods st) (m_safe_methods st) W
              (build_override_graph scope), stats) /\
    propagate (build_override_graph scope)
      (direct_writes_of_scope (m_pure_methods st) scope) W = W /\
    (forall m dm, scope !! m = Some dm ->
       scan_direct_writes (has_body scope) (m_pure_methods st) (method_code dm)
         ⊆ effect_of W m) /\
    (forall m s, override_edge scope m s -> effect_of W s ⊆ effect_of W m) /\
    (forall Y,
       effects_below
         (propagate (build_override_graph scope)
            (direct_writes_of_scope (m_pure_methods st) scope) Y) Y ->
       effects_below W Y).
Proof.
  unfold init_method_barriers.
  destruct (effects_fixpoint_least (build_override_graph scope)
              (direct_writes_of_scope (m_pure_methods st) scope))
    as [W [stats [Hrun [Hfix [Hdom [Hdirect Hleast]]]]]].
  rewrite Hrun. exists W, stats. split; [reflexivity|].
  split; [exact Hfix|]. split; [|split; [|exact Hleast]].
  - intros m dm Hm. etransitivity; [|apply Hdirect].
    unfold effect_of at 1. rewrite lookup_direct_writes_of_scope, Hm. reflexivity.
  - intros m s Hs. unfold override_edge in Hs.
    destruct (scope !! m) as [dm|] eqn:E.
    + rewrite <- Hfix at 2.
      erewrite effect_of_propagate
        by (rewrite lookup_direct_writes_of_scope, E; reflexivity).
      intros x Hx. apply elem_of_union. right.
      apply elem_of_successors_effect. eauto.
    + unfold build_override_graph in Hs.
      rewrite lookup_total_alt, lookup_fmap, E in Hs. simpl in Hs. set_solver.
Qed.

(** C4: [init_method_barriers] reaches its fixpoint (a further round
    changes no effect set), and there every method's effect set holds the
    method's direct writes and the effect set of every method reachable
    from it through the override graph. Adding an override edge and
    running again gives every method an effect set at least as large. *)
Theorem init_method_barriers_effect_sets
    (st : SharedState) (scope : gmap DexMethodPtr DexMethod) :
  exists st' stats,
    init_method_barriers st scope = Some (st', stats) /\
    propagate (build_override_graph scope)
      (direct_writes_of_scope (m_pure_methods st) scope)
      (m_method_written_locations st') = m_method_written_locations st' /\
    (forall m dm, scope !! m = Some dm ->
       scan_direct_writes (has_body scope) (m_pure_methods st) (method_code dm)
         ⊆ effect_set st' m) /\
    (forall m m', rtc (override_edge scope) m m' ->
       effect_set st' m' ⊆ effect_set st' m) /\
    (forall a b,
       (is_Some (scope !! a) -> override_edge (add_override a b scope) a b) /\
       (forall x y, override_edge scope x y ->
                    override_edge (add_override a b scope) x y) /\
       exists st'' stats'',
         init_method_barriers st (add_override a b scope) = Some (st'', stats'') /\
         forall m, effect_set st' m ⊆ effect_set st'' m).
Proof.
  destruct (init_method_barriers_Some st scope)
    as [W [stats [Hrun [Hfix [Hdirect [Hedge Hleast]]]]]].
  rewrite Hrun. eexists _, _. split; [reflexivity|].
  unfold effect_set. cbn [m_method_written_locations].
  split; [exact Hfix|]. split; [exact Hdirect|]. split.
  - intros m m' Hreach. induction Hreach as [|m s m' Hs _ IH]; [reflexivity|].
    etransitivity; [exact IH | apply Hedge, Hs].
  - intros a b. split; [apply add_override_edge|].
    split; [intros x y Hxy; apply override_graph_add_override, Hxy|].
    destruct (init_method_barriers_Some st (add_override a b scope))
      as [W' [stats' [Hrun' [Hfix' _]]]].
    rewrite Hrun'. eexists _, _. split; [reflexivity|].
    cbn [m_method_written_locations].
    rewrite direct_writes_add_override in Hfix'.
    apply Hleast. rewrite <- Hfix' at 2.
    apply propagate_graph_mono. intros m. apply override_graph_add_override.
Qed.

(** A run on a two-method scope: [2] overrides [1] and stores to the
    field at 4096; [1] has no body. The store shows in both effect sets,
    and the general barrier in that of [1]. *)
Example init_method_barriers_example :
  let scope : gmap DexMethodPtr DexMethod :=
    <[1%Z := mkDexMethod None {[ 2%Z ]}]>
      (<[2%Z := mkDexMethod (Some [mkInsn 10%Z (FieldStore 4096%Z) []]) ∅]> ∅) in
  (fun r => (effect_set (fst r) 1%Z, effect_set (fst r) 2%Z,
             inlined_barriers_iterations (snd r)))
    <$> init_method_barriers (mkSharedState ∅ ∅ ∅ ∅) scope
  = Some ({[ general_memory_barrier; CseLocation_of_field 4096%Z ]},
          {[ CseLocation_of_field 4096%Z ]}, 1%Z).
Proof. vm_compute. reflexivity. Qed.

(** A method in the pure set that has no body is not taken as pure: the
    method [5] that calls it has the general barrier in its effect set,
    while a call of the pure method [8], which has a body, leaves the
    effect set of [6] empty. *)
Example call_of_body_less_pure_method_is_barrier :
  let scope : gmap DexMethodPtr DexMethod :=
    <[5%Z := mkDexMethod (Some [mkInsn 10%Z (Invoke 7%Z) []]) ∅]>
      (<[6%Z := mkDexMethod (Some [mkInsn 11%Z (Invoke 8%Z) []]) ∅]>
         (<[7%Z := mkDexMethod None ∅]>
            (<[8%Z := mkDexMethod (Some []) ∅]> ∅))) in
  (fun r => (effect_set (fst r) 5%Z, effect_set (fst r) 6%Z))
    <$> init_method_barriers (mkSharedState {[ 7%Z; 8%Z ]} ∅ ∅ ∅) scope
  = Some ({[ general_memory_barrier ]}, ∅).
Proof. vm_compute. reflexivity. Qed.

(** ** The shared-state queries *)

Section SharedStateFacts.

Variable has_resolvable_body : DexMethodPtr -> bool.
Variable devirtualize : DexTypePtr -> DexMethodPtr -> DexMethodPtr.
Variable st : SharedState.

Lemma intersects_true l S :
  intersects l S = true <-> exists r, r ∈ S /\ locations_overlap l r = true.
Proof.
  unfold intersects. rewrite existsb_exists. split.
  - intros [r [Hr Ho]]. exists r. split; [|exact Ho].
    apply elem_of_elements, list_elem_of_In, Hr.
  - intros [r [Hr Ho]]. exists r. split; [|exact Ho].
    apply list_elem_of_In, elem_of_elements, Hr.
Qed.

Lemma intersects_false l S r :
  intersects l S = false -> r ∈ S -> locations_overlap l r = false.
Proof.
  intros H Hr. destruct (locations_overlap l r) eqn:E; [|reflexivity].
  assert (intersects l S = true) by (apply intersects_true; eauto). congruence.
Qed.

Lemma general_barrier_overlaps d :
  locations_overlap general_memory_barrier d = true.
Proof.
  unfold locations_overlap.
  rewrite (bool_decide_eq_true_2 (general_memory_barrier = general_memory_barrier))
    by reflexivity.
  rewrite orb_true_r. reflexivity.
Qed.

Lemma relevant_None l reads r :
  relevant l reads = None -> r ∈ reads -> locations_overlap l r = false.
Proof.
  unfold relevant. destruct (intersects l reads) eqn:E; [discriminate|].
  intros _. apply intersects_false, E.
Qed.

Lemma classify_unresolved m :
  has_resolvable_body m = false -> classify has_resolvable_body st m = Unresolved.
Proof. intros H. unfold classify. rewrite H. reflexivity. Qed.

Lemma classify_Pure m :
  classify has_resolvable_body st m = Pure ->
  has_resolvable_body m = true /\ (m ∈ m_pure_methods st).
Proof.
  unfold classify. destruct (has_resolvable_body m); [|discriminate].
  destruct (decide (m ∈ m_pure_methods st)); [auto|].
  destruct (decide (m ∈ m_safe_methods st)); discriminate.
Qed.

Lemma classify_Safe m :
  classify has_resolvable_body st m = Safe ->
  has_resolvable_body m = true /\ (m ∉ m_pure_methods st) /\ (m ∈ m_safe_methods st).
Proof.
  unfold classify. destruct (has_resolvable_body m); [|discriminate].
  destruct (decide (m ∈ m_pure_methods st)); [discriminate|].
  destruct (decide (m ∈ m_safe_methods st)); [auto | discriminate].
Qed.

Lemma classify_Opaque m :
  classify has_resolvable_body st m = Opaque ->
  has_resolvable_body m = true /\ (m ∉ m_pure_methods st) /\ (m ∉ m_safe_methods st).
Proof.
  unfold classify. destruct (has_resolvable_body m); [|discriminate].
  destruct (decide (m ∈ m_pure_methods st)); [discriminate|].
  destruct (decide (m ∈ m_safe_methods st)); [discriminate | auto].
Qed.

Lemma effect_without_relevant_write (effect reads : gset CseLocation) w r :
  existsb (fun w => intersects w reads) (elements effect) = false ->
  w ∈ effect -> r ∈ reads -> locations_overlap w r = false.
Proof.
  intros E Hw Hr. destruct (intersects w reads) eqn:Ew.
  - assert (existsb (fun w => intersects w reads) (elements effect) = true).
    { apply existsb_exists. exists w. split; [|exact Ew].
      apply list_elem_of_In, elem_of_elements, Hw. }
    congruence.
  - eapply intersects_false; eassumption.
Qed.

Lemma effect_with_barrier (effect reads : gset CseLocation) r :
  general_memory_barrier ∈ effect -> r ∈ reads ->
  existsb (fun w => intersects w reads) (elements effect) = true.
Proof.
  intros Hb Hr. apply existsb_exists. exists general_memory_barrier.
  split; [apply list_elem_of_In, elem_of_elements, Hb|].
  apply intersects_true. exists r. split; [exact Hr|]. apply general_barrier_overlaps.
Qed.

(** The answers for the invokes the policy makes a general barrier. *)
Lemma invoke_unresolved_barrier i m exact reads :
  insn_kind i = Invoke m -> has_resolvable_body m = false ->
  get_relevant_written_location has_resolvable_body devirtualize st i exact reads
    = Some general_memory_barrier /\
  classify has_resolvable_body st m <> Pure /\
  classify has_resolvable_body st m <> Safe /\
  has_pure_method has_resolvable_body st i = false.
Proof.
  intros Hk Hb. pose proof (classify_unresolved m Hb) as Hc.
  unfold get_relevant_written_location, has_pure_method, invoke_written_locations.
  rewrite Hk, Hc. repeat split; discriminate.
Qed.

Section CoveringEffects.

Variable scope : gmap DexMethodPtr DexMethod.
Hypothesis Hcover : effects_cover scope st.
Hypothesis Hres : resolves_within scope has_resolvable_body.

#[local] Abbreviation may_write :=
  (insn_may_write scope (m_pure_methods st) (m_safe_methods st) devirtualize).

Lemma body_may_write_covered m l :
  body_may_write scope (m_pure_methods st) m l -> l ∈ effect_set st m.
Proof. intros H. apply Hcover. exists m. split; [constructor | exact H]. Qed.

Lemma target_effect_covers m effect l :
  target_effect has_resolvable_body st m = Some effect ->
  body_may_write scope (m_pure_methods st) m l -> l ∈ effect.
Proof.
  unfold target_effect. destruct (has_resolvable_body m); [|discriminate].
  intros [= <-]. apply body_may_write_covered.
Qed.

(** What the shared state knows an invoke to write covers what the invoke
    may write. *)
Lemma invoke_written_locations_cover i m exact effect l :
  insn_kind i = Invoke m ->
  invoke_written_locations has_resolvable_body devirtualize st m exact = Some effect ->
  may_write i exact l -> l ∈ effect.
Proof.
  intros Hk. unfold invoke_written_locations.
  destruct (classify has_resolvable_body st m) eqn:Ec; [discriminate| | |].
  - apply classify_Pure in Ec. destruct Ec as [Hb Hp]. apply Hres in Hb.
    intros _ Hw. exfalso.
    destruct Hw as [f H|k H|H|m' H Hn|m' H Hn _ _|m' l H Hn _ _|m' t l H Hn _ _];
      rewrite Hk in H; try discriminate; injection H as <-;
      [congruence | contradiction | contradiction | contradiction].
  - apply classify_Safe in Ec. destruct Ec as [Hb [Hnp Hs]]. apply Hres in Hb.
    intros He Hw.
    destruct Hw as [f H|k H|H|m' H Hn|m' H _ Hns _|m' l H _ Hx Hm|m' t l H _ Hx Hm];
      rewrite Hk in H; try discriminate; injection H as <-.
    + congruence.
    + contradiction.
    + subst exact. injection He as <-. apply Hcover, Hm.
    + subst exact. eapply target_effect_covers; eassumption.
  - apply classify_Opaque in Ec. destruct Ec as [Hb [Hnp Hns]]. apply Hres in Hb.
    intros He Hw.
    destruct Hw as [f H|k H|H|m' H Hn|m' H _ _ Hx|m' l H _ Hx Hm|m' t l H _ Hx Hm];
      rewrite Hk in H; try discriminate; injection H as <-.
    + congruence.
    + subst exact. discriminate.
    + subst exact. discriminate.
    + subst exact. eapply target_effect_covers; eassumption.
Qed.

(** When the query answers none, nothing the instruction may write
    intersects the read locations. *)
Lemma get_relevant_written_location_None i exact reads :
  get_relevant_written_location has_resolvable_body devirtualize st i exact reads = None ->
  forall w r, may_write i exact w -> r ∈ reads -> locations_overlap w r = false.
Proof.
  unfold get_relevant_written_location. intros H w r Hw Hr.
  destruct (insn_kind i) as [f|f|k|k| | |m|op|op|op| |op] eqn:Hk;
    try (destruct Hw as [? H'|? H'|H'|? H' ?|? H' ? ? ?|? ? H' ? ? ?|? ? ? H' ? ? ?];
         rewrite Hk in H'; discriminate).
  - destruct Hw as [? H'|? H'|H'|? H' ?|? H' ? ? ?|? ? H' ? ? ?|? ? ? H' ? ? ?];
      rewrite Hk in H'; try discriminate.
    injection H' as <-. eapply relevant_None; eassumption.
  - destruct Hw as [? H'|? H'|H'|? H' ?|? H' ? ? ?|? ? H' ? ? ?|? ? ? H' ? ? ?];
      rewrite Hk in H'; try discriminate.
    injection H' as <-. eapply relevant_None; eassumption.
  - destruct Hw as [? H'|? H'|H'|? H' ?|? H' ? ? ?|? ? H' ? ? ?|? ? ? H' ? ? ?];
      rewrite Hk in H'; try discriminate.
    eapply relevant_None; eassumption.
  - destruct (invoke_written_locations _ _ _ _ _) as [effect|] eqn:Ei; [|discriminate].
    destruct (existsb _ _) eqn:E; [discriminate|].
    eapply effect_without_relevant_write; [exact E| |exact Hr].
    eapply invoke_written_locations_cover; [exact Hk | exact Ei | exact Hw].
Qed.

(** When the query answers a Location, it is the Location written or the
    general barrier. *)
Lemma get_relevant_written_location_Some i exact reads l0 w :
  get_relevant_written_location has_resolvable_body devirtualize st i exact reads = Some l0 ->
  may_write i exact w ->
  l0 = w \/ l0 = general_memory_barrier.
Proof.
  unfold get_relevant_written_location, relevant. intros H Hw.
  destruct Hw as [f Hk|k Hk|Hk|m Hk Hn|m Hk _ _ _|m l Hk _ _ _|m t l Hk _ _ _];
    rewrite Hk in H.
  - destruct (intersects _ _); [|discriminate]. injection H as <-. auto.
  - destruct (intersects _ _); [|discriminate]. injection H as <-. auto.
  - destruct (intersects _ _); [|discriminate]. injection H as <-. auto.
  - destruct (invoke_written_locations _ _ _ _ _);
      [destruct (existsb _ _); [|discriminate]|]; injection H as <-; auto.
  - destruct (invoke_written_locations _ _ _ _ _);
      [destruct (existsb _ _); [|discriminate]|]; injection H as <-; auto.
  - destruct (invoke_written_locations _ _ _ _ _);
      [destruct (existsb _ _); [|discriminate]|]; injection H as <-; auto.
  - destruct (invoke_written_locations _ _ _ _ _);
      [destruct (existsb _ _); [|discriminate]|]; injection H as <-; auto.
Qed.

(** An invoke of a method outside the pure set that some method without
    a body may replace is answered with the general barrier whenever a
    Location is tracked. *)
Lemma invoke_reaching_no_body_barrier i m m' reads r :
  insn_kind i = Invoke m -> m ∉ m_pure_methods st ->
  rtc (override_edge scope) m m' -> has_body scope m' = false -> r ∈ reads ->
  get_relevant_written_location has_resolvable_body devirtualize st i None reads
    = Some general_memory_barrier.
Proof.
  intros Hk Hnp Hreach Hnb Hr.
  unfold get_relevant_written_location, invoke_written_locations. rewrite Hk.
  destruct (classify has_resolvable_body st m) eqn:Ec; [reflexivity| | |reflexivity].
  - apply classify_Pure in Ec. tauto.
  - rewrite (effect_with_barrier _ _ r); [reflexivity| |exact Hr].
    apply Hcover. exists m'. split; [exact Hreach|]. apply no_body_writes, Hnb.
Qed.

End CoveringEffects.

End SharedStateFacts.

Lemma writes_directly_direct_write scope pure i l :
  writes_directly scope pure i l -> l ∈ direct_write (has_body scope) pure i.
Proof.
  unfold direct_write. intros [f ->|k ->| -> |m -> Hn|m -> Hn].
  - apply elem_of_singleton. reflexivity.
  - apply elem_of_singleton. reflexivity.
  - apply elem_of_singleton. reflexivity.
  - rewrite Hn. apply elem_of_singleton. reflexivity.
  - rewrite (bool_decide_eq_false_2 _ Hn), andb_false_r.
    apply elem_of_singleton. reflexivity.
Qed.

Lemma direct_write_writes_directly scope pure i l :
  l ∈ direct_write (has_body scope) pure i -> writes_directly scope pure i l.
Proof.
  unfold direct_write. destruct (insn_kind i) as [f|f|k|k| | |m|op|op|op| |op] eqn:Hk;
    intros H; try (apply elem_of_empty in H; contradiction).
  - apply elem_of_singleton in H. subst l. apply field_store_writes, Hk.
  - apply elem_of_singleton in H. subst l. apply array_store_writes, Hk.
  - apply elem_of_singleton in H. subst l. apply monitor_writes, Hk.
  - destruct (has_body scope m) eqn:Hb; simpl in H.
    + destruct (bool_decide_reflect (m ∈ pure)) as [Hp|Hp];
        [apply elem_of_empty in H; contradiction|].
      apply elem_of_singleton in H. subst l.
      eapply call_outside_pure_writes; eassumption.
    + apply elem_of_singleton in H. subst l.
      eapply call_without_body_writes; eassumption.
Qed.

(** The shared state [init_method_barriers] builds keeps the pure and
    safe sets, and its effect sets cover the program: they hold every
    Location the body of a method, or of a method that may execute in its
    place, may write, and the general barrier for every method that a
    method without a body may replace. *)
Lemma init_method_barriers_covers st0 scope st stats :
  init_method_barriers st0 scope = Some (st, stats) ->
  m_pure_methods st = m_pure_methods st0 /\
  m_safe_methods st = m_safe_methods st0 /\
  effects_cover scope st.
Proof.
  destruct (init_method_barriers_Some st0 scope)
    as [W [stats' [Hrun [Hfix [Hdirect [Hedge _]]]]]].
  rewrite Hrun. intros [= <- <-]. cbn [m_pure_methods m_safe_methods].
  split; [reflexivity|]. split; [reflexivity|].
  intros m l [m' [Hreach Hbody]]. unfold effect_set. cbn [m_method_written_locations].
  assert (Hm' : l ∈ effect_of W m').
  { destruct Hbody as [dm body i l Hm Hcode Hi Hw | Hnb].
    - apply (Hdirect m' dm Hm). rewrite Hcode. simpl.
      apply elem_of_union_list. exists (direct_write (has_body scope) (m_pure_methods st0) i).
      split; [|apply writes_directly_direct_write, Hw].
      apply list_elem_of_fmap. exists i. auto.
    - unfold has_body in Hnb. destruct (scope !! m') as [dm|] eqn:Hm.
      + destruct (method_code dm) eqn:Hcode; [discriminate|].
        apply (Hdirect m' dm Hm). rewrite Hcode. apply elem_of_singleton. reflexivity.
      + unfold effect_of. rewrite <- Hfix, lookup_propagate,
          lookup_direct_writes_of_scope, Hm. apply elem_of_singleton. reflexivity. }
  clear Hbody. induction Hreach as [|m s m' Hs _ IH]; [exact Hm'|].
  apply (Hedge m s Hs), IH, Hm'.
Qed.

(** And they hold nothing else: every Location of a computed effect set
    is one a virtual call of the method may write. *)
Lemma init_method_barriers_exact st0 scope st stats m l :
  init_method_barriers st0 scope = Some (st, stats) ->
  l ∈ effect_set st m -> method_may_write scope (m_pure_methods st0) m l.
Proof.
  unfold init_method_barriers.
  destruct (effects_fixpoint _ _ _ _ _) as [[W stats']|] eqn:Hrun; [|discriminate].
  intros [= <- <-]. unfold effect_set. cbn [m_method_written_locations].
  pose (P := fun X : gmap DexMethodPtr (gset CseLocation) =>
    forall m l, l ∈ effect_of X m -> method_may_write scope (m_pure_methods st0) m l).
  assert (Hmissing : forall m, scope !! m = None ->
            method_may_write scope (m_pure_methods st0) m general_memory_barrier).
  { intros m' Hm. exists m'. split; [constructor|]. apply no_body_writes.
    unfold has_body. rewrite Hm. reflexivity. }
  assert (Hdirect : P (direct_writes_of_scope (m_pure_methods st0) scope)).
  { intros m' l'. unfold effect_of. rewrite lookup_direct_writes_of_scope.
    destruct (scope !! m') as [dm|] eqn:Hm; simpl.
    - intros Hl. exists m'. split; [constructor|].
      destruct (method_code dm) as [body|] eqn:Hcode; simpl in Hl.
      + apply elem_of_union_list in Hl. destruct Hl as [X [HX Hl]].
        apply list_elem_of_fmap in HX. destruct HX as [i [-> Hi]].
        eapply body_writes; [exact Hm | exact Hcode | exact Hi |].
        apply direct_write_writes_directly, Hl.
      + apply elem_of_singleton in Hl. subst l'. apply no_body_writes.
        unfold has_body. rewrite Hm, Hcode. reflexivity.
    - intros Hl. apply elem_of_singleton in Hl. subst l'. apply Hmissing, Hm. }
  assert (Hstep : forall X, P X ->
            P (propagate (build_override_graph scope)
                 (direct_writes_of_scope (m_pure_methods st0) scope) X)).
  { intros X HX m' l'.
    destruct (direct_writes_of_scope (m_pure_methods st0) scope !! m') as [D|] eqn:E.
    - rewrite (effect_of_propagate _ _ _ _ _ E).
      rewrite elem_of_union, elem_of_successors_effect.
      intros [Hl|[s [Hs Hl]]].
      + apply Hdirect. unfold effect_of. rewrite E. exact Hl.
      + destruct (HX s l' Hl) as [s' [Hreach Hbody]].
        exists s'. split; [|exact Hbody]. eapply rtc_l; [exact Hs | exact Hreach].
    - rewrite (effect_of_propagate_None _ _ _ _ E). intros Hl.
      apply elem_of_singleton in Hl. subst l'. apply Hmissing.
      rewrite lookup_direct_writes_of_scope in E.
      destruct (scope !! m'); [discriminate | reflexivity]. }
  destruct (effects_fixpoint_invariant _ _ P _ _ _ _ _ Hstep Hdirect Hrun) as [HP _].
  apply HP.
Qed.

Lemma has_body_resolves_within scope : resolves_within scope (has_body scope).
Proof. intros m H. exact H. Qed.

(** C5: the query is a total function: a soundness-risk input gets an
    answer, not an error. Take the shared state [init_method_barriers]
    builds from a scope, and a metadata resolution that resolves only
    methods with a body in the scope. An instruction invoking a method
    with no resolvable body, or with no body in the scope, is answered
    with the general-barrier Location, and such a method is classified
    neither pure nor safe; so is an invoke of an unclassified method on a
    receiver of unknown type, one whose exact target has no resolvable
    body, and, when a Location is tracked, one of a method outside the
    pure set that a method without a body may replace. The answer none is
    given only when no Location the instruction may write, by the bodies
    of the scope and its override graph, intersects the given read
    locations. *)
Theorem get_relevant_written_location_conservative
    (has_resolvable_body : DexMethodPtr -> bool)
    (devirtualize : DexTypePtr -> DexMethodPtr -> DexMethodPtr)
    (st0 : SharedState) (scope : gmap DexMethodPtr DexMethod)
    (Hres : resolves_within scope has_resolvable_body) :
  exists st stats,
    init_method_barriers st0 scope = Some (st, stats) /\
    (forall i m exact reads,
       insn_kind i = Invoke m ->
       has_resolvable_body m = false \/ has_body scope m = false ->
       get_relevant_written_location has_resolvable_body devirtualize st i exact reads
         = Some general_memory_barrier /\
       classify has_resolvable_body st m <> Pure /\
       classify has_resolvable_body st m <> Safe /\
       has_pure_method has_resolvable_body st i = false) /\
    (forall i m reads,
       insn_kind i = Invoke m -> classify has_resolvable_body st m = Opaque ->
       get_relevant_written_location has_resolvable_body devirtualize st i None reads
         = Some general_memory_barrier) /\
    (forall i m t reads,
       insn_kind i = Invoke m ->
       classify has_resolvable_body st m = Opaque \/
       classify has_resolvable_body st m = Safe ->
       has_resolvable_body (devirtualize t m) = false ->
       get_relevant_written_location has_resolvable_body devirtualize st i (Some t) reads
         = Some general_memory_barrier) /\
    (forall i m m' reads r,
       insn_kind i = Invoke m -> m ∉ m_pure_methods st0 ->
       rtc (override_edge scope) m m' -> has_body scope m' = false -> r ∈ reads ->
       get_relevant_written_location has_resolvable_body devirtualize st i None reads
         = Some general_memory_barrier) /\
    (forall i exact reads,
       get_relevant_written_location has_resolvable_body devirtualize st i exact reads = None ->
       forall w r,
         insn_may_write scope (m_pure_methods st0) (m_safe_methods st0) devirtualize
           i exact w ->
         r ∈ reads -> locations_overlap w r = false).
Proof.
  destruct (init_method_barriers_Some st0 scope) as [W [stats [Hrun _]]].
  rewrite Hrun. eexists _, _. split; [reflexivity|].
  destruct (init_method_barriers_covers _ _ _ _ Hrun) as [Hp [Hs Hcover]].
  set (st := mkSharedState _ _ W _) in *.
  split; [|split; [|split; [|split]]].
  - intros i m exact reads Hk Hb. apply invoke_unresolved_barrier; [exact Hk|].
    destruct Hb as [Hb|Hb]; [exact Hb|].
    destruct (has_resolvable_body m) eqn:E; [|reflexivity].
    apply Hres in E. congruence.
  - intros i m reads Hk Hc.
    unfold get_relevant_written_location, invoke_written_locations.
    rewrite Hk, Hc. reflexivity.
  - intros i m t reads Hk Hc Hb.
    unfold get_relevant_written_location, invoke_written_locations, target_effect.
    rewrite Hk. destruct Hc as [-> | ->]; rewrite Hb; reflexivity.
  - intros i m m' reads r Hk Hnp. rewrite <- Hp in Hnp.
    apply (invoke_reaching_no_body_barrier has_resolvable_body devirtualize st scope
             Hcover i m m' reads r Hk Hnp).
  - intros i exact reads Hq w r Hw. rewrite <- Hp, <- Hs in Hw.
    apply (get_relevant_written_location_None has_resolvable_body devirtualize st scope
             Hcover Hres i exact reads Hq w r Hw).
Qed.

(** ** The per-method pass *)

Section PerMethodCSEFacts.

Variable has_resolvable_body : DexMethodPtr -> bool.
Variable devirtualize : DexTypePtr -> DexMethodPtr -> DexMethodPtr.
Variable st : SharedState.
Variable exact_receiver : InsnPtr -> option DexTypePtr.
Variable new_insn : InsnPtr -> InsnPtr.

#[local] Abbreviation scan :=
  (scan_insn has_resolvable_body devirtualize st exact_receiver).
#[local] Abbreviation analyze :=
  (CommonSubexpressionElimination has_resolvable_body devirtualize st exact_receiver).
#[local] Abbreviation step_block :=
  (analyze_block has_resolvable_body devirtualize st exact_receiver).
#[local] Abbreviation check_barrier :=
  (barrier_check has_resolvable_body devirtualize st exact_receiver).
#[local] Abbreviation agrees_at :=
  (forwards_agree_at has_resolvable_body devirtualize st exact_receiver).
#[local] Abbreviation agrees_on_insns :=
  (forwards_agree_on_insns has_resolvable_body devirtualize st exact_receiver).
#[local] Abbreviation agrees_on_blocks :=
  (forwards_agree_on_blocks has_resolvable_body devirtualize st exact_receiver).
#[local] Abbreviation is_barrier := (may_write_memory has_resolvable_body st).
#[local] Abbreviation is_forwardable := (forwardable has_resolvable_body st).

Lemma signature_matches_refl e :
  signature_matches (entry_kind e) (entry_operands e) (entry_deps e) e = true.
Proof. unfold signature_matches. apply bool_decide_eq_true_2. auto. Qed.

Lemma value_of_nil x : value_of [] x = x.
Proof. reflexivity. Qed.

Lemma forwardable_not_barrier i :
  is_forwardable i = true -> is_barrier i = false.
Proof.
  unfold forwardable, may_write_memory.
  destruct (insn_kind i); try discriminate; try reflexivity.
  intros ->. reflexivity.
Qed.

Lemma invalidate_spec l T e :
  e ∈ invalidate l T <-> e ∈ T /\ depends_on l e = false.
Proof.
  unfold invalidate. rewrite !list_elem_of_In, filter_In, negb_true_iff. reflexivity.
Qed.

Lemma barrier_check_subset i T e : e ∈ check_barrier i T -> e ∈ T.
Proof.
  unfold barrier_check. destruct (is_barrier i); [|auto].
  destruct (get_relevant_written_location _ _ _ _ _ _); [|auto].
  intros H. apply invalidate_spec in H. tauto.
Qed.

Lemma deps_tracked T e d :
  e ∈ T -> d ∈ entry_deps e -> d ∈ tracked_read_locations T.
Proof.
  intros He Hd. unfold tracked_read_locations. apply elem_of_union_list.
  exists (entry_deps e). split; [|exact Hd].
  apply list_elem_of_fmap. exists e. auto.
Qed.

Lemma scan_insn_table s i e :
  e ∈ live_table (scan s i) ->
  e ∈ check_barrier i (live_table s) \/ entry_insn e = insn_id i.
Proof.
  unfold scan_insn, forwarding_check.
  destruct (is_forwardable i); cbn [live_table]; [|auto].
  destruct (List.find _ _); cbn [live_table]; [auto|].
  intros H. apply elem_of_app in H. destruct H as [H|H]; [auto|].
  apply list_elem_of_singleton in H. subst e. auto.
Qed.

Lemma scan_insn_exit_tables s i : exit_tables (scan s i) = exit_tables s.
Proof.
  unfold scan_insn, forwarding_check.
  destruct (is_forwardable i); [|reflexivity].
  destruct (List.find _ _); reflexivity.
Qed.

Lemma scan_insns_exit_tables insns : forall s,
  exit_tables (foldl scan s insns) = exit_tables s.
Proof.
  induction insns as [|i insns IH]; intros s; simpl; [reflexivity|].
  rewrite IH. apply scan_insn_exit_tables.
Qed.

Lemma analyze_block_exit_tables s b :
  exit_tables (step_block s b) =
  exit_tables s ++
    [live_table (foldl scan (enter_block s b) (block_insns b))].
Proof.
  unfold analyze_block, leave_block. cbn [exit_tables].
  rewrite scan_insns_exit_tables. reflexivity.
Qed.

Lemma entry_table_elem exits preds e q :
  e ∈ entry_table exits preds -> q ∈ preds -> e ∈ exit_of exits q.
Proof.
  destruct preds as [|p ps]; simpl; intros He Hq.
  - apply elem_of_nil in Hq. contradiction.
  - apply list_elem_of_In, filter_In in He. destruct He as [He Hall].
    apply elem_of_cons in Hq. destruct Hq as [->|Hq].
    + apply list_elem_of_In, He.
    + rewrite forallb_forall in Hall.
      apply list_elem_of_In, Hall in Hq. apply bool_decide_eq_true_1 in Hq. exact Hq.
Qed.

(** Before any block has been visited every entry table is empty. *)
Lemma entry_table_nil preds : entry_table [] preds = [].
Proof. destruct preds as [|p ps]; reflexivity. Qed.

(** *** Conservative invalidation *)

Section ConservativeInvalidation.

Variable scope : gmap DexMethodPtr DexMethod.
Hypothesis Hcover : effects_cover scope st.
Hypothesis Hres : resolves_within scope has_resolvable_body.

#[local] Abbreviation writes i :=
  (insn_may_write scope (m_pure_methods st) (m_safe_methods st) devirtualize
     i (exact_receiver (insn_id i))).
#[local] Abbreviation unwritten :=
  (unwritten_since scope (m_pure_methods st) (m_safe_methods st) devirtualize
     exact_receiver).

(** An instruction the barrier check passes over writes nothing. *)
Lemma not_barrier_writes_nothing i l : is_barrier i = false -> ~ writes i l.
Proof.
  unfold may_write_memory, has_pure_method. intros Hb Hw.
  destruct Hw as [f Hk|k Hk|Hk|m Hk Hn|m Hk Hn _ _|m l Hk Hn _ _|m t l Hk Hn _ _];
    rewrite Hk in Hb; try discriminate;
    destruct (classify has_resolvable_body st m) eqn:Ec; try discriminate;
    apply classify_Pure in Ec; destruct Ec as [Hr Hp];
    [apply Hres in Hr; congruence | | |]; contradiction.
Qed.

(** What survives the barrier check does not depend on anything the
    instruction may write. *)
Lemma barrier_check_sound i T e l d :
  e ∈ check_barrier i T -> writes i l -> d ∈ entry_deps e ->
  locations_overlap l d = false.
Proof.
  unfold barrier_check. destruct (is_barrier i) eqn:Eb.
  - destruct (get_relevant_written_location _ _ _ _ _ _) as [l0|] eqn:Eg.
    + intros He Hl Hd. apply invalidate_spec in He. destruct He as [He Hdep].
      unfold depends_on in Hdep.
      pose proof (intersects_false _ _ _ Hdep Hd) as Ho.
      destruct (get_relevant_written_location_Some _ _ _ _ _ _ _ _ _ Eg Hl) as [->| ->];
        [exact Ho|].
      rewrite general_barrier_overlaps in Ho. discriminate.
    + intros He Hl Hd.
      eapply get_relevant_written_location_None;
        [exact Hcover | exact Hres | exact Eg | exact Hl |].
      eapply deps_tracked; eassumption.
  - intros _ Hl. exfalso. exact (not_barrier_writes_nothing _ _ Eb Hl).
Qed.

Lemma unwritten_extend e pi i :
  unwritten e pi ->
  (forall l d, writes i l -> d ∈ entry_deps e -> locations_overlap l d = false) ->
  unwritten e (pi ++ [i]).
Proof.
  intros [pi1 [p [pi2 [-> [Hp Hclean]]]]] Hi.
  exists pi1, p, (pi2 ++ [i]). split; [rewrite <- app_assoc; reflexivity|].
  split; [exact Hp|]. intros w l d Hw. apply elem_of_app in Hw.
  destruct Hw as [Hw|Hw]; [eapply Hclean; exact Hw|].
  apply list_elem_of_singleton in Hw. subst w. apply Hi.
Qed.

Lemma unwritten_created e pi i :
  entry_insn e = insn_id i -> unwritten e (pi ++ [i]).
Proof.
  intros H. exists pi, i, []. split; [reflexivity|]. split; [auto|].
  intros w l d Hw. apply elem_of_nil in Hw. contradiction.
Qed.

(** One step of the scan keeps every live entry unwritten-since. *)
Lemma scan_insn_unwritten pi s i :
  (forall e, e ∈ live_table s -> unwritten e pi) ->
  forall e, e ∈ live_table (scan s i) -> unwritten e (pi ++ [i]).
Proof.
  intros H e He. apply scan_insn_table in He. destruct He as [He|He].
  - apply unwritten_extend.
    + apply H. eapply barrier_check_subset, He.
    + intros l d. eapply barrier_check_sound, He.
  - apply unwritten_created, He.
Qed.

Lemma scan_insns_unwritten insns : forall pi s,
  (forall e, e ∈ live_table s -> unwritten e pi) ->
  forall e, e ∈ live_table (foldl scan s insns) -> unwritten e (pi ++ insns).
Proof.
  induction insns as [|i insns IH]; intros pi s H e He; simpl in He.
  - rewrite app_nil_r. apply H, He.
  - replace (pi ++ i :: insns) with ((pi ++ [i]) ++ insns)
      by (rewrite <- app_assoc; reflexivity).
    eapply IH; [|exact He]. apply scan_insn_unwritten, H.
Qed.

Lemma entry_unwritten cfg exits k b e pi :
  length exits = k ->
  (forall q T bq e pi,
     exits !! q = Some T -> cfg !! q = Some bq -> e ∈ T ->
     path_to_entry cfg q pi -> unwritten e (pi ++ block_insns bq)) ->
  cfg !! k = Some b ->
  e ∈ entry_table exits (block_preds b) ->
  path_to_entry cfg k pi -> unwritten e pi.
Proof.
  intros Hlen Hexits Hk He Hpath.
  destruct Hpath as [b0 Hk0 | k b0 Hk0 Hpreds | k b0 q bq pi Hk0 Hq Hbq Hpath].
  - destruct exits; [|discriminate]. rewrite entry_table_nil in He.
    apply elem_of_nil in He. contradiction.
  - rewrite Hk in Hk0. injection Hk0 as <-. rewrite Hpreds in He.
    apply elem_of_nil in He. contradiction.
  - rewrite Hk in Hk0. injection Hk0 as <-.
    pose proof (entry_table_elem _ _ _ _ He Hq) as Hin.
    unfold exit_of in Hin. destruct (exits !! q) as [T|] eqn:ET; simpl in Hin.
    + eapply Hexits; eassumption.
    + apply elem_of_nil in Hin. contradiction.
Qed.

(** After the first [n] blocks, every exit table holds only entries that
    are unwritten-since on every path to the end of its block. *)
Lemma analyze_prefix_unwritten cfg n :
  n <= length cfg ->
  length (exit_tables (analyze (take n cfg))) = n /\
  forall q T bq e pi,
    exit_tables (analyze (take n cfg)) !! q = Some T -> cfg !! q = Some bq ->
    e ∈ T -> path_to_entry cfg q pi -> unwritten e (pi ++ block_insns bq).
Proof.
  induction n as [|n IH]; intros Hn.
  - rewrite take_0. split; [reflexivity|]. intros q T bq e pi H.
    unfold CommonSubexpressionElimination in H. simpl in H. discriminate.
  - destruct IH as [Hlen Hexits]; [lia|].
    destruct (lookup_lt_is_Some_2 cfg n ltac:(lia)) as [b Hb].
    rewrite (take_S_r _ _ _ Hb).
    unfold CommonSubexpressionElimination in *. rewrite foldl_app. cbn [foldl].
    rewrite analyze_block_exit_tables. split.
    + rewrite length_app, Hlen. simpl. lia.
    + intros q T bq e pi HT Hq He Hpath.
      destruct (decide (q < n)) as [Hlt|Hge].
      * rewrite lookup_app_l in HT by lia. eapply Hexits; eassumption.
      * rewrite lookup_app_r in HT by lia. rewrite Hlen in HT.
        destruct (q - n) as [|d] eqn:Ed; simpl in HT; [|discriminate].
        assert (q = n) by lia. subst q. injection HT as <-.
        rewrite Hb in Hq. injection Hq as <-.
        eapply scan_insns_unwritten; [|exact He].
        intros e' He'. cbn [enter_block live_table] in He'.
        eapply entry_unwritten; [exact Hlen | exact Hexits | exact Hb | exact He' | exact Hpath].
Qed.

(** Conservative invalidation for a shared state whose effect sets cover
    the program. *)
Lemma conservative_invalidation_covered (cfg : list Block) (k : nat) (b : Block)
    (pre post : list IRInstruction) (W : IRInstruction) :
  cfg !! k = Some b -> block_insns b = pre ++ W :: post ->
  (forall e l d,
     writes W l -> d ∈ entry_deps e -> locations_overlap l d = true ->
     entry_insn e <> insn_id W ->
     e ∉ live_table (state_at has_resolvable_body devirtualize st exact_receiver
                       cfg k (S (length pre)))) /\
  (forall e pi,
     e ∈ live_table (state_at has_resolvable_body devirtualize st exact_receiver
                       cfg k (S (length pre))) ->
     path_to_entry cfg k pi -> unwritten e (pi ++ pre ++ [W])).
Proof.
  intros Hk Hb. unfold state_at. rewrite Hk, Hb.
  replace (take (S (length pre)) (pre ++ W :: post)) with (pre ++ [W]).
  2:{ replace (pre ++ W :: post) with ((pre ++ [W]) ++ post)
        by (rewrite <- app_assoc; reflexivity).
      rewrite take_app_length'; [reflexivity|]. rewrite length_app. simpl. lia. }
  split.
  - intros e l d Hl Hd Ho Hne He. rewrite foldl_app in He. simpl in He.
    apply scan_insn_table in He. destruct He as [He|He]; [|contradiction].
    rewrite (barrier_check_sound _ _ _ _ _ He Hl Hd) in Ho. discriminate.
  - intros e pi He Hpath.
    eapply scan_insns_unwritten; [|exact He].
    intros e' He'. cbn [enter_block live_table] in He'.
    assert (Hlen : k <= length cfg).
    { apply Nat.lt_le_incl. apply lookup_lt_is_Some. eauto. }
    destruct (analyze_prefix_unwritten cfg k Hlen) as [Hl Hexits].
    eapply entry_unwritten; [exact Hl | exact Hexits | exact Hk | exact He' | exact Hpath].
Qed.

End ConservativeInvalidation.

(** *** Re-running the pass on patched code *)

Lemma forward_of_app l k x :
  forward_of (l ++ k) x =
  match forward_of l x with Some f => Some f | None => forward_of k x end.
Proof.
  unfold forward_of. induction l as [|f l IH]; simpl; [reflexivity|].
  destruct (bool_decide (insn f = x)); [reflexivity | exact IH].
Qed.

(** A step leaves the forwards alone or records one for its instruction. *)
Lemma scan_insn_forward s i :
  m_forward (scan s i) = m_forward s \/
  exists e, m_forward (scan s i) = m_forward s ++ [mkForward e (insn_id i)].
Proof.
  unfold scan_insn, forwarding_check.
  destruct (is_forwardable i); cbn [m_forward live_table]; [|auto].
  destruct (List.find _ _); cbn [m_forward]; eauto.
Qed.

Lemma scan_insn_forward_of s i x :
  x <> insn_id i ->
  forward_of (m_forward (scan s i)) x = forward_of (m_forward s) x.
Proof.
  intros Hx. destruct (scan_insn_forward s i) as [-> | [e ->]]; [reflexivity|].
  rewrite forward_of_app. destruct (forward_of (m_forward s) x); [reflexivity|].
  unfold forward_of. simpl. rewrite bool_decide_eq_false_2; [reflexivity|].
  simpl. congruence.
Qed.

Lemma scan_insns_forward_of insns : forall s x,
  x ∉ insn_id <$> insns ->
  forward_of (m_forward (foldl scan s insns)) x = forward_of (m_forward s) x.
Proof.
  induction insns as [|i insns IH]; intros s x Hx; simpl; [reflexivity|].
  rewrite fmap_cons in Hx. apply not_elem_of_cons in Hx. destruct Hx as [Hi Hx].
  rewrite IH by exact Hx. apply scan_insn_forward_of, Hi.
Qed.

Lemma analyze_block_forward_of s b x :
  x ∉ insn_id <$> block_insns b ->
  forward_of (m_forward (step_block s b)) x = forward_of (m_forward s) x.
Proof.
  intros Hx. unfold analyze_block, leave_block. cbn [m_forward].
  rewrite scan_insns_forward_of by exact Hx. reflexivity.
Qed.

Lemma all_insns_cons b blocks :
  all_insns (b :: blocks) = block_insns b ++ all_insns blocks.
Proof. reflexivity. Qed.

Lemma all_insns_app l k : all_insns (l ++ k) = all_insns l ++ all_insns k.
Proof. unfold all_insns. rewrite fmap_app, concat_app. reflexivity. Qed.

Lemma analyze_blocks_forward_of blocks : forall s x,
  x ∉ insn_id <$> all_insns blocks ->
  forward_of (m_forward (foldl step_block s blocks)) x = forward_of (m_forward s) x.
Proof.
  induction blocks as [|b blocks IH]; intros s x Hx; simpl; [reflexivity|].
  rewrite all_insns_cons, fmap_app in Hx. apply not_elem_of_app in Hx.
  destruct Hx as [Hb Hx].
  rewrite IH by exact Hx. apply analyze_block_forward_of, Hb.
Qed.

Lemma agrees_on_insns_cons F s i insns :
  agrees_on_insns F s (i :: insns) ->
  agrees_at F s i /\ agrees_on_insns F (scan s i) insns.
Proof.
  intros H. split.
  - apply (H [] i insns). reflexivity.
  - intros pre j post ->. apply (H (i :: pre) j post). reflexivity.
Qed.

Lemma agrees_on_blocks_cons F s b blocks :
  agrees_on_blocks F s (b :: blocks) ->
  agrees_on_insns F (enter_block s b) (block_insns b) /\
  agrees_on_blocks F (step_block s b) blocks.
Proof.
  intros H. split.
  - apply (H [] b blocks). reflexivity.
  - intros done c rest ->. apply (H (b :: done) c rest). reflexivity.
Qed.

Lemma barrier_check_rewrite F i T :
  check_barrier (rewrite_consumer F i) T = check_barrier i T.
Proof. reflexivity. Qed.

Lemma forwardable_rewrite F i :
  is_forwardable (rewrite_consumer F i) = is_forwardable i.
Proof. reflexivity. Qed.

Lemma app_singleton_neq {A} (l : list A) (x : A) : l ++ [x] <> l.
Proof.
  intros H. apply (f_equal length) in H. rewrite length_app in H. simpl in H. lia.
Qed.

Lemma barrier_check_forwardable i T :
  is_forwardable i = true -> check_barrier i T = T.
Proof.
  intros H. unfold barrier_check. rewrite (forwardable_not_barrier _ H). reflexivity.
Qed.

Lemma scan_insn_forwarded s i e :
  is_forwardable i = true ->
  List.find (signature_matches (insn_kind i) (value_of (m_forward s) <$> insn_srcs i)
               (dependencies (insn_kind i))) (live_table s) = Some e ->
  scan s i = mkCseState (exit_tables s) (live_table s)
               (m_forward s ++ [mkForward (entry_insn e) (insn_id i)]).
Proof.
  intros Hfw Hfind. unfold scan_insn, forwarding_check.
  cbn [exit_tables live_table m_forward].
  rewrite Hfw, (barrier_check_forwardable _ _ Hfw), Hfind. reflexivity.
Qed.

Lemma scan_insn_new_entry s i :
  is_forwardable i = true ->
  List.find (signature_matches (insn_kind i) (value_of (m_forward s) <$> insn_srcs i)
               (dependencies (insn_kind i))) (live_table s) = None ->
  scan s i = mkCseState (exit_tables s)
               (live_table s ++
                [mkValueEntry (insn_id i) (insn_kind i)
                   (value_of (m_forward s) <$> insn_srcs i)
                   (dependencies (insn_kind i))])
               (m_forward s).
Proof.
  intros Hfw Hfind. unfold scan_insn, forwarding_check.
  cbn [exit_tables live_table m_forward].
  rewrite Hfw, (barrier_check_forwardable _ _ Hfw), Hfind. reflexivity.
Qed.

Lemma scan_insn_pass s i :
  is_forwardable i = false ->
  scan s i = mkCseState (exit_tables s) (check_barrier i (live_table s)) (m_forward s).
Proof.
  intros Hfw. unfold scan_insn, forwarding_check. rewrite Hfw. reflexivity.
Qed.

(** *** Two reads of one field *)

(** C7: for a body of two reads of the same field of the same object with
    nothing in between, the analysis records exactly one Forward, pairing
    the second read with the first, and [patch] reports one eliminated
    instruction. *)
Theorem two_reads_forward_once (f : DexFieldPtr) (obj a b : InsnPtr) :
  let cfg := [mkBlock [] [mkInsn a (FieldRead f) [obj]; mkInsn b (FieldRead f) [obj]]] in
  let s := analyze cfg in
  m_forward s = [mkForward a b] /\
  instructions_eliminated (snd (patch new_insn s cfg false)) = 1%Z /\
  fst (fst (patch new_insn s cfg false)) = true.
Proof.
  intros cfg s.
  assert (Hs : m_forward s = [mkForward a b]).
  { subst s cfg. unfold CommonSubexpressionElimination, analyze_block, enter_block.
    cbn [foldl block_insns block_preds entry_table exit_tables m_forward].
    rewrite (scan_insn_new_entry _ (mkInsn a (FieldRead f) [obj]))
      by reflexivity.
    cbn [insn_id insn_kind insn_srcs exit_tables live_table m_forward app fmap list_fmap].
    rewrite value_of_nil.
    rewrite (scan_insn_forwarded _ (mkInsn b (FieldRead f) [obj])
               (mkValueEntry a (FieldRead f) [obj] (dependencies (FieldRead f)))).
    - reflexivity.
    - reflexivity.
    - cbn [insn_id insn_kind insn_srcs live_table m_forward fmap list_fmap List.find].
      rewrite value_of_nil.
      pose proof (signature_matches_refl
        (mkValueEntry a (FieldRead f) [obj] (dependencies (FieldRead f)))) as Hm.
      cbn [entry_kind entry_operands entry_deps] in Hm. rewrite Hm. reflexivity. }
  split; [exact Hs|]. unfold patch. rewrite Hs. split; reflexivity.
Qed.

(** One instruction: the second run, on the patched instruction, follows
    the first run and records nothing. *)
Lemma rerun_scan_insn F s1 s2 i :
  exit_tables s2 = exit_tables s1 -> live_table s2 = live_table s1 ->
  m_forward s2 = [] -> agrees_at F s1 i ->
  exit_tables (foldl scan s2 (patch_insn new_insn F false i)) = exit_tables (scan s1 i) /\
  live_table (foldl scan s2 (patch_insn new_insn F false i)) = live_table (scan s1 i) /\
  m_forward (foldl scan s2 (patch_insn new_insn F false i)) = [].
Proof.
  intros He Hl Hf [Hops Hfw]. unfold patch_insn.
  assert (Hsub : value_of (m_forward s2) <$> insn_srcs (rewrite_consumer F i) =
                 value_of (m_forward s1) <$> insn_srcs i).
  { cbn [rewrite_consumer insn_srcs].
    rewrite Hf, <- list_fmap_compose. apply list_fmap_ext.
    intros k x Hx. simpl. rewrite value_of_nil. apply Hops.
    eapply list_elem_of_lookup_2, Hx. }
  destruct (is_forwardable i) eqn:Efw.
  - destruct (List.find (signature_matches (insn_kind i)
                (value_of (m_forward s1) <$> insn_srcs i)
                (dependencies (insn_kind i))) (live_table s1)) as [e|] eqn:Efind.
    + rewrite (scan_insn_forwarded _ _ _ Efw Efind) in *.
      cbn [exit_tables live_table m_forward] in *.
      destruct (forward_of F (insn_id i)) as [f|] eqn:EF.
      * simpl. auto.
      * exfalso.
        apply (app_singleton_neq (m_forward s1) (mkForward (entry_insn e) (insn_id i))).
        apply Hfw. reflexivity.
    + rewrite (scan_insn_new_entry _ _ Efw Efind) in *.
      cbn [exit_tables live_table m_forward] in *.
      rewrite (proj2 Hfw eq_refl). cbn [foldl].
      rewrite (scan_insn_new_entry s2 (rewrite_consumer F i)).
      * cbn [exit_tables live_table m_forward]. rewrite Hsub, He, Hl, Hf. auto.
      * exact Efw.
      * rewrite Hsub, Hl. exact Efind.
  - rewrite (scan_insn_pass _ _ Efw) in *.
    cbn [exit_tables live_table m_forward] in *.
    rewrite (proj2 Hfw eq_refl). cbn [foldl].
    rewrite (scan_insn_pass s2 (rewrite_consumer F i)) by exact Efw.
    cbn [exit_tables live_table m_forward].
    rewrite barrier_check_rewrite, He, Hl, Hf. auto.
Qed.

Lemma rerun_scan_insns F insns : forall s1 s2,
  exit_tables s2 = exit_tables s1 -> live_table s2 = live_table s1 ->
  m_forward s2 = [] -> agrees_on_insns F s1 insns ->
  exit_tables (foldl scan s2 (concat (patch_insn new_insn F false <$> insns)))
    = exit_tables (foldl scan s1 insns) /\
  live_table (foldl scan s2 (concat (patch_insn new_insn F false <$> insns)))
    = live_table (foldl scan s1 insns) /\
  m_forward (foldl scan s2 (concat (patch_insn new_insn F false <$> insns))) = [].
Proof.
  induction insns as [|i insns IH]; intros s1 s2 He Hl Hf Hag.
  - simpl. auto.
  - apply agrees_on_insns_cons in Hag. destruct Hag as [Hi Hrest].
    rewrite fmap_cons. cbn [concat foldl]. rewrite foldl_app.
    destruct (rerun_scan_insn F s1 s2 i He Hl Hf Hi) as [He' [Hl' Hf']].
    apply IH; assumption.
Qed.

Lemma rerun_blocks F blocks : forall s1 s2,
  exit_tables s2 = exit_tables s1 -> m_forward s2 = [] ->
  agrees_on_blocks F s1 blocks ->
  exit_tables (foldl step_block s2 (patch_block new_insn F false <$> blocks))
    = exit_tables (foldl step_block s1 blocks) /\
  m_forward (foldl step_block s2 (patch_block new_insn F false <$> blocks)) = [].
Proof.
  induction blocks as [|b blocks IH]; intros s1 s2 He Hf Hag.
  - simpl. auto.
  - apply agrees_on_blocks_cons in Hag. destruct Hag as [Hb Hrest].
    rewrite fmap_cons. cbn [foldl].
    destruct (rerun_scan_insns F (block_insns b) (enter_block s1 b)
                (enter_block s2 (patch_block new_insn F false b)))
      as [He' [Hl' Hf']].
    + unfold enter_block. cbn [exit_tables]. exact He.
    + unfold enter_block, patch_block. cbn [live_table block_preds]. rewrite He. reflexivity.
    + unfold enter_block. cbn [m_forward]. exact Hf.
    + exact Hb.
    + apply IH.
      * unfold analyze_block, leave_block.
        change (block_insns (patch_block new_insn F false b))
          with (concat (patch_insn new_insn F false <$> block_insns b)).
        cbn [exit_tables]. rewrite He', Hl'. reflexivity.
      * unfold analyze_block, leave_block.
        change (block_insns (patch_block new_insn F false b))
          with (concat (patch_insn new_insn F false <$> block_insns b)).
        cbn [m_forward]. exact Hf'.
      * exact Hrest.
Qed.

Lemma forward_of_before_block s b pre y :
  y ∉ insn_id <$> pre ->
  forward_of (m_forward (foldl scan (enter_block s b) pre)) y =
  forward_of (m_forward s) y.
Proof. intros Hy. rewrite scan_insns_forward_of by exact Hy. reflexivity. Qed.

Lemma forward_of_after s post rest x :
  x ∉ insn_id <$> post -> x ∉ insn_id <$> all_insns rest ->
  forward_of (m_forward (foldl step_block (leave_block (foldl scan s post)) rest)) x =
  forward_of (m_forward s) x.
Proof.
  intros Hpost Hrest. rewrite analyze_blocks_forward_of by exact Hrest.
  unfold leave_block. cbn [m_forward]. apply scan_insns_forward_of, Hpost.
Qed.

Lemma uses_follow_defs_split pre i post x :
  uses_follow_defs (pre ++ i :: post) = true ->
  x ∈ insn_srcs i -> x ∉ insn_id <$> (i :: post).
Proof.
  induction pre as [|j pre IH]; intros H Hx.
  - cbn [app uses_follow_defs] in H. apply andb_true_iff in H. destruct H as [H _].
    rewrite forallb_forall in H. apply list_elem_of_In, H in Hx.
    apply negb_true_iff, bool_decide_eq_false_1 in Hx. exact Hx.
  - cbn [app uses_follow_defs] in H. apply andb_true_iff in H. destruct H as [_ H].
    apply IH; assumption.
Qed.

(** On well-formed input the forwards of the finished first run agree
    with the run at every instruction. *)
Lemma final_forwards_agree cfg :
  unique_insns cfg -> defs_before_uses cfg ->
  agrees_on_blocks (m_forward (analyze cfg)) (mkCseState [] [] []) cfg.
Proof.
  intros Hnd Hwf done b rest Hcfg pre i post Hins.
  set (sd := foldl step_block (mkCseState [] [] []) done).
  set (s := foldl scan (enter_block sd b) pre).
  assert (Hfinal : analyze cfg =
            foldl step_block (leave_block (foldl scan (scan s i) post)) rest).
  { unfold CommonSubexpressionElimination. rewrite Hcfg, foldl_app. cbn [foldl].
    fold sd. unfold analyze_block at 2. rewrite Hins, foldl_app. reflexivity. }
  assert (Hall : all_insns cfg =
            (all_insns done ++ pre) ++ i :: (post ++ all_insns rest)).
  { rewrite Hcfg, all_insns_app, all_insns_cons, Hins.
    rewrite <- !app_assoc. reflexivity. }
  unfold unique_insns in Hnd. rewrite Hall, fmap_app, fmap_cons in Hnd.
  apply NoDup_app in Hnd. destruct Hnd as [_ [Hsep Hnd]].
  apply NoDup_cons in Hnd. destruct Hnd as [Hlater _].
  assert (Hearlier : insn_id i ∉ insn_id <$> (all_insns done ++ pre)).
  { intros Hin. apply (Hsep _ Hin). left. }
  rewrite fmap_app in Hlater, Hearlier.
  apply not_elem_of_app in Hlater. destruct Hlater as [Hpost Hrest].
  apply not_elem_of_app in Hearlier. destruct Hearlier as [Hdone Hpre].
  assert (Hnone : forward_of (m_forward s) (insn_id i) = None).
  { unfold s. rewrite forward_of_before_block by exact Hpre.
    unfold sd. rewrite analyze_blocks_forward_of by exact Hdone. reflexivity. }
  split.
  - intros x Hx. unfold defs_before_uses in Hwf. rewrite Hall in Hwf.
    pose proof (uses_follow_defs_split _ _ _ x Hwf Hx) as Hnot.
    rewrite fmap_cons, fmap_app in Hnot.
    apply not_elem_of_cons in Hnot. destruct Hnot as [Hxi Hnot].
    apply not_elem_of_app in Hnot. destruct Hnot as [Hxpost Hxrest].
    unfold value_of. rewrite Hfinal, (forward_of_after _ _ _ _ Hxpost Hxrest).
    rewrite (scan_insn_forward_of _ _ _ Hxi). reflexivity.
  - rewrite Hfinal, (forward_of_after _ _ _ _ Hpost Hrest).
    destruct (scan_insn_forward s i) as [Heq | [e Heq]]; rewrite Heq.
    + rewrite Hnone. tauto.
    + rewrite forward_of_app, Hnone. unfold forward_of. simpl.
      rewrite bool_decide_eq_true_2 by reflexivity.
      split; [discriminate|]. intros H. exfalso. exact (app_singleton_neq _ _ H).
Qed.

(** Re-running on code patched in the default mode: with runtime
    assertions off and on well-formed input (every instruction its own
    object, no operand naming the instruction itself or a later one),
    running the pass again on the blocks [patch] produced records no
    Forward, and a second [patch] changes nothing. *)
Theorem patch_then_rerun_records_nothing (cfg : list Block)
    (Hunique : unique_insns cfg) (Hdefs : defs_before_uses cfg) :
  let patched := snd (fst (patch new_insn (analyze cfg) cfg false)) in
  m_forward (analyze patched) = [] /\
  fst (fst (patch new_insn (analyze patched) patched false)) = false /\
  instructions_eliminated (snd (patch new_insn (analyze patched) patched false)) = 0%Z.
Proof.
  intros patched.
  assert (H : m_forward (analyze patched) = []).
  { subst patched. unfold patch. cbn [fst snd].
    unfold CommonSubexpressionElimination at 1.
    apply (rerun_blocks (m_forward (analyze cfg)) cfg
             (mkCseState [] [] []) (mkCseState [] [] [])); try reflexivity.
    apply final_forwards_agree; assumption. }
  split; [exact H|]. unfold patch. cbn [fst snd]. rewrite H. split; reflexivity.
Qed.

End PerMethodCSEFacts.

(** C6: conservative invalidation. Take the shared state
    [init_method_barriers] builds from a scope, a metadata resolution
    that resolves only methods with a body in the scope, and any
    instruction [W] of any block. Right after [W] is processed, the
    live-value table holds no entry created by another instruction whose
    dependency set intersects a Location [W] may write, by the bodies of
    the scope and its override graph. And on every path of execution to
    that point, every live entry is unwritten-since: its producing
    instruction is on the path and nothing after it on the path may write
    a Location its dependency set intersects; so each step of the scan
    preserves that no live entry depends on a Location written since it
    was created. *)
Theorem conservative_invalidation
    (has_resolvable_body : DexMethodPtr -> bool)
    (devirtualize : DexTypePtr -> DexMethodPtr -> DexMethodPtr)
    (exact_receiver : InsnPtr -> option DexTypePtr)
    (st0 : SharedState) (scope : gmap DexMethodPtr DexMethod)
    (cfg : list Block) (k : nat) (b : Block)
    (pre post : list IRInstruction) (W : IRInstruction)
    (Hres : resolves_within scope has_resolvable_body)
    (Hk : cfg !! k = Some b) (Hb : block_insns b = pre ++ W :: post) :
  exists st stats,
    init_method_barriers st0 scope = Some (st, stats) /\
    (forall e l d,
       insn_may_write scope (m_pure_methods st0) (m_safe_methods st0) devirtualize
         W (exact_receiver (insn_id W)) l ->
       d ∈ entry_deps e -> locations_overlap l d = true ->
       entry_insn e <> insn_id W ->
       e ∉ live_table (state_at has_resolvable_body devirtualize st exact_receiver
                         cfg k (S (length pre)))) /\
    (forall e pi,
       e ∈ live_table (state_at has_resolvable_body devirtualize st exact_receiver
                         cfg k (S (length pre))) ->
       path_to_entry cfg k pi ->
       unwritten_since scope (m_pure_methods st0) (m_safe_methods st0) devirtualize
         exact_receiver e (pi ++ pre ++ [W])).
Proof.
  destruct (init_method_barriers_Some st0 scope) as [Wl [stats [Hrun _]]].
  destruct (init_method_barriers_covers _ _ _ _ Hrun) as [Hp [Hs Hcover]].
  eexists _, _. split; [exact Hrun|].
  rewrite <- Hp, <- Hs.
  apply (conservative_invalidation_covered has_resolvable_body devirtualize _
           exact_receiver scope Hcover Hres cfg k b pre post W Hk Hb).
Qed.

(** ** The scenarios, run *)

(** The safe method [1] that the abstract method [2] may replace: after
    [init_method_barriers] a call of [1] on a receiver of unknown type is
    answered with the general barrier. *)
Lemma get_relevant_written_location_conservative_witness :
  resolves_within abstract_scope (has_body abstract_scope) /\
  exists st stats,
    init_method_barriers safe_state abstract_scope = Some (st, stats) /\
    get_relevant_written_location (has_body abstract_scope) same_target st
      call_between None {[ CseLocation_of_field 4096%Z ]}
      = Some general_memory_barrier.
Proof.
  split; [apply has_body_resolves_within|].
  destruct (get_relevant_written_location_conservative (has_body abstract_scope)
              same_target safe_state abstract_scope
              (has_body_resolves_within abstract_scope))
    as [st [stats [Hinit [_ [_ [_ [H _]]]]]]].
  exists st, stats. split; [exact Hinit|].
  apply (H call_between 1%Z 2%Z {[ CseLocation_of_field 4096%Z ]}
           (CseLocation_of_field 4096%Z)).
  - reflexivity.
  - apply not_elem_of_empty.
  - apply rtc_once. unfold override_edge. vm_compute. reflexivity.
  - reflexivity.
  - apply elem_of_singleton. reflexivity.
Defined.

(** The call of the safe method [1] between the two reads, in the one
    block of [read_invoke_read]: the store is in the body of [2], which
    may execute in place of [1]. *)
Lemma conservative_invalidation_witness :
  resolves_within store_scope (has_body store_scope) /\
  read_invoke_read !! 0 = Some (mkBlock [] [first_read; call_between; second_read]) /\
  block_insns (mkBlock [] [first_read; call_between; second_read])
    = [first_read] ++ call_between :: [second_read] /\
  exists st stats,
    init_method_barriers safe_state store_scope = Some (st, stats) /\
    (forall e l d,
       insn_may_write store_scope (m_pure_methods safe_state)
         (m_safe_methods safe_state) same_target
         call_between (no_exact_receiver (insn_id call_between)) l ->
       d ∈ entry_deps e -> locations_overlap l d = true ->
       entry_insn e <> insn_id call_between ->
       e ∉ live_table (state_at (has_body store_scope) same_target st
                         no_exact_receiver read_invoke_read 0
                         (S (length [first_read])))) /\
    (forall e pi,
       e ∈ live_table (state_at (has_body store_scope) same_target st
                         no_exact_receiver read_invoke_read 0
                         (S (length [first_read]))) ->
       path_to_entry read_invoke_read 0 pi ->
       unwritten_since store_scope (m_pure_methods safe_state)
         (m_safe_methods safe_state) same_target no_exact_receiver e
         (pi ++ [first_read] ++ [call_between])).
Proof.
  split; [apply has_body_resolves_within|].
  split; [reflexivity|]. split; [reflexivity|].
  apply (conservative_invalidation (has_body store_scope) same_target
           no_exact_receiver safe_state store_scope read_invoke_read 0
           (mkBlock [] [first_read; call_between; second_read])
           [first_read] [second_read] call_between).
  - apply has_body_resolves_within.
  - reflexivity.
  - reflexivity.
Defined.

(** The call of [1] does write the field the first read depends on, and
    the scan drops the first read's entry at the call: nothing is
    forwarded. *)
Example read_invoke_read_no_forward :
  insn_may_write store_scope (m_pure_methods safe_state) (m_safe_methods safe_state)
    same_target call_between None (CseLocation_of_field 4096%Z) /\
  (fun r =>
     (effect_set (fst r) 1%Z,
      live_table (state_at (has_body store_scope) same_target (fst r)
                    no_exact_receiver read_invoke_read 0 2),
      m_forward (CommonSubexpressionElimination (has_body store_scope) same_target
                   (fst r) no_exact_receiver read_invoke_read)))
    <$> init_method_barriers safe_state store_scope
  = Some ({[ CseLocation_of_field 4096%Z ]}, [], []).
Proof.
  split.
  - eapply invoke_virtual; [reflexivity | set_solver | reflexivity |].
    exists 2%Z. split.
    + apply rtc_once. unfold override_edge. vm_compute. set_solver.
    + eapply (body_writes _ _ _ _ _ (mkInsn 10%Z (FieldStore 4096%Z) [100%Z; 101%Z]));
        [reflexivity | reflexivity | set_solver |].
      apply field_store_writes. reflexivity.
  - vm_compute. reflexivity.
Qed.

(** A safe method that an abstract method may replace, and a call on an
    exact receiver of a method the scope lacks: both are answered with
    the general barrier, and the read is not forwarded across the call. *)
Example body_less_targets_are_barriers :
  (fun r =>
     (effect_set (fst r) 1%Z,
      get_relevant_written_location (has_body abstract_scope) same_target (fst r)
        call_between None {[ CseLocation_of_field 4096%Z ]},
      get_relevant_written_location all_resolvable same_target (fst r)
        (mkInsn 3%Z (Invoke 9%Z) [100%Z]) (Some 50%Z) {[ CseLocation_of_field 4096%Z ]},
      m_forward (CommonSubexpressionElimination (has_body abstract_scope) same_target
                   (fst r) no_exact_receiver read_invoke_read)))
    <$> init_method_barriers safe_state abstract_scope
  = Some ({[ general_memory_barrier ]}, Some general_memory_barrier,
          Some general_memory_barrier, []).
Proof. vm_compute. reflexivity. Qed.

(** Scenario 2: a store to the field between the two reads: the first
    read's entry is gone after the store, and nothing is forwarded. *)
Example read_write_read_no_forward :
  live_table (state_at all_resolvable same_target example_state
                no_exact_receiver read_write_read 0 1)
    = [mkValueEntry 1%Z (FieldRead 4096%Z) [100%Z] {[ CseLocation_of_field 4096%Z ]}] /\
  live_table (state_at all_resolvable same_target example_state
                no_exact_receiver read_write_read 0 2) = [] /\
  m_forward (CommonSubexpressionElimination all_resolvable same_target
               example_state no_exact_receiver read_write_read) = [].
Proof. vm_compute. repeat split. Qed.

(** Scenario 3: two calls of a known-pure method on the same argument:
    the second forwards to the first. Scenario 4: a call of an unknown
    method on a receiver of unknown type is a general barrier: the read
    after it is not forwarded. *)
Example pure_calls_forward_and_unknown_call_is_barrier :
  m_forward (CommonSubexpressionElimination all_resolvable same_target
               pure_state no_exact_receiver pure_call_twice)
    = [mkForward 1%Z 2%Z] /\
  get_relevant_written_location all_resolvable same_target pure_state
    (mkInsn 3%Z (Invoke 9%Z) [100%Z]) None {[ CseLocation_of_field 4096%Z ]}
    = Some general_memory_barrier /\
  m_forward (CommonSubexpressionElimination all_resolvable same_target
               pure_state no_exact_receiver read_call_read) = [].
Proof. vm_compute. repeat split. Qed.

Lemma read_read_well_formed :
  unique_insns read_read /\ defs_before_uses read_read.
Proof.
  split.
  - unfold unique_insns. apply (bool_decide_unpack _). vm_compute. exact I.
  - unfold defs_before_uses. vm_compute. reflexivity.
Defined.

(** The two reads: after [patch] the second is gone and a re-run records
    nothing. *)
Lemma patch_then_rerun_records_nothing_witness :
  unique_insns read_read /\ defs_before_uses read_read /\
  m_forward
    (CommonSubexpressionElimination all_resolvable same_target example_state
       no_exact_receiver
       (snd (fst (patch example_new_insn
                    (CommonSubexpressionElimination all_resolvable same_target
                       example_state no_exact_receiver read_read)
                    read_read false)))) = [].
Proof.
  split; [exact (proj1 read_read_well_formed)|].
  split; [exact (proj2 read_read_well_formed)|].
  apply (patch_then_rerun_records_nothing all_resolvable same_target example_state
           no_exact_receiver example_new_insn read_read
           (proj1 read_read_well_formed) (proj2 read_read_well_formed)).
Defined.

(** Scenario 5, run twice: with runtime assertions on, [patch] keeps the
    second read and adds a check after it, so a second run on the patched
    blocks forwards the second read again. *)
Lemma rerun_after_runtime_assertions_forwards_again :
  unique_insns read_read /\ defs_before_uses read_read /\
  snd (fst (patch example_new_insn
              (CommonSubexpressionElimination all_resolvable same_target
                 example_state no_exact_receiver read_read)
              read_read true))
    = [mkBlock []
         [first_read; second_read; mkInsn 1002%Z RuntimeAssertion [1%Z; 2%Z]]] /\
  m_forward
    (CommonSubexpressionElimination all_resolvable same_target example_state
       no_exact_receiver
       (snd (fst (patch example_new_insn
                    (CommonSubexpressionElimination all_resolvable same_target
                       example_state no_exact_receiver read_read)
                    read_read true)))) = [mkForward 1%Z 2%Z] /\
  m_forward
    (CommonSubexpressionElimination all_resolvable same_target example_state
       no_exact_receiver
       (snd (fst (patch example_new_insn
                    (CommonSubexpressionElimination all_resolvable same_target
                       example_state no_exact_receiver read_read)
                    read_read true)))) <> [].
Proof.
  split; [exact (proj1 read_read_well_formed)|].
  split; [exact (proj2 read_read_well_formed)|].
  vm_compute. repeat split. discriminate.
Qed.

(** * Further properties of the code *)

Local Open Scope Z_scope.

(** ** [getident] and [get_next_ident] *)

Lemma char_of_int_code z :
  0 <= z < 256 -> Z.of_N (N_of_ascii (char_of_int z)) = z.
Proof.
  intros H. unfold char_of_int. rewrite Z.mod_small by exact H.
  rewrite N_ascii_embedding by lia. lia.
Qed.

Lemma getident_code n :
  0 <= n < 52 ->
  Z.of_N (N_of_ascii (getident n)) = if n <? 26 then 97 + n else 39 + n.
Proof.
  intros H. unfold getident, char_to_int.
  change (Z.of_N (N_of_ascii "a")) with 97. change (Z.of_N (N_of_ascii "A")) with 65.
  change (97 <? 128) with true. change (65 <? 128) with true. cbv iota.
  destruct (Z.ltb_spec n 26); rewrite char_of_int_code; lia.
Qed.

Lemma nat_of_ascii_code c : Z.of_nat (nat_of_ascii c) = Z.of_N (N_of_ascii c).
Proof. unfold nat_of_ascii. lia. Qed.

Lemma getident_inj m n :
  0 <= m < 52 -> 0 <= n < 52 -> getident m = getident n -> m = n.
Proof.
  intros Hm Hn H. apply (f_equal (fun c => Z.of_N (N_of_ascii c))) in H.
  rewrite !getident_code in H by assumption.
  destruct (Z.ltb_spec m 26), (Z.ltb_spec n 26); lia.
Qed.

Lemma getident_is_letter n : 0 <= n < 52 -> is_letter (getident n).
Proof.
  intros H. unfold is_letter.
  pose proof (getident_code n H) as Hc. rewrite <- nat_of_ascii_code in Hc.
  destruct (Z.ltb_spec n 26); [right | left]; lia.
Qed.

(** [getident] maps 0..25 to ['a'..'z'] and 26..51 to ['A'..'Z'], so on
    0..51 it yields letters only and never the same letter twice. *)
Theorem getident_letters :
  (forall n, 0 <= n < 26 -> Z.of_nat (nat_of_ascii (getident n)) = 97 + n) /\
  (forall n, 26 <= n < 52 -> Z.of_nat (nat_of_ascii (getident n)) = 65 + (n - 26)) /\
  (forall n, 0 <= n < 52 -> is_letter (getident n)) /\
  (forall m n, 0 <= m < 52 -> 0 <= n < 52 -> getident m = getident n -> m = n).
Proof.
  split; [|split; [|split]].
  - intros n H. rewrite nat_of_ascii_code, getident_code by lia.
    rewrite (proj2 (Z.ltb_lt _ _)) by lia. reflexivity.
  - intros n H. rewrite nat_of_ascii_code, getident_code by lia.
    rewrite (proj2 (Z.ltb_ge _ _)) by lia. lia.
  - apply getident_is_letter.
  - apply getident_inj.
Qed.

Lemma MAX_IDENT_value : MAX_IDENT = 140608.
Proof. reflexivity. Qed.

(** In range, the function writes the base-52 digits and steps the
    counter. *)
Lemma get_next_ident_digits num :
  0 <= num <= MAX_IDENT ->
  get_next_ident num = Some (ident_digits num, num + 1).
Proof.
  intros H. rewrite MAX_IDENT_value in H.
  unfold get_next_ident, ident_digits. rewrite MAX_IDENT_value.
  rewrite (proj2 (Z.leb_le _ _)) by lia. cbv [negb].
  rewrite (Z.quot_div_nonneg num 52) by lia.
  assert (Hq0 : 0 <= num / 52) by (apply Z.div_pos; lia).
  rewrite (Z.quot_div_nonneg (num / 52) 52) by lia.
  rewrite Z.div_div by lia. change (52 * 52) with 2704.
  pose proof (Z.div_mod num 52 ltac:(lia)) as E1.
  pose proof (Z.mod_pos_bound num 52 ltac:(lia)) as B1.
  pose proof (Z.div_mod (num / 52) 52 ltac:(lia)) as E2.
  pose proof (Z.mod_pos_bound (num / 52) 52 ltac:(lia)) as B2.
  assert (E3 : num / 52 / 52 = num / 2704) by (rewrite Z.div_div by lia; reflexivity).
  destruct (Z.ltb_spec num 52) as [Hs|Hs].
  - assert (Hq : num / 52 = 0) by (apply Z.div_small; lia).
    assert (Ht : num / 2704 = 0) by (apply Z.div_small; lia).
    rewrite Hq, Ht. reflexivity.
  - destruct (Z.ltb_spec num 2704) as [Hm|Hm].
    + assert (Ht : num / 2704 = 0) by (apply Z.div_small; lia).
      assert (Hq : num / 52 <> 0) by lia.
      rewrite Ht. change (0 =? 0) with true. cbv iota.
      rewrite (proj2 (Z.eqb_neq _ _) Hq). cbv iota beta zeta.
      replace (num / 52 - 0 * 52) with (num / 52) by lia.
      replace (num - num / 52 * 52) with (num mod 52) by lia.
      reflexivity.
    + assert (Ht : num / 2704 <> 0).
      { pose proof (Z.div_le_mono 2704 num 2704 ltac:(lia) Hm) as Hle.
        change (2704 / 2704) with 1 in Hle. lia. }
      assert (Hq : num / 52 <> 0).
      { pose proof (Z.div_le_mono 52 num 52 ltac:(lia) ltac:(lia)) as Hle.
        change (52 / 52) with 1 in Hle. lia. }
      rewrite (proj2 (Z.eqb_neq _ _) Ht), (proj2 (Z.eqb_neq _ _) Hq).
      cbv iota beta zeta.
      replace (num / 52 - num / 2704 * 52) with ((num / 52) mod 52) by lia.
      replace (num - num / 2704 * 52 * 52 - (num / 52) mod 52 * 52)
        with (num mod 52) by lia.
      reflexivity.
Qed.

Lemma get_next_ident_None_iff num :
  get_next_ident num = None <-> MAX_IDENT < num.
Proof.
  unfold get_next_ident.
  destruct (Z.leb_spec num MAX_IDENT) as [Hle|Hgt]; cbv [negb].
  - split; [|lia].
    destruct (Z.quot (Z.quot num 52) 52 =? 0); destruct (Z.quot num 52 =? 0);
      discriminate.
  - split; [intros _; exact Hgt | reflexivity].
Qed.

Lemma get_next_ident_Some_range num r :
  get_next_ident num = Some r -> num <= MAX_IDENT.
Proof.
  intros H. destruct (Z.leb_spec num MAX_IDENT) as [Hle|Hgt]; [exact Hle|].
  apply get_next_ident_None_iff in Hgt. congruence.
Qed.

Lemma third_digit_range num :
  52 * 52 <= num <= MAX_IDENT -> 0 <= num / (52 * 52) - 1 < 52.
Proof.
  rewrite MAX_IDENT_value. change (52 * 52) with 2704. intros [Hlo Hhi].
  pose proof (Z.div_le_mono 2704 num 2704 ltac:(lia) Hlo) as H1.
  pose proof (Z.div_le_mono num 140608 2704 ltac:(lia) Hhi) as H2.
  change (2704 / 2704) with 1 in H1. change (140608 / 2704) with 52 in H2. lia.
Qed.

Lemma second_digit_range num :
  52 <= num < 52 * 52 -> 0 <= num / 52 < 52.
Proof.
  change (52 * 52) with 2704. intros [Hlo Hhi].
  pose proof (Z.div_le_mono 52 num 52 ltac:(lia) Hlo) as H1.
  change (52 / 52) with 1 in H1.
  assert (num / 52 < 52) by (apply Z.div_lt_upper_bound; lia). lia.
Qed.

Lemma ident_digits_shape num :
  0 <= num <= MAX_IDENT ->
  (1 <= String.length (ident_digits num) <= 3)%nat /\
  all_chars is_letter (ident_digits num) /\
  (String.length (ident_digits num) = 1%nat <-> num < 52) /\
  (String.length (ident_digits num) = 3%nat <-> 52 * 52 <= num).
Proof.
  intros H. unfold ident_digits.
  pose proof (Z.mod_pos_bound num 52 ltac:(lia)) as B1.
  pose proof (Z.mod_pos_bound (num / 52) 52 ltac:(lia)) as B2.
  destruct (Z.ltb_spec num 52) as [Hs|Hs]; [|destruct (Z.ltb_spec num (52 * 52)) as [Hm|Hm]];
    cbn [String.length all_chars].
  - repeat split; try lia. apply getident_is_letter; lia.
  - pose proof (second_digit_range num ltac:(lia)).
    repeat split; try lia; try discriminate; apply getident_is_letter; lia.
  - pose proof (third_digit_range num ltac:(lia)).
    repeat split; try lia; try discriminate; apply getident_is_letter; lia.
Qed.

(** [get_next_ident] fails its assertion exactly above [MAX_IDENT]. For a
    counter from 0 to [MAX_IDENT] it steps the counter by one and writes
    one to three letters, so with the terminator at most the four bytes
    of [clzname]: one letter below 52, three from 52 * 52 on. *)
Theorem get_next_ident_bounds :
  (forall num, get_next_ident num = None <-> MAX_IDENT < num) /\
  (forall num, 0 <= num <= MAX_IDENT ->
     exists out,
       get_next_ident num = Some (out, num + 1) /\
       (1 <= String.length out <= 3)%nat /\
       strlen out + 1 <= 4 /\
       all_chars is_letter out /\
       (String.length out = 1%nat <-> num < 52) /\
       (String.length out = 3%nat <-> 52 * 52 <= num)).
Proof.
  split; [apply get_next_ident_None_iff|].
  intros num H. exists (ident_digits num).
  split; [apply get_next_ident_digits, H|].
  destruct (ident_digits_shape num H) as [Hlen [Hletters [H1 H3]]].
  unfold strlen. repeat split; try tauto; lia.
Qed.

Lemma ident_digits_inj m n :
  0 <= m <= MAX_IDENT -> 0 <= n <= MAX_IDENT ->
  ident_digits m = ident_digits n -> m = n.
Proof.
  intros Hm Hn. unfold ident_digits.
  pose proof (Z.div_mod m 52 ltac:(lia)) as Em1.
  pose proof (Z.mod_pos_bound m 52 ltac:(lia)) as Bm1.
  pose proof (Z.div_mod (m / 52) 52 ltac:(lia)) as Em2.
  pose proof (Z.mod_pos_bound (m / 52) 52 ltac:(lia)) as Bm2.
  pose proof (Z.div_div m 52 52 ltac:(lia) ltac:(lia)) as Em3.
  pose proof (Z.div_mod n 52 ltac:(lia)) as En1.
  pose proof (Z.mod_pos_bound n 52 ltac:(lia)) as Bn1.
  pose proof (Z.div_mod (n / 52) 52 ltac:(lia)) as En2.
  pose proof (Z.mod_pos_bound (n / 52) 52 ltac:(lia)) as Bn2.
  pose proof (Z.div_div n 52 52 ltac:(lia) ltac:(lia)) as En3.
  destruct (Z.ltb_spec m 52) as [Hms|Hms];
    [|destruct (Z.ltb_spec m (52 * 52)) as [Hmm|Hmm]];
    (destruct (Z.ltb_spec n 52) as [Hns|Hns];
     [|destruct (Z.ltb_spec n (52 * 52)) as [Hnm|Hnm]]);
    intros E; try discriminate.
  - injection E as E. apply getident_inj; [lia | lia | exact E].
  - pose proof (second_digit_range m ltac:(lia)).
    pose proof (second_digit_range n ltac:(lia)).
    injection E as E2 E1.
    apply getident_inj in E1; [|lia|lia]. apply getident_inj in E2; [|lia|lia]. lia.
  - pose proof (third_digit_range m ltac:(lia)).
    pose proof (third_digit_range n ltac:(lia)).
    injection E as E3 E2 E1.
    apply getident_inj in E1; [|lia|lia]. apply getident_inj in E2; [|lia|lia].
    apply getident_inj in E3; [|lia|lia]. lia.
Qed.

(** Two counters that are not negative and get the same identifier are
    the same counter: [get_next_ident] never issues a name twice. *)
Theorem get_next_ident_injective (m n : Z) (out : string) (m' n' : Z)
    (Hm : 0 <= m) (Hn : 0 <= n)
    (Em : get_next_ident m = Some (out, m'))
    (En : get_next_ident n = Some (out, n')) :
  m = n.
Proof.
  pose proof (get_next_ident_Some_range _ _ Em) as Hm'.
  pose proof (get_next_ident_Some_range _ _ En) as Hn'.
  rewrite get_next_ident_digits in Em, En by lia.
  injection Em as Em _. injection En as En _.
  apply ident_digits_inj; [lia | lia | congruence].
Qed.

Lemma get_next_ident_injective_witness :
  0 <= 2704 /\ get_next_ident 2704 = Some ("aaa"%string, 2705) /\ 2704 = 2704.
Proof.
  split; [lia|]. split; [reflexivity|].
  apply (get_next_ident_injective 2704 2704 "aaa"%string 2705 2705);
    first [lia | reflexivity].
Defined.

(** ** The descriptor of a renamed class *)

Lemma all_chars_impl (P Q : ascii -> Prop) s :
  (forall c, P c -> Q c) -> all_chars P s -> all_chars Q s.
Proof.
  intros H. induction s as [|a s IH]; simpl; [auto|].
  intros [Ha Hs]. auto.
Qed.

Lemma all_chars_append P s t :
  all_chars P (String.append s t) <-> all_chars P s /\ all_chars P t.
Proof. induction s as [|a s IH]; simpl; [tauto | rewrite IH; tauto]. Qed.

Lemma c_str_without_NUL s : all_chars (fun c => c <> NUL) s -> c_str s = s.
Proof.
  induction s as [|a s IH]; simpl; [reflexivity|]. intros [Ha Hs].
  apply Ascii.eqb_neq in Ha. rewrite Ha, IH by exact Hs. reflexivity.
Qed.

Lemma not_occurs_all_chars c s : all_chars (fun a => a <> c) s -> ~ occurs c s.
Proof. induction s as [|a s IH]; simpl; [tauto|]. intros [Ha Hs] [E|Ho]; tauto. Qed.

Lemma is_letter_not_NUL c : is_letter c -> c <> NUL.
Proof.
  intros H ->. unfold is_letter in H. change (nat_of_ascii NUL) with 0%nat in H. lia.
Qed.

Lemma is_letter_not_dollar c : is_letter c -> c <> "$"%char.
Proof.
  intros H ->. unfold is_letter in H. change (nat_of_ascii "$") with 36%nat in H. lia.
Qed.

Lemma length_append s t :
  String.length (String.append s t) = (String.length s + String.length t)%nat.
Proof. induction s as [|a s IH]; simpl; [reflexivity | rewrite IH; reflexivity]. Qed.

Lemma sprintf_LX_letters clzname :
  all_chars is_letter clzname ->
  sprintf_LX clzname = String.append "LX" (String.append clzname ";") /\
  strlen (sprintf_LX clzname) = strlen clzname + 3 /\
  c_str (sprintf_LX clzname) = sprintf_LX clzname /\
  anonymous_class_test (sprintf_LX clzname) = false.
Proof.
  intros H.
  assert (Hc : c_str clzname = clzname).
  { apply c_str_without_NUL. eapply all_chars_impl; [|exact H].
    apply is_letter_not_NUL. }
  unfold sprintf_LX. rewrite Hc. split; [reflexivity|]. split; [|split].
  - unfold strlen. rewrite !length_append. simpl. lia.
  - apply c_str_without_NUL. rewrite !all_chars_append. simpl.
    repeat split; try discriminate.
    eapply all_chars_impl; [|exact H]. apply is_letter_not_NUL.
  - unfold anonymous_class_test. rewrite strrchr_absent; [reflexivity | discriminate |].
    apply not_occurs_all_chars. rewrite !all_chars_append. simpl.
    repeat split; try discriminate.
    eapply all_chars_impl; [|exact H]. apply is_letter_not_dollar.
Qed.

(** For a counter in range the descriptor [sprintf] builds is ["LX"], the
    identifier and [";"]: at most seven bytes with the terminator, within
    the ten of [descriptor]. It holds no NUL, and [should_rename]'s test
    for anonymous classes rejects it: a name the renamer made has no
    ['$']. *)
Theorem descriptor_fits_and_is_not_anonymous (num : Z) (H : 0 <= num <= MAX_IDENT) :
  exists clzname,
    get_next_ident num = Some (clzname, num + 1) /\
    sprintf_LX clzname = String.append "LX" (String.append clzname ";") /\
    strlen (sprintf_LX clzname) + 1 <= 7 /\
    c_str (sprintf_LX clzname) = sprintf_LX clzname /\
    anonymous_class_test (sprintf_LX clzname) = false.
Proof.
  exists (ident_digits num). split; [apply get_next_ident_digits, H|].
  destruct (ident_digits_shape num H) as [Hlen [Hletters _]].
  destruct (sprintf_LX_letters _ Hletters) as [E [Hl [Hc Ha]]].
  repeat split; try assumption. rewrite Hl. unfold strlen. lia.
Qed.

Lemma descriptor_fits_and_is_not_anonymous_witness :
  0 <= 140608 <= MAX_IDENT /\
  exists clzname,
    get_next_ident 140608 = Some (clzname, 140608 + 1) /\
    sprintf_LX clzname = String.append "LX" (String.append clzname ";") /\
    strlen (sprintf_LX clzname) + 1 <= 7 /\
    c_str (sprintf_LX clzname) = sprintf_LX clzname /\
    anonymous_class_test (sprintf_LX clzname) = false.
Proof.
  assert (Hr : 0 <= 140608 <= MAX_IDENT) by (rewrite MAX_IDENT_value; lia).
  split; [exact Hr|].
  exact (descriptor_fits_and_is_not_anonymous 140608 Hr).
Defined.

(** Distinct counters get distinct descriptors. *)
Lemma descriptor_inj m n :
  0 <= m <= MAX_IDENT -> 0 <= n <= MAX_IDENT ->
  sprintf_LX (ident_digits m) = sprintf_LX (ident_digits n) -> m = n.
Proof.
  intros Hm Hn E.
  destruct (ident_digits_shape m Hm) as [_ [Hlm _]].
  destruct (ident_digits_shape n Hn) as [_ [Hln _]].
  destruct (sprintf_LX_letters _ Hlm) as [Em _].
  destruct (sprintf_LX_letters _ Hln) as [En _].
  rewrite Em, En in E. simpl in E. injection E as E.
  apply ident_digits_inj; [assumption | assumption |].
  assert (Hcancel : forall a b : string,
            String.append a ";" = String.append b ";" -> a = b).
  { induction a as [|x a IH]; intros [|y b] Hab; simpl in Hab.
    - reflexivity.
    - injection Hab as _ Hab. destruct b; discriminate.
    - injection Hab as _ Hab. destruct a; discriminate.
    - injection Hab as -> Hab. f_equal. apply IH, Hab. }
  apply Hcancel, E.
Qed.

(** ** [should_rename] and the counters *)

Lemma to_int_range z : int_range (to_int z).
Proof.
  unfold int_range, to_int.
  pose proof (Z.mod_pos_bound (z + 2 ^ 31) (2 ^ 32) ltac:(lia)). lia.
Qed.

Lemma to_int_id z : int_range z -> to_int z = z.
Proof. unfold int_range, to_int. intros H. rewrite Z.mod_small by lia. lia. Qed.

Lemma to_int_add_l a c : to_int (to_int a + c) = to_int (a + c).
Proof.
  unfold to_int.
  replace ((a + 2 ^ 31) mod 2 ^ 32 - 2 ^ 31 + c + 2 ^ 31)
    with ((a + 2 ^ 31) mod 2 ^ 32 + c) by lia.
  rewrite Zplus_mod_idemp_l. f_equal. f_equal. lia.
Qed.

Lemma match_patterns_counts chstring patterns g g' :
  match_patterns chstring patterns g = Some g' ->
  g' = incr_match_long g \/ g' = incr_match_short g.
Proof.
  induction patterns as [|p ps IH]; simpl; [discriminate|].
  destruct (strstr chstring (c_str p)); [|exact IH].
  destruct (1 <? Z.of_nat (String.length p)); intros [= <-]; auto.
Qed.

Lemma match_patterns_is_Some_counters chstring patterns g h :
  is_Some (match_patterns chstring patterns g) ->
  is_Some (match_patterns chstring patterns h).
Proof.
  intros H. apply match_patterns_is_Some_iff.
  eapply match_patterns_is_Some_iff, H.
Qed.

Lemma match_patterns_None_counters chstring patterns g h :
  match_patterns chstring patterns g = None ->
  match_patterns chstring patterns h = None.
Proof.
  intros H. destruct (match_patterns chstring patterns h) eqn:E; [|reflexivity].
  destruct (match_patterns_is_Some_counters chstring patterns h g) as [x Hx]; [eauto|].
  congruence.
Qed.

(** The answer of [should_rename] does not depend on the counters. *)
Lemma should_rename_answer clazz pre post g h :
  fst (should_rename clazz pre post g) = fst (should_rename clazz pre post h).
Proof.
  unfold should_rename. destruct (anonymous_class_test _); [reflexivity|].
  destruct (match_patterns _ pre g) as [g1|] eqn:E1.
  - destruct (match_patterns_is_Some_counters (c_str (class_name clazz)) pre g h)
      as [h1 ->]; [eauto|]. reflexivity.
  - rewrite (match_patterns_None_counters _ _ _ h E1).
    destruct (negb (can_rename clazz)); [reflexivity|].
    destruct (match_patterns _ post g) as [g2|] eqn:E2.
    + destruct (match_patterns_is_Some_counters (c_str (class_name clazz)) post g h)
        as [h2 ->]; [eauto|]. reflexivity.
    + rewrite (match_patterns_None_counters _ _ _ h E2). reflexivity.
Qed.

Lemma counters_below_mono g bound bound' :
  bound <= bound' -> counters_below g bound -> counters_below g bound'.
Proof. unfold counters_below. lia. Qed.

(** Below [INT_MAX] an increment adds one. *)
Lemma incr_below_INT_MAX c bound :
  bound <= 2 ^ 31 - 1 -> - 2 ^ 31 <= c < bound ->
  to_int (c + 1) = c + 1 /\ - 2 ^ 31 <= c + 1 < bound + 1.
Proof.
  intros Hb Hc. split; [|lia]. apply to_int_id. unfold int_range. lia.
Qed.

Lemma incr_counts g bound :
  bound <= 2 ^ 31 - 1 -> counters_below g bound ->
  (counters_below (incr_match_inner g) (bound + 1) /\
   matches_counted (incr_match_inner g) = matches_counted g + 1) /\
  (counters_below (incr_match_short g) (bound + 1) /\
   matches_counted (incr_match_short g) = matches_counted g + 1) /\
  (counters_below (incr_match_long g) (bound + 1) /\
   matches_counted (incr_match_long g) = matches_counted g + 1).
Proof.
  intros Hb (Hs & Hl & Hi).
  destruct (incr_below_INT_MAX _ _ Hb Hs) as [Es Hs'].
  destruct (incr_below_INT_MAX _ _ Hb Hl) as [El Hl'].
  destruct (incr_below_INT_MAX _ _ Hb Hi) as [Ei Hi'].
  unfold counters_below, matches_counted, incr_match_inner, incr_match_short,
    incr_match_long. cbn [match_short match_long match_inner].
  rewrite Es, El, Ei. lia.
Qed.

Lemma should_rename_true_cases clazz pre post g :
  fst (should_rename clazz pre post g) = true ->
  snd (should_rename clazz pre post g) = incr_match_inner g \/
  snd (should_rename clazz pre post g) = incr_match_short g \/
  snd (should_rename clazz pre post g) = incr_match_long g.
Proof.
  unfold should_rename.
  destruct (anonymous_class_test _); [auto|].
  destruct (match_patterns _ pre g) as [g1|] eqn:E1.
  - intros _. destruct (match_patterns_counts _ _ _ _ E1) as [-> | ->]; auto.
  - destruct (negb (can_rename clazz)); [discriminate|].
    destruct (match_patterns _ post g) as [g2|] eqn:E2; [|discriminate].
    intros _. destruct (match_patterns_counts _ _ _ _ E2) as [-> | ->]; auto.
Qed.

Lemma should_rename_false_counts clazz pre post g :
  fst (should_rename clazz pre post g) = false ->
  snd (should_rename clazz pre post g) = g.
Proof.
  unfold should_rename.
  destruct (anonymous_class_test _); [discriminate|].
  destruct (match_patterns _ pre g); [discriminate|].
  destruct (negb (can_rename clazz)); [reflexivity|].
  destruct (match_patterns _ post g); [discriminate | reflexivity].
Qed.

(** One call of [should_rename] on counters below [bound], itself at most
    [INT_MAX]: the counters stay below [bound + 1], and an accepted class
    is counted once. *)
Lemma should_rename_counters_step clazz pre post g bound :
  bound <= 2 ^ 31 - 1 -> counters_below g bound ->
  counters_below (snd (should_rename clazz pre post g)) (bound + 1) /\
  (fst (should_rename clazz pre post g) = true ->
   matches_counted (snd (should_rename clazz pre post g)) = matches_counted g + 1).
Proof.
  intros Hb Hg.
  destruct (incr_counts g bound Hb Hg) as [[Hi Ci] [[Hs Cs] [Hl Cl]]].
  destruct (fst (should_rename clazz pre post g)) eqn:E.
  - destruct (should_rename_true_cases clazz pre post g E) as [-> | [-> | ->]]; auto.
  - rewrite (should_rename_false_counts clazz pre post g E).
    split; [|discriminate]. eapply counters_below_mono; [|exact Hg]. lia.
Qed.


Lemma contains_empty s : contains s EmptyString.
Proof. exists EmptyString, s. reflexivity. Qed.

(** A pattern that is empty as a C string (the empty string, or one that
    begins with NUL) is found in every name: among the pre-patterns it
    makes [should_rename] accept every class, whatever [can_rename] says;
    among the post-patterns, every class that [can_rename]. *)
Theorem should_rename_empty_pattern_matches_all :
  (forall clazz pre post g p,
     In p pre -> c_str p = EmptyString ->
     fst (should_rename clazz pre post g) = true) /\
  (forall clazz pre post g p,
     In p post -> c_str p = EmptyString -> can_rename clazz = true ->
     fst (should_rename clazz pre post g) = true).
Proof.
  split.
  - intros clazz pre post g p Hin Hp. unfold should_rename.
    destruct (anonymous_class_test _); [reflexivity|].
    destruct (proj2 (match_patterns_is_Some_iff (c_str (class_name clazz)) pre g))
      as [g1 ->]; [|reflexivity].
    exists p. split; [exact Hin|]. rewrite Hp. apply contains_empty.
  - intros clazz pre post g p Hin Hp Hcan. unfold should_rename.
    destruct (anonymous_class_test _); [reflexivity|].
    destruct (match_patterns _ pre g); [reflexivity|].
    rewrite Hcan. cbv [negb].
    destruct (proj2 (match_patterns_is_Some_iff (c_str (class_name clazz)) post g))
      as [g1 ->]; [|reflexivity].
    exists p. split; [exact Hin|]. rewrite Hp. apply contains_empty.
Qed.

(** ** The renaming loop *)

Lemma strlen_nonneg s : 0 <= strlen s.
Proof. unfold strlen. lia. Qed.

Lemma alias_bytes_nonneg aliases : 0 <= alias_bytes aliases.
Proof.
  induction aliases as [|a l IH]; simpl; [lia|].
  pose proof (strlen_nonneg (c_str a.1)). pose proof (strlen_nonneg (c_str a.2)). lia.
Qed.

Lemma alias_bytes_cons a aliases :
  alias_bytes (a :: aliases) =
  strlen (c_str (fst a)) + strlen (c_str (snd a)) + alias_bytes aliases.
Proof. reflexivity. Qed.

Lemma renamed_aliases_cons n clazz R :
  renamed_aliases n (clazz :: R) =
  (class_name clazz, sprintf_LX (ident_digits n)) :: renamed_aliases (n + 1) R.
Proof.
  unfold renamed_aliases. rewrite imap_cons.
  replace (n + Z.of_nat 0) with n by lia. f_equal.
  apply imap_ext. intros i x _. cbn [compose].
  replace (n + Z.of_nat (S i)) with (n + 1 + Z.of_nat i) by lia. reflexivity.
Qed.

Lemma classes_to_rename_cons clazz scope pre post g :
  classes_to_rename (clazz :: scope) pre post =
  if fst (should_rename clazz pre post g)
  then clazz :: classes_to_rename scope pre post
  else classes_to_rename scope pre post.
Proof.
  unfold classes_to_rename. simpl.
  rewrite (should_rename_answer clazz pre post g (mkMatchCounters 0 0 0)).
  reflexivity.
Qed.

(** The loop, run: it succeeds when the counter stays within
    [MAX_IDENT] for every class it renames. *)
Lemma rename_classes_loop_run scope pre post : forall s,
  0 <= clazz_ident s ->
  let R := classes_to_rename scope pre post in
  let k := Z.of_nat (length R) in
  (R = [] \/ clazz_ident s + k <= MAX_IDENT + 1) ->
  exists g' b',
    rename_classes_loop scope pre post s =
      Some (mkRenameState (clazz_ident s + k) g' b'
              (class_aliases s ++ renamed_aliases (clazz_ident s) R)) /\
    (counters_below (rename_counters s) (2 ^ 31 - k) ->
     matches_counted g' = matches_counted (rename_counters s) + k) /\
    (int_range (base_strings_size s) ->
     b' = to_int (base_strings_size s + alias_bytes (renamed_aliases (clazz_ident s) R))).
Proof.
  induction scope as [|clazz scope IH]; intros s Hn; cbv zeta.
  - intros _. exists (rename_counters s), (base_strings_size s).
    cbn [classes_to_rename List.filter length Z.of_nat rename_classes_loop
         renamed_aliases imap alias_bytes foldr].
    rewrite Z.add_0_r, app_nil_r. destruct s; simpl.
    repeat split; [lia|]. intros H. rewrite Z.add_0_r. symmetry.
    apply to_int_id. exact H.
  - rewrite (classes_to_rename_cons clazz scope pre post (rename_counters s)).
    cbn [rename_classes_loop].
    pose proof (fun bound => should_rename_counters_step clazz pre post
                                (rename_counters s) bound) as Ht.
    pose proof (should_rename_false_counts clazz pre post (rename_counters s)) as Hf.
    destruct (should_rename clazz pre post (rename_counters s)) as [renamed g].
    cbn [fst snd] in *. destruct renamed.
    + intros Hk. cbn [length] in Hk. rewrite Nat2Z.inj_succ in Hk.
      assert (Hle : 0 <= clazz_ident s <= MAX_IDENT).
      { destruct Hk as [Hk|Hk]; [discriminate | lia]. }
      rewrite (get_next_ident_digits _ Hle).
      set (s1 := mkRenameState _ _ _ _).
      destruct (IH s1) as [g' [b' [Hrun [Hg Hb]]]].
      * subst s1. simpl. lia.
      * subst s1. simpl. destruct Hk as [Hk|Hk]; [discriminate|]. right. lia.
      * exists g', b'. rewrite Hrun. subst s1. cbn [clazz_ident class_aliases
          rename_counters base_strings_size] in *.
        rewrite renamed_aliases_cons. cbn [length]. rewrite Nat2Z.inj_succ.
        rewrite <- app_assoc. cbn [app].
        split; [do 2 f_equal; lia|]. split.
        { intros Hc.
          destruct (Ht (2 ^ 31 - Z.succ (Z.of_nat (length (classes_to_rename scope pre post))))
                      ltac:(lia) Hc) as [Hc' Hone].
          rewrite Hg, (Hone eq_refl); [lia|].
          eapply counters_below_mono; [|exact Hc']. lia. }
        intros _. rewrite Hb by apply to_int_range.
        unfold int_add_size_t. rewrite to_int_add_l, <- !Z.add_assoc, to_int_add_l.
        rewrite alias_bytes_cons. cbn [fst snd]. f_equal. lia.
    + intros Hk. rewrite (Hf eq_refl).
      set (s1 := mkRenameState _ _ _ _).
      destruct (IH s1 Hn Hk) as [g' [b' [Hrun [Hg Hb]]]].
      exists g', b'. rewrite Hrun. subst s1. simpl in *. auto.
Qed.

(** The loop, aborted: one class too many for the counter. *)
Lemma rename_classes_loop_abort scope pre post : forall s,
  0 <= clazz_ident s ->
  let R := classes_to_rename scope pre post in
  R <> [] ->
  MAX_IDENT + 1 < clazz_ident s + Z.of_nat (length R) ->
  rename_classes_loop scope pre post s = None.
Proof.
  induction scope as [|clazz scope IH]; intros s Hn; cbv zeta.
  - intros H. exfalso. apply H. reflexivity.
  - rewrite (classes_to_rename_cons clazz scope pre post (rename_counters s)).
    cbn [rename_classes_loop].
    destruct (should_rename clazz pre post (rename_counters s)) as [renamed g].
    cbn [fst snd]. destruct renamed.
    + intros _ Hk. cbn [length] in Hk. rewrite Nat2Z.inj_succ in Hk.
      destruct (Z.leb_spec (clazz_ident s) MAX_IDENT) as [Hle|Hgt].
      * rewrite (get_next_ident_digits _ (conj Hn Hle)).
        apply IH; simpl; [lia| |lia].
        intros E. rewrite E in Hk. simpl in Hk. lia.
      * apply get_next_ident_None_iff in Hgt. rewrite Hgt. reflexivity.
    + intros HR Hk. apply IH; simpl; assumption.
Qed.

Lemma renamed_aliases_snd_lookup n R i d :
  (snd <$> renamed_aliases n R) !! i = Some d ->
  d = sprintf_LX (ident_digits (n + Z.of_nat i)) /\ (i < length R)%nat.
Proof.
  rewrite list_lookup_fmap. unfold renamed_aliases. rewrite list_lookup_imap.
  destruct (R !! i) as [c|] eqn:E; simpl; [|discriminate].
  intros [= <-]. split; [reflexivity|]. eapply lookup_lt_Some, E.
Qed.

Lemma renamed_aliases_NoDup n R :
  0 <= n -> n + Z.of_nat (length R) <= MAX_IDENT + 1 ->
  NoDup (snd <$> renamed_aliases n R).
Proof.
  intros Hn Hk. apply NoDup_alt. intros i j d Hi Hj.
  apply renamed_aliases_snd_lookup in Hi as [Hi Hil].
  apply renamed_aliases_snd_lookup in Hj as [Hj Hjl].
  assert (n + Z.of_nat i = n + Z.of_nat j); [|lia].
  apply descriptor_inj; [lia | lia | congruence].
Qed.

Lemma rename_classes_loop_enough scope pre post s :
  0 <= clazz_ident s ->
  let R := classes_to_rename scope pre post in
  is_Some (rename_classes_loop scope pre post s) <->
  (R = [] \/ clazz_ident s + Z.of_nat (length R) <= MAX_IDENT + 1).
Proof.
  intros Hn R. split.
  - intros [s' Hs'].
    destruct (Z.leb_spec (clazz_ident s + Z.of_nat (length R)) (MAX_IDENT + 1))
      as [Hle|Hgt]; [right; exact Hle|].
    destruct R as [|c R'] eqn:ER; [left; reflexivity|]. exfalso.
    rewrite (rename_classes_loop_abort scope pre post s Hn) in Hs'.
    + discriminate.
    + fold R. rewrite ER. discriminate.
    + fold R. rewrite ER. exact Hgt.
  - intros H. destruct (rename_classes_loop_run scope pre post s Hn H)
      as [g' [b' [Hrun _]]].
    rewrite Hrun. eauto.
Qed.

Lemma rename_classes_loop_inv scope pre post s s' :
  0 <= clazz_ident s ->
  rename_classes_loop scope pre post s = Some s' ->
  let R := classes_to_rename scope pre post in
  let k := Z.of_nat (length R) in
  (R = [] \/ clazz_ident s + k <= MAX_IDENT + 1) /\
  clazz_ident s' = clazz_ident s + k /\
  (counters_below (rename_counters s) (2 ^ 31 - k) ->
   matches_counted (rename_counters s') = matches_counted (rename_counters s) + k) /\
  class_aliases s' = class_aliases s ++ renamed_aliases (clazz_ident s) R /\
  (int_range (base_strings_size s) ->
   base_strings_size s' =
   to_int (base_strings_size s + alias_bytes (renamed_aliases (clazz_ident s) R))).
Proof.
  intros Hn Hs' R k.
  assert (HR : R = [] \/ clazz_ident s + k <= MAX_IDENT + 1).
  { apply (rename_classes_loop_enough scope pre post s Hn). rewrite Hs'. eauto. }
  split; [exact HR|].
  destruct (rename_classes_loop_run scope pre post s Hn HR)
    as [g' [b' [Hrun [Hg Hb]]]].
  rewrite Hs' in Hrun. injection Hrun as ->. simpl. auto.
Qed.

(** [rename_classes] starts its counter at 0, and [get_next_ident]
    aborts the run at the first class that finds the counter above
    [MAX_IDENT]: the loop runs to the end exactly when [should_rename]
    accepts at most [MAX_IDENT + 1] = 140609 classes of the scope. *)
Theorem rename_classes_loop_capacity scope pre post g b aliases :
  is_Some (rename_classes_loop scope pre post (mkRenameState 0 g b aliases)) <->
  Z.of_nat (length (classes_to_rename scope pre post)) <= MAX_IDENT + 1.
Proof.
  rewrite rename_classes_loop_enough by (simpl; lia).
  cbn [clazz_ident]. rewrite MAX_IDENT_value. split.
  - intros [-> | H]; simpl; lia.
  - intros H. right. lia.
Qed.

(** [base_strings_size] is an [int] that the loop charges, for every
    class it renames, the length of the old name and the length of the
    new descriptor: at the end it holds the old value plus the bytes of
    the assignments made, reduced to 32 bits, and exactly that sum when
    the sum fits an [int]. *)
Theorem base_strings_size_accounting scope pre post s s'
    (Hn : 0 <= clazz_ident s)
    (Hb : int_range (base_strings_size s))
    (Hrun : rename_classes_loop scope pre post s = Some s') :
  let added := renamed_aliases (clazz_ident s) (classes_to_rename scope pre post) in
  class_aliases s' = class_aliases s ++ added /\
  base_strings_size s' = to_int (base_strings_size s + alias_bytes added) /\
  int_range (base_strings_size s') /\
  (base_strings_size s + alias_bytes added < 2 ^ 31 ->
   base_strings_size s' = base_strings_size s + alias_bytes added).
Proof.
  intros added.
  destruct (rename_classes_loop_inv scope pre post s s' Hn Hrun)
    as [_ [_ [_ [Ha Hbase]]]].
  specialize (Hbase Hb). fold added in Hbase.
  split; [exact Ha|]. split; [exact Hbase|]. split.
  - rewrite Hbase. apply to_int_range.
  - intros Hfit. rewrite Hbase. apply to_int_id.
    pose proof (alias_bytes_nonneg added). unfold int_range in *. lia.
Qed.

Lemma base_strings_size_accounting_witness :
  0 <= clazz_ident example_initial_state /\
  int_range (base_strings_size example_initial_state) /\
  rename_classes_loop example_scope [] ["foo"%string] example_initial_state =
    Some example_final_state /\
  let added := renamed_aliases (clazz_ident example_initial_state)
                 (classes_to_rename example_scope [] ["foo"%string]) in
  class_aliases example_final_state = class_aliases example_initial_state ++ added /\
  base_strings_size example_final_state =
    to_int (base_strings_size example_initial_state + alias_bytes added) /\
  int_range (base_strings_size example_final_state) /\
  (base_strings_size example_initial_state + alias_bytes added < 2 ^ 31 ->
   base_strings_size example_final_state =
   base_strings_size example_initial_state + alias_bytes added).
Proof.
  split; [simpl; lia|]. split; [unfold int_range; simpl; lia|].
  split; [vm_compute; reflexivity|].
  apply (base_strings_size_accounting example_scope [] ["foo"%string]
           example_initial_state example_final_state).
  - simpl. lia.
  - unfold int_range. simpl. lia.
  - vm_compute. reflexivity.
Defined.

(** ** [type_analyzer::Transform::Stats] *)

Lemma size_t_add_range a b : size_t_range (Transform.size_t_add a b).
Proof. unfold size_t_range, Transform.size_t_add. apply Z.mod_pos_bound. lia. Qed.

Lemma size_t_add_comm a b : Transform.size_t_add a b = Transform.size_t_add b a.
Proof. unfold Transform.size_t_add. f_equal. lia. Qed.

Lemma size_t_add_assoc a b c :
  Transform.size_t_add (Transform.size_t_add a b) c =
  Transform.size_t_add a (Transform.size_t_add b c).
Proof.
  unfold Transform.size_t_add.
  rewrite Zplus_mod_idemp_l, Zplus_mod_idemp_r. f_equal. lia.
Qed.

Lemma size_t_add_0_r a : size_t_range a -> Transform.size_t_add a 0 = a.
Proof.
  unfold size_t_range, Transform.size_t_add. intros H.
  rewrite Z.add_0_r. apply Z.mod_small. exact H.
Qed.

Lemma size_t_add_eq_0 a b :
  size_t_range a -> size_t_range b -> a + b < 2 ^ 64 ->
  (Transform.size_t_add a b =? 0) = (a =? 0) && (b =? 0).
Proof.
  unfold size_t_range, Transform.size_t_add. intros Ha Hb Hab.
  rewrite Z.mod_small by lia.
  destruct (Z.eqb_spec (a + b) 0), (Z.eqb_spec a 0), (Z.eqb_spec b 0);
    simpl; try reflexivity; lia.
Qed.

(** [operator+=] on [Stats] adds counter by counter in [size_t]: the sum
    is again five [size_t] values, the operation is commutative and
    associative, wrap-around included, and the default [Stats] is
    neutral on either side. *)
Theorem Transform_Stats_plus_assign_monoid :
  (forall a b, Transform.Stats_wf (Transform.plus_assign a b)) /\
  (forall a b, Transform.plus_assign a b = Transform.plus_assign b a) /\
  (forall a b c,
     Transform.plus_assign (Transform.plus_assign a b) c =
     Transform.plus_assign a (Transform.plus_assign b c)) /\
  (forall a, Transform.Stats_wf a ->
     Transform.plus_assign a Transform.Stats_default = a /\
     Transform.plus_assign Transform.Stats_default a = a).
Proof.
  split; [|split; [|split]].
  - intros a b. unfold Transform.Stats_wf, Transform.plus_assign. simpl.
    repeat split; apply size_t_add_range.
  - intros a b. unfold Transform.plus_assign. f_equal; apply size_t_add_comm.
  - intros a b c. unfold Transform.plus_assign. simpl.
    f_equal; apply size_t_add_assoc.
  - intros [n u k t o] (Hn & Hu & Hk & Ht & Ho). simpl in *.
    unfold Transform.plus_assign, Transform.Stats_default. simpl.
    rewrite !(size_t_add_comm 0), !size_t_add_0_r by assumption. auto.
Qed.

(** [is_empty] looks at three of the five counters, and for these it
    goes through [operator+=]: when none of the three sums wraps, the
    sum of two [Stats] is empty exactly when both are. The counters
    [unsupported_branch] and [null_check_only_type_checks] play no
    part. *)
Theorem Transform_Stats_is_empty_plus_assign (a b : Transform.Stats)
    (Ha : Transform.Stats_wf a) (Hb : Transform.Stats_wf b)
    (Hn : Transform.null_check_removed a + Transform.null_check_removed b < 2 ^ 64)
    (Hk : Transform.kotlin_null_check_removed a +
          Transform.kotlin_null_check_removed b < 2 ^ 64)
    (Ht : Transform.type_check_removed a + Transform.type_check_removed b < 2 ^ 64) :
  Transform.is_empty (Transform.plus_assign a b) =
  Transform.is_empty a && Transform.is_empty b.
Proof.
  destruct Ha as (Han & _ & Hak & Hat & _), Hb as (Hbn & _ & Hbk & Hbt & _).
  unfold Transform.is_empty, Transform.plus_assign. simpl.
  rewrite !size_t_add_eq_0 by assumption.
  destruct (Transform.null_check_removed a =? 0),
    (Transform.null_check_removed b =? 0),
    (Transform.kotlin_null_check_removed a =? 0),
    (Transform.kotlin_null_check_removed b =? 0),
    (Transform.type_check_removed a =? 0),
    (Transform.type_check_removed b =? 0); reflexivity.
Qed.

Lemma Transform_Stats_is_empty_plus_assign_witness :
  Transform.Stats_wf (Transform.mkStats 0 4 0 0 1) /\
  Transform.Stats_wf (Transform.mkStats 2 0 0 3 0) /\
  Transform.is_empty
    (Transform.plus_assign (Transform.mkStats 0 4 0 0 1) (Transform.mkStats 2 0 0 3 0)) =
  Transform.is_empty (Transform.mkStats 0 4 0 0 1) &&
  Transform.is_empty (Transform.mkStats 2 0 0 3 0).
Proof.
  assert (Ha : Transform.Stats_wf (Transform.mkStats 0 4 0 0 1)).
  { unfold Transform.Stats_wf, size_t_range. simpl. lia. }
  assert (Hb : Transform.Stats_wf (Transform.mkStats 2 0 0 3 0)).
  { unfold Transform.Stats_wf, size_t_range. simpl. lia. }
  split; [exact Ha|]. split; [exact Hb|].
  apply (Transform_Stats_is_empty_plus_assign _ _ Ha Hb); simpl; lia.
Defined.

(** ** The aliases of generic types *)

Lemma substring_0_append u v :
  String.substring 0 (String.length u) (String.append u v) = u.
Proof.
  induction u as [|a u IH]; simpl.
  - destruct v; reflexivity.
  - rewrite IH. reflexivity.
Qed.

Lemma get_append_length u c v :
  String.get (String.length u) (String.append u (String c v)) = Some c.
Proof. induction u as [|a u IH]; simpl; [reflexivity | exact IH]. Qed.

Lemma string_snoc s :
  s <> EmptyString ->
  exists u c, s = String.append u (String c EmptyString).
Proof.
  induction s as [|a s IH]; [congruence|]. intros _.
  destruct s as [|b s].
  - exists EmptyString, a. reflexivity.
  - destruct IH as [u [c E]]; [discriminate|].
    exists (String a u), c. rewrite E. reflexivity.
Qed.

Lemma strlen_snoc u c : strlen (String.append u (String c EmptyString)) = strlen u + 1.
Proof. unfold strlen. rewrite length_append. simpl. lia. Qed.

Lemma index_char_last u c :
  index_char (String.append u (String c EmptyString)) (strlen u) = c.
Proof.
  unfold index_char, strlen. rewrite Nat2Z.id, get_append_length. reflexivity.
Qed.

Lemma truncate_at_last u c :
  truncate_at (String.append u (String c EmptyString)) (strlen u) = u.
Proof.
  unfold truncate_at, strlen. rewrite Nat2Z.id. apply substring_0_append.
Qed.

(** One step of the loop over the aliases, whatever the pair: when it
    assigns, the name it assigns to is interned and is the source
    without its final [;], and the target is the second string without
    its last character, which the code does not look at. A source that
    is not empty and does not end in [;] is passed over. *)
Theorem generic_alias_strips_last_char :
  (forall get_string apair dstring target,
     generic_alias get_string apair = GA_assign dstring target ->
     get_string dstring = true /\
     c_str (fst apair) = String.append dstring ";" /\
     exists c, c_str (snd apair) = String.append target (String c EmptyString)) /\
  (forall get_string apair u c,
     c_str (fst apair) = String.append u (String c EmptyString) ->
     c <> ";"%char ->
     generic_alias get_string apair = GA_continue).
Proof.
  split.
  - intros get_string [first second] dstring target. unfold generic_alias.
    cbn [fst snd].
    destruct (Z.eqb_spec (strlen (c_str first)) 0) as [|Hlen]; [discriminate|].
    destruct (string_snoc (c_str first)) as [u [c Eu]].
    { intros E. rewrite E in Hlen. apply Hlen. reflexivity. }
    rewrite Eu, strlen_snoc. replace (strlen u + 1 - 1) with (strlen u) by lia.
    rewrite index_char_last, truncate_at_last.
    destruct (Ascii.eqb_spec c ";"%char) as [->|]; [|discriminate]. cbv [negb].
    destruct (MAX_DESCRIPTOR_LENGTH <? strlen u + 1 + 1); [discriminate|].
    destruct (get_string u) eqn:Hu; [|discriminate].
    destruct (MAX_DESCRIPTOR_LENGTH <? strlen (c_str second) + 1); [discriminate|].
    destruct (Z.eqb_spec (strlen (c_str second)) 0) as [|Hlen2]; [discriminate|].
    destruct (string_snoc (c_str second)) as [t [d Et]].
    { intros E. rewrite E in Hlen2. apply Hlen2. reflexivity. }
    rewrite Et, strlen_snoc. replace (strlen t + 1 - 1) with (strlen t) by lia.
    rewrite truncate_at_last. intros [= <- <-]. eauto.
  - intros get_string [first second] u c Eu Hc. unfold generic_alias.
    cbn [fst snd] in *. rewrite Eu, strlen_snoc.
    pose proof (strlen_nonneg u).
    destruct (Z.eqb_spec (strlen u + 1) 0) as [|_]; [lia|].
    replace (strlen u + 1 - 1) with (strlen u) by lia.
    rewrite index_char_last.
    destruct (Ascii.eqb_spec c ";"%char) as [|_]; [contradiction|]. reflexivity.
Qed.

(** The loop over the aliases, on an assignment the renaming loop has
    made for a class whose name ends in [;] and fits the buffer: the two
    copies into [buf] stay within it, and when the name without its [;]
    is interned it is assigned [LX] and the identifier, the new
    descriptor without its [;]; otherwise the pair is passed over. *)
Theorem generic_alias_of_renamed_class get_string oldname u num
    (Hnum : 0 <= num <= MAX_IDENT)
    (Hname : c_str oldname = String.append u ";")
    (Hfits : strlen u + 2 <= MAX_DESCRIPTOR_LENGTH) :
  generic_alias get_string (oldname, sprintf_LX (ident_digits num)) =
  if get_string u then GA_assign u (String.append "LX" (ident_digits num))
  else GA_continue.
Proof.
  unfold generic_alias. cbn [fst snd]. rewrite Hname, strlen_snoc.
  pose proof (strlen_nonneg u) as Hu.
  destruct (Z.eqb_spec (strlen u + 1) 0) as [|_]; [lia|].
  replace (strlen u + 1 - 1) with (strlen u) by lia.
  rewrite index_char_last, truncate_at_last.
  change (Ascii.eqb ";" ";") with true. cbv [negb].
  destruct (Z.ltb_spec MAX_DESCRIPTOR_LENGTH (strlen u + 1 + 1)) as [|_]; [lia|].
  destruct (get_string u); [|reflexivity].
  destruct (ident_digits_shape num Hnum) as [Hlen [Hletters _]].
  destruct (sprintf_LX_letters _ Hletters) as [E [Hl [Hc _]]].
  rewrite Hc, E.
  change (String.append "LX" (String.append (ident_digits num) ";"))
    with (String.append (String.append "LX" (ident_digits num)) ";").
  rewrite strlen_snoc.
  assert (Hlx : strlen (String.append "LX" (ident_digits num)) =
                strlen (ident_digits num) + 2).
  { unfold strlen. change (String.append "LX" (ident_digits num))
      with (String "L" (String "X" (ident_digits num))).
    cbn [String.length]. lia. }
  assert (Hd : 1 <= strlen (ident_digits num) <= 3) by (unfold strlen; lia).
  unfold MAX_DESCRIPTOR_LENGTH in *.
  destruct (Z.ltb_spec 1024 (strlen (String.append "LX" (ident_digits num)) + 1 + 1))
    as [|_]; [lia|].
  destruct (Z.eqb_spec (strlen (String.append "LX" (ident_digits num)) + 1) 0)
    as [|_]; [lia|].
  replace (strlen (String.append "LX" (ident_digits num)) + 1 - 1)
    with (strlen (String.append "LX" (ident_digits num))) by lia.
  rewrite truncate_at_last. reflexivity.
Qed.

Lemma generic_alias_of_renamed_class_witness :
  0 <= 52 <= MAX_IDENT /\
  c_str "Lcom/foo/Bar;" = String.append "Lcom/foo/Bar" ";" /\
  strlen "Lcom/foo/Bar" + 2 <= MAX_DESCRIPTOR_LENGTH /\
  generic_alias (String.eqb "Lcom/foo/Bar")
    ("Lcom/foo/Bar;"%string, sprintf_LX (ident_digits 52)) =
  if String.eqb "Lcom/foo/Bar" "Lcom/foo/Bar"
  then GA_assign "Lcom/foo/Bar" (String.append "LX" (ident_digits 52))
  else GA_continue.
Proof.
  assert (Hnum : 0 <= 52 <= MAX_IDENT) by (rewrite MAX_IDENT_value; lia).
  assert (Hfits : strlen "Lcom/foo/Bar" + 2 <= MAX_DESCRIPTOR_LENGTH)
    by (vm_compute; discriminate).
  split; [exact Hnum|]. split; [reflexivity|]. split; [exact Hfits|].
  apply (generic_alias_of_renamed_class (String.eqb "Lcom/foo/Bar")
           "Lcom/foo/Bar;" "Lcom/foo/Bar" 52 Hnum eq_refl Hfits).
Defined.

(** ** The renaming loop with the aliases of array types *)

Lemma c_str_no_NUL s : all_chars (fun c => c <> NUL) (c_str s).
Proof.
  induction s as [|a s IH]; simpl; [exact I|].
  destruct (Ascii.eqb_spec a NUL) as [|Ha]; simpl; auto.
Qed.

Lemma c_str_idem s : c_str (c_str s) = c_str s.
Proof. apply c_str_without_NUL, c_str_no_NUL. Qed.

Lemma c_str_bracket s : c_str (String "[" (c_str s)) = String "[" (c_str s).
Proof.
  change (c_str (String "[" (c_str s)))
    with (String "["%char (c_str (c_str s))).
  rewrite c_str_idem. reflexivity.
Qed.

Lemma brackets_comm j s : brackets j (String "[" s) = String "[" (brackets j s).
Proof. induction j as [|j IH]; simpl; [reflexivity|]. rewrite IH. reflexivity. Qed.

Lemma array_aliases_of_S a depth :
  array_aliases_of a (S depth) =
  (String "[" (c_str (fst a)), String "[" (c_str (snd a)))
  :: array_aliases_of (String "[" (c_str (fst a)), String "[" (c_str (snd a))) depth.
Proof.
  unfold array_aliases_of. cbn [seq fmap list_fmap brackets fst snd]. f_equal.
  rewrite <- (fmap_S_seq 1 depth), <- list_fmap_compose.
  apply list_fmap_ext. intros k j _. cbn [compose brackets].
  rewrite !c_str_bracket, !brackets_comm. reflexivity.
Qed.

Section RenameRunFacts.

Context {World : Type}.
Variable make_string : string -> World -> World.
Variable get_string : string -> World -> bool.
Variable get_type : string -> World -> bool.
Variable assign_name_alias : string -> string -> World -> World.

#[local] Abbreviation inner_loop :=
  (array_aliases_loop make_string get_string get_type assign_name_alias).
#[local] Abbreviation run :=
  (rename_classes_run make_string get_string get_type assign_name_alias).

(** One round of the inner loop. *)
Lemma array_aliases_loop_S fuel oldname dstring w aliases :
  inner_loop (S fuel) oldname dstring w aliases =
  if negb (get_string (String "[" (c_str oldname)) w) then Some (aliases, w)
  else if negb (get_type (String "[" (c_str oldname)) w) then Some (aliases, w)
  else
    inner_loop fuel (String "[" (c_str oldname)) (String "[" (c_str dstring))
      (assign_name_alias (String "[" (c_str oldname)) (String "[" (c_str dstring))
         (make_string (String "[" (c_str dstring)) w))
      (aliases ++ [(String "[" (c_str oldname), String "[" (c_str dstring))]).
Proof.
  cbn [array_aliases_loop].
  change (String.append "[" (c_str oldname)) with (String "[" (c_str oldname)).
  change (String.append "[" (c_str dstring)) with (String "[" (c_str dstring)).
  rewrite !c_str_bracket. reflexivity.
Qed.

(** The inner loop adds the aliases of the array types of one, two, ...
    dimensions, and nothing else. *)
Lemma array_aliases_loop_Some fuel : forall oldname dstring w aliases aliases' w',
  inner_loop fuel oldname dstring w aliases = Some (aliases', w') ->
  exists depth, aliases' = aliases ++ array_aliases_of (oldname, dstring) depth.
Proof.
  induction fuel as [|fuel IH]; intros oldname dstring w aliases aliases' w';
    [discriminate|].
  rewrite array_aliases_loop_S.
  destruct (get_string _ w); cbn [negb].
  2:{ intros [= <- <-]. exists 0%nat. rewrite app_nil_r. reflexivity. }
  destruct (get_type _ w); cbn [negb].
  2:{ intros [= <- <-]. exists 0%nat. rewrite app_nil_r. reflexivity. }
  intros H. apply IH in H. destruct H as [depth ->].
  exists (S depth). rewrite (array_aliases_of_S (oldname, dstring)).
  rewrite <- app_assoc. reflexivity.
Qed.

(** When no string of [bound] characters or more is interned, the inner
    loop ends within [bound] rounds. *)
Lemma array_aliases_loop_terminates (bound : nat) :
  (forall w name, (bound <= String.length name)%nat -> get_string name w = false) ->
  forall fuel oldname dstring w aliases,
    (bound <= fuel + String.length (c_str oldname))%nat ->
    is_Some (inner_loop (S fuel) oldname dstring w aliases).
Proof.
  intros Hdepth. induction fuel as [|fuel IH]; intros oldname dstring w aliases Hb;
    rewrite array_aliases_loop_S.
  - rewrite Hdepth by (simpl; lia). simpl. eauto.
  - destruct (get_string _ w); cbn [negb]; [|eauto].
    destruct (get_type _ w); cbn [negb]; [|eauto].
    apply IH. rewrite c_str_bracket. simpl. lia.
Qed.

(** The run follows [rename_classes_loop] in the variables both have, and
    its assignments are those of [rename_classes_loop], each followed by
    the aliases of the array types of the class. *)
Lemma rename_classes_run_simulates fuel scope pre post : forall r l,
  0 <= run_clazz_ident r ->
  let R := classes_to_rename scope pre post in
  match run fuel scope pre post r with
  | Finished r' =>
      exists depths,
        length depths = length R /\
        rename_classes_loop scope pre post (class_level r l) =
          Some (class_level r' (l ++ renamed_aliases (run_clazz_ident r) R)) /\
        run_aliases r' =
          run_aliases r ++
          concat (zip_with with_array_aliases
                    (renamed_aliases (run_clazz_ident r) R) depths)
  | Aborted => rename_classes_loop scope pre post (class_level r l) = None
  | OutOfFuel => True
  end.
Proof.
  induction scope as [|clazz scope IH]; intros r l Hn; cbv zeta.
  - cbn [rename_classes_run classes_to_rename List.filter rename_classes_loop].
    exists []. split; [reflexivity|]. cbn [renamed_aliases imap zip_with concat].
    rewrite !app_nil_r. destruct r; auto.
  - rewrite (classes_to_rename_cons clazz scope pre post (run_counters r)).
    cbn [rename_classes_run rename_classes_loop class_level rename_counters
         clazz_ident base_strings_size class_aliases].
    destruct (should_rename clazz pre post (run_counters r)) as [renamed g].
    cbn [fst]. destruct renamed.
    + destruct (get_next_ident (run_clazz_ident r)) as [[clzname ident]|] eqn:Eid;
        [|reflexivity].
      pose proof (get_next_ident_Some_range _ _ Eid) as Hle.
      rewrite (get_next_ident_digits _ (conj Hn Hle)) in Eid.
      injection Eid as <- <-.
      destruct (inner_loop fuel _ _ _ _) as [[aliases' w']|] eqn:Einner; [|exact I].
      apply array_aliases_loop_Some in Einner. destruct Einner as [depth ->].
      set (r1 := mkRenameRun _ _ _ _ _).
      specialize (IH r1 (l ++ [(class_name clazz,
                                sprintf_LX (ident_digits (run_clazz_ident r)))])).
      cbv zeta in IH.
      assert (Hn1 : 0 <= run_clazz_ident r1) by (subst r1; simpl; lia).
      specialize (IH Hn1).
      destruct (run fuel scope pre post r1) as [r'| |]; [| |exact I].
      * destruct IH as [depths [Hlen [Hslice Hal]]]. exists (depth :: depths).
        subst r1. unfold class_level in *.
        cbn [run_clazz_ident run_counters run_base_strings_size run_aliases] in *.
        rewrite renamed_aliases_cons. cbn [length zip_with concat].
        split; [congruence|]. split.
        -- rewrite Hslice. rewrite <- app_assoc. reflexivity.
        -- rewrite Hal. unfold with_array_aliases at 2.
           rewrite <- !app_assoc. reflexivity.
      * subst r1. exact IH.
    + set (r1 := mkRenameRun _ _ _ _ _).
      specialize (IH r1 l Hn). cbv zeta in IH.
      destruct (run fuel scope pre post r1) as [r'| |]; [| |exact I].
      * destruct IH as [depths [Hlen [Hslice Hal]]]. exists depths.
        subst r1. unfold class_level in *.
        cbn [run_clazz_ident run_counters run_base_strings_size run_aliases] in *.
        auto.
      * subst r1. exact IH.
Qed.

Lemma rename_classes_run_terminates (bound : nat) scope pre post :
  (forall w name, (bound <= String.length name)%nat -> get_string name w = false) ->
  forall r, run (S bound) scope pre post r <> OutOfFuel.
Proof.
  intros Hdepth. induction scope as [|clazz scope IH]; intros r; [discriminate|].
  cbn [rename_classes_run].
  destruct (should_rename clazz pre post (run_counters r)) as [renamed g].
  destruct renamed; [|apply IH].
  destruct (get_next_ident (run_clazz_ident r)) as [[clzname ident]|]; [|discriminate].
  destruct (array_aliases_loop_terminates bound Hdepth bound (class_name clazz)
              (sprintf_LX clzname)
              (assign_name_alias (class_name clazz) (sprintf_LX clzname)
                 (make_string (sprintf_LX clzname) (run_world r)))
              (run_aliases r ++ [(class_name clazz, sprintf_LX clzname)]))
    as [[aliases' w'] ->]; [lia|].
  apply IH.
Qed.

End RenameRunFacts.

(** The targets of the aliases: a descriptor with brackets in front
    tells the descriptor and the number of brackets. *)
Lemma brackets_inj j j' t t' :
  brackets j (String "L" t) = brackets j' (String "L" t') -> j = j' /\ t = t'.
Proof.
  revert j'. induction j as [|j IH]; intros [|j']; simpl; intros H.
  - injection H as ->. auto.
  - discriminate.
  - discriminate.
  - injection H as H. apply IH in H. destruct H as [-> ->]. auto.
Qed.

Lemma targets_with_array_aliases a depth :
  c_str (snd a) = snd a ->
  snd <$> with_array_aliases a depth =
  (fun j => brackets j (snd a)) <$> seq 0 (S depth).
Proof.
  intros Hc. unfold with_array_aliases, array_aliases_of.
  cbn [seq fmap list_fmap brackets]. f_equal.
  rewrite <- list_fmap_compose. apply list_fmap_ext.
  intros k j _. cbn [compose snd]. rewrite Hc. reflexivity.
Qed.

Lemma elem_of_targets x A : forall depths,
  Forall descriptor_like A ->
  x ∈ snd <$> concat (zip_with with_array_aliases A depths) ->
  exists a j, a ∈ A /\ x = brackets j (snd a).
Proof.
  induction A as [|a A IH]; intros [|d depths] HA; cbn [zip_with concat];
    try (intros H; apply elem_of_nil in H; contradiction).
  apply Forall_cons in HA. destruct HA as [[Hc _] HA].
  rewrite fmap_app, elem_of_app. intros [H|H].
  - rewrite (targets_with_array_aliases _ _ Hc) in H.
    apply list_elem_of_fmap in H. destruct H as [j [-> _]].
    exists a, j. split; [left|reflexivity].
  - destruct (IH depths HA H) as [a' [j [Ha' ->]]].
    exists a', j. split; [right; exact Ha' | reflexivity].
Qed.

Lemma targets_NoDup A : forall depths,
  Forall descriptor_like A -> NoDup (snd <$> A) ->
  NoDup (snd <$> concat (zip_with with_array_aliases A depths)).
Proof.
  induction A as [|a A IH]; intros depths HA Hnd.
  { destruct depths; simpl; constructor. }
  destruct depths as [|d depths]; [simpl; constructor|]. cbn [zip_with concat].
  apply Forall_cons in HA. destruct HA as [[Hc [t Ht]] HA].
  rewrite fmap_cons in Hnd. apply NoDup_cons in Hnd. destruct Hnd as [Hnotin Hnd].
  rewrite fmap_app. apply NoDup_app. split; [|split].
  - rewrite (targets_with_array_aliases _ _ Hc).
    apply NoDup_fmap_2_strong; [|apply NoDup_seq].
    intros j j' _ _ Hjj. rewrite Ht in Hjj. apply brackets_inj in Hjj. tauto.
  - intros x Hx Hx'.
    rewrite (targets_with_array_aliases _ _ Hc) in Hx.
    apply list_elem_of_fmap in Hx. destruct Hx as [j [-> _]].
    destruct (elem_of_targets _ _ _ HA Hx') as [a' [j' [Ha' Heq]]].
    assert (Hd' : descriptor_like a').
    { rewrite Forall_forall in HA. apply HA, Ha'. }
    destruct Hd' as [_ [t' Ht']]. rewrite Ht, Ht' in Heq.
    apply brackets_inj in Heq. destruct Heq as [_ ->].
    apply Hnotin. rewrite Ht, <- Ht'. apply list_elem_of_fmap. eauto.
  - apply IH; assumption.
Qed.

Lemma renamed_aliases_descriptor_like n R :
  0 <= n -> n + Z.of_nat (length R) <= MAX_IDENT + 1 ->
  Forall descriptor_like (renamed_aliases n R).
Proof.
  intros Hn Hk. apply Forall_forall. intros a Ha.
  apply list_elem_of_lookup in Ha. destruct Ha as [i Hi].
  unfold renamed_aliases in Hi. rewrite list_lookup_imap in Hi.
  destruct (R !! i) as [c|] eqn:E; simpl in Hi; [|discriminate].
  injection Hi as <-. apply lookup_lt_Some in E.
  assert (Hr : 0 <= n + Z.of_nat i <= MAX_IDENT) by lia.
  destruct (ident_digits_shape _ Hr) as [_ [Hletters _]].
  destruct (sprintf_LX_letters _ Hletters) as [Es [_ [Hc _]]].
  split; [exact Hc|]. cbn [snd]. rewrite Es. eexists. reflexivity.
Qed.

Lemma renamed_aliases_fst n R : fst <$> renamed_aliases n R = class_name <$> R.
Proof.
  unfold renamed_aliases. rewrite fmap_imap.
  induction R as [|c R IH]; [reflexivity|].
  rewrite imap_cons. cbn [fmap list_fmap]. f_equal. exact IH.
Qed.




Lemma example_get_string_bounded w name :
  (64 <= String.length name)%nat -> example_get_string name w = false.
Proof.
  intros H. unfold example_get_string.
  rewrite (proj2 (Nat.ltb_ge _ _) H). reflexivity.
Qed.

